(** * OpenDiscord: the session/thread synchronisation core

    A shallow embedding of the JavaScript sources of the Discord bridge
    (the bot file holding [splitMessage], [getLatestExchange],
    [handleSessionIdle], [startGlobalEventSubscription],
    [handleButtonInteraction] and the webhook server) together with the
    properties its specification states about it.

    Conventions of the embedding:
    - a JS string is the list of its UTF-16 code units ([list N]);
    - a JS integer number is a [Z]; [-1] is the usual "not found" value;
    - [undefined]/[null] are [None];
    - a [Map] is a [gmap], a [Set] is a [gset];
    - a call to the chat platform or to the AI backend takes its outcome
      from an explicit environment record and is logged in a trace. *)

From Stdlib Require Import ZArith Lia Ascii String.
From stdpp Require Import gmap strings list fin_maps pretty.
From Equations Require Import Equations.

Set Default Proof Using "Type".

(** ** JavaScript strings *)

Abbreviation jsstring := (list N).

Module JS.

(** A string literal of the source, as code units. *)
Definition lit (s : string) : jsstring :=
  N_of_ascii <$> list_ascii_of_string s.

Definition NEWLINE : N := 10.   (* '\n' *)
Definition SPACE : N := 32.     (* ' '  *)

(** [s.length] *)
Definition len (s : jsstring) : Z := Z.of_nat (List.length s).

(** WhiteSpace and LineTerminator code units, the ones [trim] removes. *)
Definition is_white_space (c : N) : bool :=
  ((9 <=? c) && (c <=? 13) || (c =? 32) || (c =? 160) || (c =? 5760)
   || (8192 <=? c) && (c <=? 8202) || (c =? 8232) || (c =? 8233)
   || (c =? 8239) || (c =? 8287) || (c =? 12288) || (c =? 65279))%N.

Fixpoint trimStart (s : jsstring) : jsstring :=
  match s with
  | c :: s' => if is_white_space c then trimStart s' else s
  | [] => []
  end.

Definition trimEnd (s : jsstring) : jsstring := rev (trimStart (rev s)).

(** [s.trim()] *)
Definition trim (s : jsstring) : jsstring := trimEnd (trimStart s).

(** A relative index of [slice]: negative counts from the end, and the
    result is clamped to [0, len]. *)
Definition relative_index (length_ : Z) (i : Z) : Z :=
  if (i <? 0)%Z then Z.max (length_ + i) 0 else Z.min i length_.

(** [s.slice(start, end)] *)
Definition slice {A} (s : list A) (start end_ : Z) : list A :=
  let length_ := Z.of_nat (List.length s) in
  let from := relative_index length_ start in
  let to := relative_index length_ end_ in
  take (Z.to_nat (to - from)) (drop (Z.to_nat from) s).

(** [s.slice(start)] *)
Definition slice_from {A} (s : list A) (start : Z) : list A :=
  slice s start (Z.of_nat (List.length s)).

(** [s.lastIndexOf(c, position)] for a search string of one code unit:
    the candidates are tried from [min(max(position, 0), len - 1)] down
    to [0]; [n] is the number of candidates left. *)
Fixpoint lastIndexOf_from (s : jsstring) (c : N) (n : nat) : Z :=
  match n with
  | O => -1
  | S i =>
      match s !! i with
      | Some c' => if (c' =? c)%N then Z.of_nat i else lastIndexOf_from s c i
      | None => lastIndexOf_from s c i
      end
  end.

Definition lastIndexOf (s : jsstring) (c : N) (position : Z) : Z :=
  let start := Z.min (Z.max position 0) (len s - 1) in
  lastIndexOf_from s c (Z.to_nat (start + 1)).

(** Truthiness of a string-or-undefined value: [undefined] and the empty
    string are falsy. *)
Definition truthy (v : option jsstring) : bool :=
  match v with
  | Some (_ :: _) => true
  | _ => false
  end.

(** [a || b] on string-or-undefined values. *)
Definition or (a b : option jsstring) : option jsstring :=
  if truthy a then a else b.

End JS.

(** ** splitMessage *)

(** The choice of the split point inside one iteration of the loop of
    [splitMessage].  [splitIndex < maxLength / 2] is a comparison of
    numbers; on integers it is [2 * splitIndex < maxLength]. *)
Definition chooseSplitIndex (remaining : jsstring) (maxLength : Z) : Z :=
  (* Try to split at newline *)
  let splitIndex := JS.lastIndexOf remaining JS.NEWLINE maxLength in
  let splitIndex :=
    if (splitIndex =? -1)%Z || (2 * splitIndex <? maxLength)%Z
    then (* Try to split at space *)
      JS.lastIndexOf remaining JS.SPACE maxLength
    else splitIndex in
  if (splitIndex =? -1)%Z || (2 * splitIndex <? maxLength)%Z
  then (* Force split *) maxLength
  else splitIndex.

(** The [while (remaining.length > 0)] loop.  The loop need not stop (with
    [maxLength = 0] it never does), so it runs on fuel: [None] is "still
    running when the fuel was used up". *)
Fixpoint splitMessage_loop (fuel : nat) (maxLength : Z)
    (remaining : jsstring) (parts : list jsstring) : option (list jsstring) :=
  match fuel with
  | O => None
  | S fuel' =>
      if (0 <? JS.len remaining)%Z then
        if (JS.len remaining <=? maxLength)%Z then
          Some (parts ++ [remaining])
        else
          let splitIndex := chooseSplitIndex remaining maxLength in
          splitMessage_loop fuel' maxLength
            (JS.trim (JS.slice_from remaining splitIndex))
            (parts ++ [JS.slice remaining 0 splitIndex])
      else Some parts
  end.

Definition splitMessage_fuel (fuel : nat) (text : jsstring) (maxLength : Z)
    : option (list jsstring) :=
  if (JS.len text <=? maxLength)%Z then Some [text]
  else splitMessage_loop fuel maxLength text [].

(** One unit of fuel per code unit, and one for the last test of the loop
    condition. *)
Definition splitMessage (text : jsstring) (maxLength : Z)
    : option (list jsstring) :=
  splitMessage_fuel (S (List.length text)) text maxLength.

(** ** Messages and the exchange extractor *)

Record part := { part_type : option jsstring; part_text : option jsstring }.

Record message_info := { info_role : option jsstring }.

Record message := {
  msg_role : option jsstring;
  msg_info : option message_info;
  msg_parts : option (list part)
}.

Definition ASSISTANT : jsstring := JS.lit "assistant".
Definition USER : jsstring := JS.lit "user".

(** [msg.role || msg.info?.role] *)
Definition message_role (msg : message) : option jsstring :=
  JS.or (msg_role msg) (msg_info msg ≫= info_role).

Definition extractMessageContent (message : option message) : jsstring :=
  match message with
  | None => []
  | Some m =>
      let parts := default [] (msg_parts m) in
      if bool_decide (List.length parts = 0) then []
      else
        JS.trim
          (foldl (λ content p,
                    if bool_decide (part_type p = Some (JS.lit "text"))
                    then content ++ default [] (JS.or (part_text p) (Some []))
                    else content)
                 [] parts)
  end.

Record exchange := {
  userMessage : option message;
  assistantMessage : option message
}.

(** The backward scan [for (let i = messages.length - 1; i >= 0; i--)].
    [visited] holds [messages[i]], [messages[i-1]], ..., [messages[0]];
    the result is [(lastUserIdx, lastAssistantIdx)]. *)
Fixpoint getLatestExchange_loop (visited : list message) (i : Z)
    (lastAssistantIdx : Z) : Z * Z :=
  match visited with
  | [] => (-1, lastAssistantIdx)%Z
  | msg :: rest =>
      let role := message_role msg in
      let lastAssistantIdx :=
        if bool_decide (role = Some ASSISTANT) && (lastAssistantIdx =? -1)%Z
        then i else lastAssistantIdx in
      if bool_decide (role = Some USER) && negb (lastAssistantIdx =? -1)%Z
      then (i, lastAssistantIdx)
      else getLatestExchange_loop rest (i - 1) lastAssistantIdx
  end.

Definition getLatestExchange (messages : list message) : option exchange :=
  let '(lastUserIdx, lastAssistantIdx) :=
    getLatestExchange_loop (rev messages)
      (Z.of_nat (List.length messages) - 1) (-1) in
  if (lastUserIdx =? -1)%Z || (lastAssistantIdx =? -1)%Z then None
  else Some {| userMessage := messages !! Z.to_nat lastUserIdx;
               assistantMessage := messages !! Z.to_nat lastAssistantIdx |}.

(** ** The process-wide state *)

(** A value of [lastPostedContent]. *)
Record posted := { userContent : jsstring; assistantContent : jsstring }.

Record thread := { thread_id : jsstring; thread_name : jsstring }.

(** What a [setTimeout] was given to call. *)
Inductive callback :=
| CallHandleSessionIdle (sessionId : jsstring)
| CallStartGlobalEventSubscription.

#[global] Instance callback_eq_dec : EqDecision callback.
Proof. solve_decision. Defined.

(** Calls to the chat platform and to the AI backend, as attempted. *)
Inductive effect :=
| SessionMessages (sessionId : jsstring)
| EnsureSyncChannel
| ChannelSend (channel : jsstring) (title : jsstring)
| StartThread (name : jsstring) (sessionId : jsstring)
| ChannelsFetch (threadId : jsstring)
| ThreadSend (threadId : jsstring) (content : jsstring)
| GlobalEvent.

Record world := {
  sessionToThread : gmap jsstring jsstring;
  threadToSession : gmap jsstring jsstring;
  subscribedThreads : gset jsstring;
  lastPostedContent : gmap jsstring posted;
  discordInitiatedSessions : gset jsstring;
  syncChannel : option jsstring;
  timers : list (callback * Z);
  trace : list effect
}.

Definition initial_world : world :=
  {| sessionToThread := ∅; threadToSession := ∅; subscribedThreads := ∅;
     lastPostedContent := ∅; discordInitiatedSessions := ∅;
     syncChannel := None; timers := []; trace := [] |}.

Definition with_sessionToThread (f : gmap jsstring jsstring → gmap jsstring jsstring)
    (w : world) : world :=
  {| sessionToThread := f (sessionToThread w);
     threadToSession := threadToSession w;
     subscribedThreads := subscribedThreads w;
     lastPostedContent := lastPostedContent w;
     discordInitiatedSessions := discordInitiatedSessions w;
     syncChannel := syncChannel w; timers := timers w; trace := trace w |}.

Definition with_threadToSession (f : gmap jsstring jsstring → gmap jsstring jsstring)
    (w : world) : world :=
  {| sessionToThread := sessionToThread w;
     threadToSession := f (threadToSession w);
     subscribedThreads := subscribedThreads w;
     lastPostedContent := lastPostedContent w;
     discordInitiatedSessions := discordInitiatedSessions w;
     syncChannel := syncChannel w; timers := timers w; trace := trace w |}.

Definition with_subscribedThreads (f : gset jsstring → gset jsstring)
    (w : world) : world :=
  {| sessionToThread := sessionToThread w;
     threadToSession := threadToSession w;
     subscribedThreads := f (subscribedThreads w);
     lastPostedContent := lastPostedContent w;
     discordInitiatedSessions := discordInitiatedSessions w;
     syncChannel := syncChannel w; timers := timers w; trace := trace w |}.

Definition with_lastPostedContent (f : gmap jsstring posted → gmap jsstring posted)
    (w : world) : world :=
  {| sessionToThread := sessionToThread w;
     threadToSession := threadToSession w;
     subscribedThreads := subscribedThreads w;
     lastPostedContent := f (lastPostedContent w);
     discordInitiatedSessions := discordInitiatedSessions w;
     syncChannel := syncChannel w; timers := timers w; trace := trace w |}.

Definition with_discordInitiatedSessions (f : gset jsstring → gset jsstring)
    (w : world) : world :=
  {| sessionToThread := sessionToThread w;
     threadToSession := threadToSession w;
     subscribedThreads := subscribedThreads w;
     lastPostedContent := lastPostedContent w;
     discordInitiatedSessions := f (discordInitiatedSessions w);
     syncChannel := syncChannel w; timers := timers w; trace := trace w |}.

Definition with_syncChannel (c : option jsstring) (w : world) : world :=
  {| sessionToThread := sessionToThread w;
     threadToSession := threadToSession w;
     subscribedThreads := subscribedThreads w;
     lastPostedContent := lastPostedContent w;
     discordInitiatedSessions := discordInitiatedSessions w;
     syncChannel := c; timers := timers w; trace := trace w |}.

Definition with_timer (t : callback * Z) (w : world) : world :=
  {| sessionToThread := sessionToThread w;
     threadToSession := threadToSession w;
     subscribedThreads := subscribedThreads w;
     lastPostedContent := lastPostedContent w;
     discordInitiatedSessions := discordInitiatedSessions w;
     syncChannel := syncChannel w; timers := timers w ++ [t];
     trace := trace w |}.

Definition with_effect (e : effect) (w : world) : world :=
  {| sessionToThread := sessionToThread w;
     threadToSession := threadToSession w;
     subscribedThreads := subscribedThreads w;
     lastPostedContent := lastPostedContent w;
     discordInitiatedSessions := discordInitiatedSessions w;
     syncChannel := syncChannel w; timers := timers w;
     trace := trace w ++ [e] |}.

(** ** A monad for the handlers: state, exceptions, divergence *)

Inductive result (A : Type) :=
| Ok (a : A)      (* the call returned *)
| Throw           (* the call threw, or the promise was rejected *)
| Diverge.        (* the call never returns *)
Arguments Ok {A} a.
Arguments Throw {A}.
Arguments Diverge {A}.

Definition M (A : Type) : Type := world → result A * world.

Definition ret {A} (a : A) : M A := λ w, (Ok a, w).

Definition bind {A B} (m : M A) (k : A → M B) : M B :=
  λ w, match m w with
       | (Ok a, w') => k a w'
       | (Throw, w') => (Throw, w')
       | (Diverge, w') => (Diverge, w')
       end.

Definition throw {A} : M A := λ w, (Throw, w).
Definition diverge {A} : M A := λ w, (Diverge, w).

(** [try { m } catch (error) { handler }] *)
Definition try_catch {A} (m : M A) (handler : M A) : M A :=
  λ w, match m w with
       | (Throw, w') => handler w'
       | r => r
       end.

Definition get : M world := λ w, (Ok w, w).
Definition modify (f : world → world) : M unit := λ w, (Ok tt, f w).
Definition call (e : effect) : M unit := modify (with_effect e).
Definition setTimeout (c : callback) (delay : Z) : M unit :=
  modify (with_timer (c, delay)).

#[global] Instance M_ret : MRet M := @ret.
#[global] Instance M_bind : MBind M := λ A B k m, bind m k.

(** ** The environment of one handler activation

    Every call that leaves the process takes its outcome from here. *)

Inductive ensured :=
| EnsureThrows
| EnsureNull
| EnsureChannel (channel : jsstring).

Inductive fetched :=
| FetchThrows
| FetchNull
| FetchNotThread
| FetchThread.

Record platform := {
  (* opencode.session.messages(...): the array the handler reads out of the
     result (result.data, or the result itself), None when the call throws *)
  session_messages : option (list message);
  (* ensureSyncChannel() *)
  ensure_channel : ensured;
  (* syncChannel.send({ embeds }) resolves *)
  starter_send : bool;
  (* starterMessage.startThread(...): the id of the new thread, None when
     it throws *)
  start_thread : option jsstring;
  (* client.channels.fetch(threadId) *)
  channels_fetch : fetched;
  (* the n-th thread.send of the activation resolves *)
  thread_send : nat → bool
}.

Section Handlers.
Variable env : platform.

Definition ensureSyncChannel : M (option jsstring) :=
  call EnsureSyncChannel;;
  match ensure_channel env with
  | EnsureThrows => throw
  | EnsureNull => mret None
  | EnsureChannel c => modify (with_syncChannel (Some c));; mret (Some c)
  end.

(** [s || fallback] on strings. *)
Definition or_else (s fallback : jsstring) : jsstring :=
  default [] (JS.or (Some s) (Some fallback)).

Definition OPENCODE_SESSION : jsstring := JS.lit "OpenCode Session".

Definition createSyncThread (sessionId title : jsstring)
    (directory : option jsstring) : M (option thread) :=
  w ← get;
  (if syncChannel w is None
   then c ← ensureSyncChannel; modify (with_syncChannel c)
   else mret tt);;
  w ← get;
  match syncChannel w with
  | None => mret None
  | Some channel =>
      try_catch
        (let name := or_else (JS.slice title 0 100) OPENCODE_SESSION in
         (* Create starter message for the thread *)
         call (ChannelSend channel name);;
         (if starter_send env then mret tt else throw);;
         (* Create thread from the message *)
         call (StartThread name sessionId);;
         match start_thread env with
         | None => throw
         | Some id =>
             let thread := {| thread_id := id; thread_name := name |} in
             (* Store mappings *)
             modify (with_sessionToThread <[sessionId := thread_id thread]>);;
             modify (with_threadToSession <[thread_id thread := sessionId]>);;
             (* Subscribe to thread for replies *)
             modify (with_subscribedThreads (λ s, {[thread_id thread]} ∪ s));;
             mret (Some thread)
         end)
        (mret None)
  end.

(** One of the two [for] loops of [postToSyncThread]: [i] is the loop
    index, [sent] the number of [thread.send] calls made so far in this
    activation. *)
Fixpoint send_parts (threadId label : jsstring) (parts : list jsstring)
    (i : nat) (sent : nat) : M nat :=
  match parts with
  | [] => mret sent
  | p :: rest =>
      let content := if bool_decide (i = 0) then label ++ p else p in
      call (ThreadSend threadId content);;
      (if thread_send env sent then mret tt else throw);;
      send_parts threadId label rest (S i) (S sent)
  end.

Definition send_split (threadId label text : jsstring) (sent : nat) : M nat :=
  match splitMessage text 1900 with
  | None => diverge
  | Some parts => send_parts threadId label parts 0 sent
  end.

Definition USER_LABEL : jsstring := JS.lit "**User:**" ++ [JS.NEWLINE].
Definition ASSISTANT_LABEL : jsstring := JS.lit "**Assistant:**" ++ [JS.NEWLINE].

Definition postToSyncThread (threadId userContent assistantContent : jsstring)
    : M bool :=
  try_catch
    (call (ChannelsFetch threadId);;
     match channels_fetch env with
     | FetchThrows => throw
     | FetchNull | FetchNotThread => mret false
     | FetchThread =>
         (* Format user message *)
         sent ← (if JS.truthy (Some userContent)
                 then send_split threadId USER_LABEL userContent 0
                 else mret 0);
         (* Format assistant message *)
         (if JS.truthy (Some assistantContent)
          then send_split threadId ASSISTANT_LABEL assistantContent sent
          else mret sent);;
         mret true
     end)
    (mret false).

(** The deduplication ledger.  [alreadyPosted] is the condition of the
    dedup [if] of [handleSessionIdle]; [shouldPost] is its negation, and
    [record] the [lastPostedContent.set] that closes the handler. *)
Definition alreadyPosted (lastPosted : option posted)
    (userContent_ assistantContent_ : jsstring) : bool :=
  match lastPosted with
  | None => false
  | Some p =>
      bool_decide (userContent p = userContent_)
      && bool_decide (assistantContent p = assistantContent_)
  end.

Definition shouldPost (ledger : gmap jsstring posted)
    (sessionId userText assistantText : jsstring) : bool :=
  negb (alreadyPosted (ledger !! sessionId) userText assistantText).

Definition record (sessionId userText assistantText : jsstring)
    (ledger : gmap jsstring posted) : gmap jsstring posted :=
  <[sessionId := {| userContent := userText;
                    assistantContent := assistantText |}]> ledger.

(** [discordInitiatedSessions.add(newSession.id)], as handleNewCommand and
    the message handler do for a session created from the chat side. *)
Definition markChatInitiated (sessionId : jsstring) (w : world) : world :=
  with_discordInitiatedSessions (λ s, {[sessionId]} ∪ s) w.

(** [process.cwd()] *)
Variable cwd : jsstring.

Definition handleSessionIdle (sessionId : jsstring) : M unit :=
  w ← get;
  (* Skip sessions initiated from Discord *)
  if bool_decide (sessionId ∈ discordInitiatedSessions w) then mret tt
  else
    try_catch
      ((* Get messages for this session *)
       call (SessionMessages sessionId);;
       match session_messages env with
       | None => throw
       | Some messages =>
           if bool_decide (List.length messages = 0) then mret tt
           else
             match getLatestExchange messages with
             | None => mret tt
             | Some exchange =>
                 let userContent := extractMessageContent (userMessage exchange) in
                 let assistantContent :=
                   extractMessageContent (assistantMessage exchange) in
                 if negb (JS.truthy (Some userContent))
                    && negb (JS.truthy (Some assistantContent))
                 then mret tt
                 else
                   (* Check if we already posted this exact content *)
                   w ← get;
                   if negb (shouldPost (lastPostedContent w) sessionId
                              userContent assistantContent)
                   then mret tt
                   else
                     (* Get or create thread for this session *)
                     let threadId := sessionToThread w !! sessionId in
                     created ←
                       (if negb (JS.truthy threadId) then
                          let threadName :=
                            or_else (JS.slice userContent 0 50) OPENCODE_SESSION in
                          thread ← createSyncThread sessionId threadName (Some cwd);
                          mret (thread_id <$> thread)
                        else mret threadId);
                     match created with
                     | None => mret tt
                     | Some threadId =>
                         (* Post the message exchange to the thread *)
                         postToSyncThread threadId userContent assistantContent;;
                         (* Track what we posted to avoid duplicates *)
                         modify (with_lastPostedContent
                                   (record sessionId userContent assistantContent))
                     end
             end
       end)
      (mret tt).

End Handlers.

(** ** The event stream consumer *)

Record event_properties := {
  prop_sessionID : option jsstring;     (* properties.sessionID *)
  prop_sessionId : option jsstring;     (* properties.sessionId *)
  prop_status_type : option jsstring    (* properties.status?.type *)
}.

(** The payload of an event of the feed, [{ type, properties }]. *)
Record event := {
  event_type : option jsstring;
  properties : option event_properties
}.

Definition SESSION_STATUS : jsstring := JS.lit "session.status".
Definition SESSION_DELETED : jsstring := JS.lit "session.deleted".
Definition IDLE : jsstring := JS.lit "idle".

(** The body of the [for await] loop of [startGlobalEventSubscription]. *)
Definition processEvent (payload : event) : M unit :=
  try_catch
    (let eventType := event_type payload in
     (* Handle session becoming idle (via session.status event) *)
     (if bool_decide (eventType = Some SESSION_STATUS) then
        let sessionId := properties payload ≫= prop_sessionID in
        let statusType := properties payload ≫= prop_status_type in
        match sessionId with
        | Some id =>
            if JS.truthy sessionId && bool_decide (statusType = Some IDLE)
            then setTimeout (CallHandleSessionIdle id) 100
            else mret tt
        | None => mret tt
        end
      else mret tt);;
     (* Handle session.deleted - clean up mappings *)
     (if bool_decide (eventType = Some SESSION_DELETED) then
        let sessionId := properties payload ≫= prop_sessionId in
        match sessionId with
        | Some id =>
            if JS.truthy sessionId then
              modify (with_sessionToThread (delete id));;
              modify (with_lastPostedContent (delete id));;
              modify (with_discordInitiatedSessions (λ s, s ∖ {[id]}))
              (* Note: we don't delete threadToSession so replies still work *)
            else mret tt
        | None => mret tt
        end
      else mret tt))
    (mret tt).

(** How the iteration over [eventStream.stream] stops. *)
Inductive feed_end :=
| FeedEnds       (* the asynchronous sequence is exhausted *)
| FeedThrows.    (* the iteration throws *)

(** One subscription, as far as it goes: whether [opencode.global.event()]
    resolves, the events delivered, and how the iteration stops. *)
Record feed := {
  subscribed : bool;
  delivered : list event;
  ending : feed_end
}.

Fixpoint for_await (events : list event) : M unit :=
  match events with
  | [] => mret tt
  | e :: rest => processEvent e;; for_await rest
  end.

Definition RETRY_DELAY : Z := 10000.

Definition startGlobalEventSubscription (f : feed) : M unit :=
  try_catch
    (call GlobalEvent;;
     (if subscribed f then mret tt else throw);;
     (* Process events from the stream *)
     for_await (delivered f);;
     match ending f with
     | FeedEnds => mret tt
     | FeedThrows => throw
     end)
    ((* Retry after delay *)
     setTimeout CallStartGlobalEventSubscription RETRY_DELAY).

(** The consumer is waiting to reconnect when a timer for the subscription
    entry point is pending. *)
Definition reconnecting (w : world) : bool :=
  bool_decide ((CallStartGlobalEventSubscription, RETRY_DELAY) ∈ timers w).

(** Successive subscriptions.  A pending timer for the entry point fires
    (and is removed from the pending ones), which starts the next
    subscription; with no such timer nothing starts it again. *)
Definition fire_retry (w : world) : world :=
  {| sessionToThread := sessionToThread w;
     threadToSession := threadToSession w;
     subscribedThreads := subscribedThreads w;
     lastPostedContent := lastPostedContent w;
     discordInitiatedSessions := discordInitiatedSessions w;
     syncChannel := syncChannel w;
     timers := filter (λ t, t.1 ≠ CallStartGlobalEventSubscription) (timers w);
     trace := trace w |}.

Fixpoint subscriptions (feeds : list feed) (w : world) : world :=
  match feeds with
  | [] => w
  | f :: rest =>
      let w' := (startGlobalEventSubscription f w).2 in
      if reconnecting w' then subscriptions rest (fire_retry w') else w'
  end.

(** ** The webhook endpoint [POST /sync/session] *)

Record session_request := {
  req_sessionId : option jsstring;
  req_title : option jsstring;
  req_directory : option jsstring
}.

Inductive response_body :=
| ErrorBody (error : jsstring)
| ThreadBody (threadId : jsstring) (existing : bool).

Record response := { status : Z; body : response_body }.

(** [body] is the parsed request body, [None] when [parseBody] rejects. *)
Definition syncSession (env : platform) (request : option session_request)
    : M response :=
  try_catch
    (match request with
     | None => throw
     | Some data =>
         match req_sessionId data with
         | Some sessionId =>
             if negb (JS.truthy (req_sessionId data)) then
               mret {| status := 400;
                       body := ErrorBody (JS.lit "Missing sessionId") |}
             else
               w ← get;
               (* Check if thread already exists for this session *)
               match sessionToThread w !! sessionId with
               | Some existingThreadId =>
                   mret {| status := 200;
                           body := ThreadBody existingThreadId true |}
               | None =>
                   (* Create new thread *)
                   thread ← createSyncThread env sessionId
                              (or_else (default [] (req_title data))
                                 OPENCODE_SESSION)
                              (req_directory data);
                   match thread with
                   | Some t =>
                       mret {| status := 200;
                               body := ThreadBody (thread_id t) false |}
                   | None =>
                       mret {| status := 500;
                               body := ErrorBody (JS.lit "Failed to create thread") |}
                   end
               end
         | None =>
             mret {| status := 400;
                     body := ErrorBody (JS.lit "Missing sessionId") |}
         end
     end)
    (mret {| status := 400; body := ErrorBody (JS.lit "error") |}).

(** ** Registry operations of the specification, through the code

    [getThread] and [getSession] are the two [Map] lookups.  A bind of
    [sessionId] is an activation of one of the two guarded paths that
    reach [createSyncThread]: the endpoint above, or an idle event. *)

Definition getThread (w : world) (sessionId : jsstring) : option jsstring :=
  sessionToThread w !! sessionId.

Definition getSession (w : world) (threadId : jsstring) : option jsstring :=
  threadToSession w !! threadId.

Inductive bind_path :=
| BySyncSession (env : platform) (title directory : option jsstring)
| BySessionIdle (env : platform) (cwd : jsstring).

Definition bind_once (sessionId : jsstring) (b : bind_path) (w : world) : world :=
  match b with
  | BySyncSession env title directory =>
      (syncSession env
         (Some {| req_sessionId := Some sessionId; req_title := title;
                  req_directory := directory |}) w).2
  | BySessionIdle env cwd => (handleSessionIdle env cwd sessionId w).2
  end.

(** Binds that follow one another: each one starts when the one before
    it has returned. *)
Definition bind_all (sessionId : jsstring) (bs : list bind_path) (w : world)
    : world :=
  foldl (λ w b, bind_once sessionId b w) w bs.

(** The environment a bind runs in; its [start_thread] is the thread id the
    bind has on offer. *)
Definition bind_env (b : bind_path) : platform :=
  match b with
  | BySyncSession env _ _ => env
  | BySessionIdle env _ => env
  end.

(** ** The model menu: the pagination branch of handleButtonInteraction *)

Record model := { model_id : jsstring; model_name : jsstring }.

Inductive button_style := Primary | Secondary | Success.

Record button := {
  customId : jsstring;
  label : jsstring;
  style : button_style
}.

(** [`${n}`] for an integer [n]. *)
Definition decimal (n : Z) : jsstring :=
  JS.lit (pretty n).

Definition pageSize : Z := 20.
Definition buttonsPerRow : nat := 5.

(** [new ButtonBuilder().setCustomId(`model_${globalIdx}`)
      .setLabel(model.name.slice(0, 80)).setStyle(...)] *)
Definition model_button (globalIdx : Z) (m : model) (isSelected : bool) : button :=
  {| customId := JS.lit "model_" ++ decimal globalIdx;
     label := JS.slice (model_name m) 0 80;
     style := if isSelected then Success else Secondary |}.

Definition previous_button (page : Z) : button :=
  {| customId := JS.lit "models_page_" ++ decimal (page - 1);
     label := JS.lit "Previous"; style := Primary |}.

Definition next_button (page : Z) : button :=
  {| customId := JS.lit "models_page_" ++ decimal (page + 1);
     label := JS.lit "Next"; style := Primary |}.

(** The inner loop [for (let j = i; j < Math.min(i + buttonsPerRow,
    pageModels.length); j++)]; [bound] is that minimum.  [None] is the
    TypeError of reading [model.id] when [pageModels[j]] is undefined. *)
Equations? row_loop (pageModels : list model) (start : Z)
    (currentModel : jsstring) (bound j : nat)
    (row : list button) (buttonMap : gmap Z model)
    : option (list button * gmap Z model) by wf (bound - j) lt :=
  row_loop pageModels start currentModel bound j row buttonMap
    with decide (j < bound) => {
    | left _ with pageModels !! j => {
      | Some m =>
          let globalIdx := (start + Z.of_nat j)%Z in
          let isSelected := bool_decide (model_id m = currentModel) in
          row_loop pageModels start currentModel bound (S j)
            (row ++ [model_button globalIdx m isSelected])
            (<[globalIdx := m]> buttonMap)
      | None => None };
    | right _ => Some (row, buttonMap) }.
Proof. lia. Qed.

(** The outer loop [for (let i = 0; i < pageModels.length;
    i += buttonsPerRow)]. *)
Equations? rows_loop (pageModels : list model) (start : Z)
    (currentModel : jsstring) (i : nat)
    (rows : list (list button)) (buttonMap : gmap Z model)
    : option (list (list button) * gmap Z model)
    by wf (List.length pageModels - i) lt :=
  rows_loop pageModels start currentModel i rows buttonMap
    with decide (i < List.length pageModels) => {
    | left _
        with row_loop pageModels start currentModel
               (Nat.min (i + buttonsPerRow) (List.length pageModels)) i [] buttonMap => {
      | Some (row, buttonMap') =>
          rows_loop pageModels start currentModel (i + buttonsPerRow)
            (rows ++ [row]) buttonMap'
      | None => None };
    | right _ => Some (rows, buttonMap) }.
Proof. unfold buttonsPerRow. lia. Qed.

Record page_view := {
  components : list (list button);   (* the rows handed to interaction.update *)
  stored : gmap Z model              (* the button map kept for ten minutes *)
}.

(** The branch for a custom id [models_page_<page>]; [models] is what
    [getAvailableModels()] returned and [currentModel] what
    [getUserModel(userId)] returned. *)
Definition renderModelsPage (models : list model) (currentModel : jsstring)
    (page : Z) : option page_view :=
  let start := (page * pageSize)%Z in
  let pageModels := JS.slice models start (start + pageSize) in
  '(rows, buttonMap) ← rows_loop pageModels start currentModel 0 [] ∅;
  (* Add navigation *)
  let navRow := [] in
  let navRow :=
    if (0 <? page)%Z
    then navRow ++ [previous_button page]
    else navRow in
  let navRow :=
    if (start + pageSize <? Z.of_nat (List.length models))%Z
    then navRow ++ [next_button page]
    else navRow in
  let rows := if (0 <? Z.of_nat (List.length navRow))%Z
              then rows ++ [navRow] else rows in
  Some {| components := rows; stored := buttonMap |}.

(** ** Vocabulary of the statements *)

(** [k] is the latest index at or before [limit] at which [s] holds the
    code unit [c]. *)
Definition latest_at_or_before (s : jsstring) (c : N) (limit k : Z) : Prop :=
  (0 ≤ k ≤ limit)%Z
  ∧ s !! Z.to_nat k = Some c
  ∧ ∀ j, (k < j ≤ limit)%Z → s !! Z.to_nat j ≠ Some c.

(** [s] holds no [c] at an index between [limit / 2] and [limit]. *)
Definition none_in_upper_half (s : jsstring) (c : N) (limit : Z) : Prop :=
  ∀ j, (limit ≤ 2 * j)%Z → (j ≤ limit)%Z → s !! Z.to_nat j ≠ Some c.

(** A segment the loop of [splitMessage] may emit. *)
Definition segment_ok (maxLength : Z) (p : jsstring) : Prop :=
  p ≠ [] ∧ (JS.len p ≤ maxLength)%Z.

(** The role of a message, as [getLatestExchange] reads it. *)
Definition is_assistant (m : message) : Prop := message_role m = Some ASSISTANT.
Definition is_user (m : message) : Prop := message_role m = Some USER.

(** A timer that restarts the subscription. *)
Definition is_retry (t : callback * Z) : Prop :=
  t.1 = CallStartGlobalEventSubscription.

(** The subscription call rejects, or the iteration throws. *)
Definition feed_fails (f : feed) : Prop :=
  subscribed f = false ∨ ending f = FeedThrows.

(** Everything of the world but the trace of calls. *)
Definition stores (w : world) :=
  (sessionToThread w, threadToSession w, subscribedThreads w,
   lastPostedContent w, discordInitiatedSessions w, syncChannel w, timers w).

(** The platform can hand out a thread: the sync channel is there or can
    be made, the starter message goes out, the thread is started. *)
Definition creates_thread (env : platform) (w : world) (T : jsstring) : Prop :=
  (is_Some (syncChannel w) ∨ ∃ c, ensure_channel env = EnsureChannel c)
  ∧ starter_send env = true
  ∧ start_thread env = Some T.

(** ** Scenarios *)

(** A text longer than 1900 code units whose only newline is at index 1. *)
Definition early_newline_text : jsstring :=
  JS.lit "a" ++ [JS.NEWLINE] ++ replicate 2000 98%N.

(** A message with its role at [msg.role] and one text part. *)
Definition text_message (role text : string) : message :=
  {| msg_role := Some (JS.lit role); msg_info := None;
     msg_parts := Some [{| part_type := Some (JS.lit "text");
                           part_text := Some (JS.lit text) |}] |}.

(** The session of the end-to-end scenario, and its two messages. *)
Definition abc123 : jsstring := JS.lit "abc123".

Definition fix_the_bug : list message :=
  [text_message "user" "fix the bug";
   text_message "assistant" "fixed it in main.go"].

Definition home : jsstring := JS.lit "/home/dev/project".

(** A platform on which every call succeeds. *)
Definition healthy (messages : list message) (newThread : string) : platform :=
  {| session_messages := Some messages;
     ensure_channel := EnsureChannel (JS.lit "opencode-sync");
     starter_send := true;
     start_thread := Some (JS.lit newThread);
     channels_fetch := FetchThread;
     thread_send := λ _, true |}.

(** The same, except that fetching the thread to post into throws. *)
Definition unreachable_thread (messages : list message) : platform :=
  {| session_messages := Some messages;
     ensure_channel := EnsureChannel (JS.lit "opencode-sync");
     starter_send := true;
     start_thread := Some (JS.lit "1002");
     channels_fetch := FetchThrows;
     thread_send := λ _, true |}.

(** A world in which the session is bound to the thread, in both maps. *)
Definition bound_world (sessionId threadId : jsstring) : world :=
  with_threadToSession <[threadId := sessionId]>
    (with_sessionToThread <[sessionId := threadId]> initial_world).

(** The payloads of the two events the consumer acts on. *)
Definition deleted_event (sessionId : jsstring) : event :=
  {| event_type := Some SESSION_DELETED;
     properties := Some {| prop_sessionID := None;
                           prop_sessionId := Some sessionId;
                           prop_status_type := None |} |}.

Definition idle_event (sessionId : jsstring) : event :=
  {| event_type := Some SESSION_STATUS;
     properties := Some {| prop_sessionID := Some sessionId;
                           prop_sessionId := None;
                           prop_status_type := Some IDLE |} |}.

(** A feed that delivers one idle event and then throws. *)
Definition broken_feed : feed :=
  {| subscribed := true; delivered := [idle_event abc123];
     ending := FeedThrows |}.

(** The [n]-th model of a provider, as [getAvailableModels] builds it. *)
Definition numbered_model (n : nat) : model :=
  {| model_id := JS.lit "provider/model-" ++ decimal (Z.of_nat n);
     model_name := JS.lit "Provider model-" ++ decimal (Z.of_nat n) |}.

(** ** Proof tactics *)

(** Case analysis on the integer comparisons of the goal. *)
Ltac Z_cases :=
  repeat (match goal with
          | |- context [(?a =? ?b)%Z] => destruct (Z.eqb_spec a b)
          | |- context [(?a <? ?b)%Z] => destruct (Z.ltb_spec a b)
          | |- context [(?a <=? ?b)%Z] => destruct (Z.leb_spec a b)
          end; simpl);
  try lia; try done.

(** Unfold the monad of the handlers in the goal. *)
Ltac run :=
  repeat (unfold mbind, M_bind, mret, M_ret, bind, ret, try_catch, throw,
            diverge, get, modify, call, setTimeout; simpl).

(** * Further definitions

    The rest of the bot file as far as it is modelled (the other webhook
    endpoint, the model catalogue, the model preference and the selection
    from the menu, the authorization check) and the sync plugin, with its
    own copies of the extractor, talking to the two endpoints. *)

(** ** Vocabulary of the further statements *)

(** The code units of [s] that are not white space: what [trim] keeps. *)
Definition non_white (s : jsstring) : jsstring :=
  filter (λ c, JS.is_white_space c = false) s.

(** [s] holds no white space at all. *)
Definition solid (s : jsstring) : Prop :=
  Forall (λ c, JS.is_white_space c = false) s.

(** The texts of the [text] parts, one after the other. *)
Definition text_of_parts (parts : list part) : jsstring :=
  concat ((λ p, default [] (part_text p))
            <$> filter (λ p, part_type p = Some (JS.lit "text")) parts).

(** A message that carries its role at [msg.role]. *)
Definition role_at_top (m : message) : Prop := JS.truthy (msg_role m) = true.

(** A message with its role under [msg.info] and one text part. *)
Definition info_message (role text : string) : message :=
  {| msg_role := None; msg_info := Some {| info_role := Some (JS.lit role) |};
     msg_parts := Some [{| part_type := Some (JS.lit "text");
                           part_text := Some (JS.lit text) |}] |}.

(** ** The extractor of the sync plugin

    The plugin file has its own copies of the two extractor functions.
    Its [getLatestExchange] reads the role at [msg.role] only. *)

Fixpoint plugin_getLatestExchange_loop (visited : list message) (i : Z)
    (lastAssistantIdx : Z) : Z * Z :=
  match visited with
  | [] => (-1, lastAssistantIdx)%Z
  | msg :: rest =>
      let lastAssistantIdx :=
        if bool_decide (msg_role msg = Some ASSISTANT) && (lastAssistantIdx =? -1)%Z
        then i else lastAssistantIdx in
      if bool_decide (msg_role msg = Some USER) && negb (lastAssistantIdx =? -1)%Z
      then (i, lastAssistantIdx)
      else plugin_getLatestExchange_loop rest (i - 1) lastAssistantIdx
  end.

Definition plugin_getLatestExchange (messages : list message) : option exchange :=
  let '(lastUserIdx, lastAssistantIdx) :=
    plugin_getLatestExchange_loop (rev messages)
      (Z.of_nat (List.length messages) - 1) (-1) in
  if (lastUserIdx =? -1)%Z || (lastAssistantIdx =? -1)%Z then None
  else Some {| userMessage := messages !! Z.to_nat lastUserIdx;
               assistantMessage := messages !! Z.to_nat lastAssistantIdx |}.

(** [if (!message || !message.parts) return ''], then the same loop and
    [trim]. *)
Definition plugin_extractMessageContent (message : option message) : jsstring :=
  match message with
  | None => []
  | Some m =>
      match msg_parts m with
      | None => []
      | Some parts =>
          JS.trim
            (foldl (λ content p,
                      if bool_decide (part_type p = Some (JS.lit "text"))
                      then content ++ default [] (JS.or (part_text p) (Some []))
                      else content)
                   [] parts)
      end
  end.

(** ** Model identifiers *)

Definition SLASH : N := 47.   (* '/' *)

(** [s.split(sep)] for a separator of one code unit. *)
Fixpoint split_on (sep : N) (s : jsstring) : list jsstring :=
  match s with
  | [] => [[]]
  | c :: s' =>
      if (c =? sep)%N then [] :: split_on sep s'
      else match split_on sep s' with
           | field :: fields => (c :: field) :: fields
           | [] => [[c]]
           end
  end.

(** [l.join(sep)] on an array of strings. *)
Fixpoint join (sep : jsstring) (l : list jsstring) : jsstring :=
  match l with
  | [] => []
  | [x] => x
  | x :: rest => x ++ sep ++ join sep rest
  end.

Record model_ref := { providerID : option jsstring; modelID : jsstring }.

(** [const [providerID, ...rest] = modelStr.split('/')], then
    [rest.join('/')]. *)
Definition parseModelId (modelStr : jsstring) : model_ref :=
  match split_on SLASH modelStr with
  | [] => {| providerID := None; modelID := join [SLASH] [] |}
  | first :: rest => {| providerID := Some first; modelID := join [SLASH] rest |}
  end.

(** [userModels.get(userId) || process.env.OPENCODE_MODEL
     || 'opencode/minimax-m2.5-free'] *)
Definition DEFAULT_MODEL : jsstring := JS.lit "opencode/minimax-m2.5-free".

Definition getUserModel (userModels : gmap jsstring jsstring)
    (OPENCODE_MODEL : option jsstring) (userId : jsstring) : jsstring :=
  default [] (JS.or (JS.or (userModels !! userId) OPENCODE_MODEL)
                (Some DEFAULT_MODEL)).

(** ** The other webhook endpoint, [POST /sync/message] *)

Record message_request := {
  mreq_sessionId : option jsstring;
  mreq_threadId : option jsstring;
  mreq_userContent : option jsstring;
  mreq_assistantContent : option jsstring
}.

Inductive message_body :=
| MessageError (error : jsstring)
| MessageSuccess (success : bool).

Record message_response := { mstatus : Z; mbody : message_body }.

(** [request] is the parsed body, [None] when [parseBody] rejects.  A
    content that is missing from the body is passed on as [undefined];
    [postToSyncThread] only tests it for truthiness, as it does the empty
    string. *)
Definition syncMessage (env : platform) (request : option message_request)
    : M message_response :=
  try_catch
    (match request with
     | None => throw
     | Some data =>
         w ← get;
         (* Get thread ID from sessionId if not provided *)
         let targetThreadId :=
           if negb (JS.truthy (mreq_threadId data)) && JS.truthy (mreq_sessionId data)
           then mreq_sessionId data ≫= (λ sessionId, sessionToThread w !! sessionId)
           else mreq_threadId data in
         match targetThreadId with
         | Some threadId =>
             if negb (JS.truthy targetThreadId) then
               mret {| mstatus := 400;
                       mbody := MessageError
                                  (JS.lit "Missing threadId or sessionId not mapped") |}
             else
               success ← postToSyncThread env threadId
                           (default [] (mreq_userContent data))
                           (default [] (mreq_assistantContent data));
               mret {| mstatus := (if (success : bool) then 200 else 500)%Z;
                       mbody := MessageSuccess success |}
         | None =>
             mret {| mstatus := 400;
                     mbody := MessageError
                                (JS.lit "Missing threadId or sessionId not mapped") |}
         end
     end)
    (mret {| mstatus := 400; mbody := MessageError (JS.lit "error") |}).

(** ** Vocabulary of the statements about the handlers *)

(** The two texts [handleSessionIdle] would mirror: those of the latest
    exchange of the messages the backend returns, unless both are empty. *)
Definition mirror_contents (env : platform) : option (jsstring * jsstring) :=
  messages ← session_messages env;
  found ← getLatestExchange messages;
  let u := extractMessageContent (userMessage found) in
  let a := extractMessageContent (assistantMessage found) in
  if JS.truthy (Some u) || JS.truthy (Some a) then Some (u, a) else None.

(** The thread name [handleSessionIdle] asks for. *)
Definition mirror_title (u : jsstring) : jsstring :=
  or_else (JS.slice u 0 50) OPENCODE_SESSION.

(** Every session bound to a thread is the session that thread resolves
    to, and the thread is subscribed. *)
Definition registry_consistent (w : world) : Prop :=
  ∀ S T, sessionToThread w !! S = Some T →
         threadToSession w !! T = Some S ∧ T ∈ subscribedThreads w.

(** The thread id the platform would hand out is not in use. *)
Definition fresh_thread (env : platform) (w : world) : Prop :=
  ∀ id, start_thread env = Some id → threadToSession w !! id = None.

(** Everything in the bot that writes the sync state: an idle event is
    handled, a [/sync/session] or [/sync/message] request is served, an
    event of the feed is processed, the sync channel is looked up at
    start-up, a session is created from the chat side
    ([discordInitiatedSessions.add]), a thread opened on a message of the
    bot is subscribed ([subscribedThreads.add]). *)
Inductive operation :=
| HandleIdle (env : platform) (cwd sessionId : jsstring)
| ServeSyncSession (env : platform) (request : option session_request)
| ServeSyncMessage (env : platform) (request : option message_request)
| ProcessEvent (e : event)
| LookUpChannel (env : platform)
| MarkChatInitiated (sessionId : jsstring)
| SubscribeThread (threadId : jsstring).

Definition operation_env (op : operation) : option platform :=
  match op with
  | HandleIdle env _ _ | ServeSyncSession env _ | ServeSyncMessage env _
  | LookUpChannel env => Some env
  | ProcessEvent _ | MarkChatInitiated _ | SubscribeThread _ => None
  end.

Definition perform (op : operation) (w : world) : world :=
  match op with
  | HandleIdle env cwd sessionId => (handleSessionIdle env cwd sessionId w).2
  | ServeSyncSession env request => (syncSession env request w).2
  | ServeSyncMessage env request => (syncMessage env request w).2
  | ProcessEvent e => (processEvent e w).2
  | LookUpChannel env => (ensureSyncChannel env w).2
  | MarkChatInitiated sessionId => markChatInitiated sessionId w
  | SubscribeThread threadId =>
      with_subscribedThreads (λ s, {[threadId]} ∪ s) w
  end.

(** The session an event announces as idle, if it does. *)
Definition idle_session (e : event) : option jsstring :=
  if bool_decide (event_type e = Some SESSION_STATUS)
     && JS.truthy (properties e ≫= prop_sessionID)
     && bool_decide ((properties e ≫= prop_status_type) = Some IDLE)
  then properties e ≫= prop_sessionID
  else None.

(** The session an event announces as deleted, if it does. *)
Definition deleted_session (e : event) : option jsstring :=
  if bool_decide (event_type e = Some SESSION_DELETED)
     && JS.truthy (properties e ≫= prop_sessionId)
  then properties e ≫= prop_sessionId
  else None.

(** The segments of one text as [postToSyncThread] sends them: none for an
    empty text, and the label in front of the first one. *)
Definition segments (text : jsstring) : list jsstring :=
  if JS.truthy (Some text) then default [] (splitMessage text 1900) else [].

Definition labelled (label : jsstring) (parts : list jsstring) : list jsstring :=
  imap (λ i p, if bool_decide (i = 0) then label ++ p else p) parts.

(** All that [postToSyncThread] has to send for an exchange, in order. *)
Definition posted_messages (userContent_ assistantContent_ : jsstring)
    : list jsstring :=
  labelled USER_LABEL (segments userContent_)
  ++ labelled ASSISTANT_LABEL (segments assistantContent_).

(** The two loops of [postToSyncThread] as one: the contents are sent in
    order until a send is rejected; [sent] counts the sends of the
    activation. *)
Fixpoint send_all (env : platform) (threadId : jsstring)
    (contents : list jsstring) (sent : nat) : M nat :=
  match contents with
  | [] => mret sent
  | content :: rest =>
      call (ThreadSend threadId content);;
      (if thread_send env sent then mret tt else throw);;
      send_all env threadId rest (S sent)
  end.

(** ** Vocabulary of the statements about the model menu *)

(** The models of one page, and the controls that show them. *)
Definition page_models (models : list model) (page : Z) : list model :=
  take 20 (drop (Z.to_nat (page * 20)) models).

Definition page_buttons (start : Z) (currentModel : jsstring)
    (pageModels : list model) : list button :=
  imap (λ j m, model_button (start + Z.of_nat j) m
                 (bool_decide (model_id m = currentModel)))
    pageModels.

(** The controls of the navigation row. *)
Definition navigation (models : list model) (page : Z) : list button :=
  (if (0 <? page)%Z then [previous_button page] else [])
  ++ (if (page * 20 + 20 <? Z.of_nat (List.length models))%Z
      then [next_button page] else []).

(** ** The catalogue of models, and the selection from the menu *)

(** A provider as [opencode.config.providers()] lists it;
    [provider_models] holds [Object.keys(provider.models)], and is [None]
    when [provider.models] is missing or is no object. *)
Record provider := {
  provider_id : jsstring;
  provider_name : jsstring;
  provider_models : option (list jsstring)
}.

(** [providers] is [data.providers], [None] when the call throws. *)
Definition getAvailableModels (providers : option (list provider)) : list model :=
  match providers with
  | None => []
  | Some listed =>
      foldl (λ models p,
               match provider_models p with
               | Some keys =>
                   foldl (λ models modelId,
                            models
                            ++ [{| model_id := provider_id p ++ [SLASH] ++ modelId;
                                   model_name :=
                                     provider_name p ++ [JS.SPACE] ++ modelId |}])
                         models keys
               | None => models
               end)
            [] listed
  end.

(** [modelButtonMaps], a [Map] from interaction id to button map, in
    insertion order. *)
Definition button_maps := list (jsstring * gmap Z model).

(** [modelButtonMaps.set(interaction.id, buttonMap)] *)
Fixpoint set_buttonMap (interactionId : jsstring) (buttonMap : gmap Z model)
    (modelButtonMaps : button_maps) : button_maps :=
  match modelButtonMaps with
  | [] => [(interactionId, buttonMap)]
  | (id, old) :: rest =>
      if bool_decide (id = interactionId) then (id, buttonMap) :: rest
      else (id, old) :: set_buttonMap interactionId buttonMap rest
  end.

(** The loop of the selection branch of handleButtonInteraction: the
    first button map that has the index gives the model. *)
Fixpoint find_model (modelButtonMaps : button_maps) (idx : Z) : option model :=
  match modelButtonMaps with
  | [] => None
  | (_, buttonMap) :: rest =>
      match buttonMap !! idx with
      | Some m => Some m
      | None => find_model rest idx
      end
  end.

(** The selection branch, for the index [idx] read off the custom id
    [model_<idx>]: [userModels.set(userId, model.id)] when a model is
    found. *)
Definition selectModel (modelButtonMaps : button_maps)
    (userModels : gmap jsstring jsstring) (userId : jsstring) (idx : Z)
    : gmap jsstring jsstring :=
  match find_model modelButtonMaps idx with
  | Some m => <[userId := model_id m]> userModels
  | None => userModels
  end.

(** ** Who may use the bot *)

Definition COMMA : N := 44.   (* ',' *)

(** [process.env.DISCORD_ALLOWED_USERS
      ? process.env.DISCORD_ALLOWED_USERS.split(',').map(id => id.trim())
          .filter(id => id && id !== '0')
      : []] *)
Definition allowedUsers (DISCORD_ALLOWED_USERS : option jsstring) : list jsstring :=
  match DISCORD_ALLOWED_USERS with
  | Some value =>
      if JS.truthy (Some value)
      then filter (λ id, JS.truthy (Some id) = true ∧ id ≠ JS.lit "0")
             (JS.trim <$> split_on COMMA value)
      else []
  | None => []
  end.

(** What the guild answers for one user: [isGuildMember(userId)], and
    [userHasRole(userId, ...)] for the admin and for the edit role.  Both
    functions catch what their calls throw and answer false. *)
Record guild_answers := {
  is_guild_member : bool;
  has_admin_role : bool;
  has_edit_role : bool
}.

Inductive refusal :=
| NotAMember    (* 'You must be a member of the server to use this bot.' *)
| RoleNeeded.   (* 'You need the ... or ... role to use this bot. ...' *)

(** [{ authorized, isAdmin, isFirstUser, reason }]; a field that is left
    out is falsy where it is read. *)
Record authorization := {
  authorized : bool;
  isAdmin : bool;
  isFirstUser : bool;
  reason : option refusal
}.

Definition checkUserAuthorized (allowed : list jsstring) (guild : guild_answers)
    (userId : jsstring) : authorization :=
  (* First check if user is in the guild *)
  if negb (is_guild_member guild) then
    {| authorized := false; isAdmin := false; isFirstUser := false;
       reason := Some NotAMember |}
  (* If no allowlist configured, first user becomes admin *)
  else if bool_decide (List.length allowed = 0) then
    {| authorized := true; isAdmin := true; isFirstUser := true;
       reason := None |}
  (* Check if user is in whitelist *)
  else if bool_decide (userId ∈ allowed) then
    {| authorized := true; isAdmin := has_admin_role guild;
       isFirstUser := false; reason := None |}
  (* Check if user has admin or edit role *)
  else if has_admin_role guild || has_edit_role guild then
    {| authorized := true; isAdmin := has_admin_role guild;
       isFirstUser := false; reason := None |}
  else
    {| authorized := false; isAdmin := false; isFirstUser := false;
       reason := Some RoleNeeded |}.

(** ** The sync plugin, talking to the two endpoints of the bot *)


(** An entry of the plugin's [syncedSessions]: [{ threadId, pending }];
    [pending] is false where the entry leaves it out. *)
Record sync_state := { sync_threadId : option jsstring; sync_pending : bool }.



(** The requests [postSync] makes, as attempted. *)
Inductive plugin_request :=
| PostSyncSession (sessionId title : jsstring) (directory : option jsstring)
| PostSyncMessage (sessionId threadId userText assistantText : jsstring).

(** The plugin and the bot: the two maps of the plugin (the keys of
    [syncedSessions] are whatever [session.id] was, [undefined] included),
    the requests it has made, and the state of the bot. *)
Record system := {
  syncedSessions : gmap (option jsstring) sync_state;
  plugin_lastPostedContent : gmap jsstring posted;
  requests : list plugin_request;
  bot : world
}.

Definition with_syncedSessions
    (f : gmap (option jsstring) sync_state → gmap (option jsstring) sync_state)
    (s : system) : system :=
  {| syncedSessions := f (syncedSessions s);
     plugin_lastPostedContent := plugin_lastPostedContent s;
     requests := requests s; bot := bot s |}.

Definition with_plugin_lastPostedContent
    (f : gmap jsstring posted → gmap jsstring posted) (s : system) : system :=
  {| syncedSessions := syncedSessions s;
     plugin_lastPostedContent := f (plugin_lastPostedContent s);
     requests := requests s; bot := bot s |}.

Definition with_request (r : plugin_request) (s : system) : system :=
  {| syncedSessions := syncedSessions s;
     plugin_lastPostedContent := plugin_lastPostedContent s;
     requests := requests s ++ [r]; bot := bot s |}.

Definition with_bot (w : world) (s : system) : system :=
  {| syncedSessions := syncedSessions s;
     plugin_lastPostedContent := plugin_lastPostedContent s;
     requests := requests s; bot := w |}.

(** The environment of one activation of the plugin's event handler:
    what [client.message.list(...)] gives ([result?.messages], [None] when
    it is missing or the call throws), and for each of the two requests
    the platform on which the bot serves it, [None] when the request does
    not get through. *)
Record plugin_env := {
  message_list : option (list message);
  session_post : option platform;
  message_post : option platform
}.

(** [response.ok] *)
Definition response_ok (status_ : Z) : bool :=
  (200 <=? status_)%Z && (status_ <=? 299)%Z.

(** [postSync('/sync/session', { sessionId, title, directory })], and
    [result.threadId] of what it returns: [None] when [postSync] returns
    null or the answer has no thread id. *)
Definition postSync_session (env : plugin_env) (sessionId title : jsstring)
    (directory : option jsstring) (s : system) : option jsstring * system :=
  let s := with_request (PostSyncSession sessionId title directory) s in
  match session_post env with
  | None => (None, s)
  | Some served =>
      let '(r, w') :=
        syncSession served
          (Some {| req_sessionId := Some sessionId; req_title := Some title;
                   req_directory := directory |})
          (bot s) in
      (match r with
       | Ok resp =>
           if response_ok (status resp) then
             match body resp with
             | ThreadBody threadId _ => Some threadId
             | ErrorBody _ => None
             end
           else None
       | _ => None
       end,
       with_bot w' s)
  end.

(** [postSync('/sync/message', { sessionId, threadId, userContent,
    assistantContent, messageId })]; what it returns is not read. *)
Definition postSync_message (env : plugin_env)
    (sessionId threadId userText assistantText : jsstring) (s : system)
    : system :=
  let s := with_request
             (PostSyncMessage sessionId threadId userText assistantText) s in
  match message_post env with
  | None => s
  | Some served =>
      with_bot
        (syncMessage served
           (Some {| mreq_sessionId := Some sessionId;
                    mreq_threadId := Some threadId;
                    mreq_userContent := Some userText;
                    mreq_assistantContent := Some assistantText |})
           (bot s)).2
        s
  end.

(** The [session.idle] branch of the plugin's event handler, from
    [getSessionMessages] on. *)
Definition plugin_idle (env : plugin_env) (directory : option jsstring)
    (sessionId : jsstring) (s : system) : system :=
  (* Get messages for this session *)
  let messages := default [] (message_list env) in
  if bool_decide (List.length messages = 0) then s
  else
    match plugin_getLatestExchange messages with
    | None => s
    | Some exchange =>
        let userText := plugin_extractMessageContent (userMessage exchange) in
        let assistantText :=
          plugin_extractMessageContent (assistantMessage exchange) in
        if negb (JS.truthy (Some userText)) && negb (JS.truthy (Some assistantText))
        then s
        (* Check if we already posted this exact content (dedup) *)
        else if alreadyPosted (plugin_lastPostedContent s !! sessionId)
                  userText assistantText
        then s
        else
          (* Get or create thread *)
          let syncState := syncedSessions s !! Some sessionId in
          let '(threadId, s) :=
            if negb (JS.truthy (syncState ≫= sync_threadId)) then
              (* Create new thread with first message as title *)
              let threadName :=
                or_else (JS.slice userText 0 50) OPENCODE_SESSION in
              let '(result, s) :=
                postSync_session env sessionId threadName directory s in
              if JS.truthy result
              then (result,
                    with_syncedSessions
                      <[Some sessionId := {| sync_threadId := result;
                                             sync_pending := false |}]> s)
              else (None, s)
            else (syncState ≫= sync_threadId, s) in
          match threadId with
          | None => s
          | Some threadId =>
              (* Post the message exchange to the thread *)
              let s := postSync_message env sessionId threadId
                         userText assistantText s in
              (* Track what we posted to avoid duplicates *)
              with_plugin_lastPostedContent
                (record sessionId userText assistantText) s
          end
    end.


(** The thread the plugin holds for a session. *)
Definition plugin_thread (s : system) (sessionId : jsstring) : option jsstring :=
  (syncedSessions s !! Some sessionId) ≫= sync_threadId.


(** The two texts the plugin would mirror. *)
Definition plugin_contents (env : plugin_env) : option (jsstring * jsstring) :=
  found ← plugin_getLatestExchange (default [] (message_list env));
  let u := plugin_extractMessageContent (userMessage found) in
  let a := plugin_extractMessageContent (assistantMessage found) in
  if JS.truthy (Some u) || JS.truthy (Some a) then Some (u, a) else None.

Definition initial_system : system :=
  {| syncedSessions := ∅; plugin_lastPostedContent := ∅; requests := [];
     bot := initial_world |}.

(** A plugin environment in which both requests get through to a bot for
    which every call to the platform succeeds. *)
Definition connected (messages : list message) (newThread : string) : plugin_env :=
  {| message_list := Some messages;
     session_post := Some (healthy [] newThread);
     message_post := Some (healthy [] newThread) |}.

(** The same messages, with the bot out of reach. *)
Definition disconnected (messages : list message) : plugin_env :=
  {| message_list := Some messages; session_post := None; message_post := None |}.


(** A platform on which the thread to post into can be fetched and every
    send goes through. *)
Definition reliable (env : platform) : Prop :=
  channels_fetch env = FetchThread ∧ ∀ n, thread_send env n = true.

(** A call [postToSyncThread] makes: fetching a thread, or sending to one. *)
Definition is_post (e : effect) : Prop :=
  match e with
  | ChannelsFetch _ | ThreadSend _ _ => True
  | _ => False
  end.

(** ** A reply in a sync thread, forwarded to the backend *)

(** [response.content]: a string, an array of parts, or something else. *)
Inductive response_content :=
| ContentString (s : jsstring)
| ContentArray (parts : list part)
| ContentOther.

(** What [sendPrompt] returns, [result?.data], as far as
    [extractResponseText] reads it: [parts] when it is there (an array),
    and [content]. *)
Record prompt_data := {
  data_parts : option (list part);
  data_content : option response_content
}.

(** [parts.filter(p => p.type === 'text').map(p => p.text).join('\n')];
    [join] renders a missing text as the empty string. *)
Definition text_lines (parts : list part) : jsstring :=
  join [JS.NEWLINE]
    ((λ p, default [] (part_text p))
       <$> filter (λ p, part_type p = Some (JS.lit "text")) parts).

Definition extractResponseText (response : option prompt_data) : jsstring :=
  match response with
  | None => []
  | Some r =>
      match data_parts r with
      | Some parts => text_lines parts
      | None =>
          match data_content r with
          | Some (ContentString s) => s
          | Some (ContentArray parts) => text_lines parts
          | Some ContentOther | None => []
          end
      end
  end.

(** The calls of [handleSyncThreadReply], as attempted.  The text of the
    error note is made from the message of the error caught. *)
Inductive reply_call :=
| SendTyping
| SessionPrompt (sessionId text : jsstring) (model_ : model_ref)
| ChannelReply (content : jsstring)
| ErrorNote.

(** The environment of one reply: whether [sendTyping] resolves, what
    [sendPrompt] returns ([None] when it throws, as it does for a result
    with an error), whether the n-th [channel.send] of the [try] block
    resolves, and whether the one of the [catch] block does. *)
Record reply_env := {
  typing_ok : bool;
  prompt_result : option (option prompt_data);
  reply_send : nat → bool;
  note_send : bool
}.

Definition NO_RESPONSE : jsstring := JS.lit "*No response from AI*".

(** The loop over [responseParts]: the calls made, and whether all sends
    resolved. *)
Fixpoint reply_parts (renv : reply_env) (parts : list jsstring) (i : nat)
    : list reply_call * bool :=
  match parts with
  | [] => ([], true)
  | p :: rest =>
      let content := if bool_decide (i = 0) then ASSISTANT_LABEL ++ p else p in
      if reply_send renv i then
        let '(calls, ok) := reply_parts renv rest (S i) in
        (ChannelReply content :: calls, ok)
      else ([ChannelReply content], false)
  end.

(** The [try] block: the calls made, and whether it ran to its end. *)
Definition reply_attempt (renv : reply_env)
    (userModels : gmap jsstring jsstring) (OPENCODE_MODEL : option jsstring)
    (sessionId userId content : jsstring) : list reply_call * bool :=
  (* Show typing indicator *)
  if negb (typing_ok renv) then ([SendTyping], false)
  else
    (* Get model for user (or use default) *)
    let userModel := getUserModel userModels OPENCODE_MODEL userId in
    let modelObj := parseModelId userModel in
    let prompt := SessionPrompt sessionId content modelObj in
    match prompt_result renv with
    | None => ([SendTyping; prompt], false)
    | Some response =>
        let fullResponse := extractResponseText response in
        (* Post the response to the thread *)
        if JS.truthy (Some fullResponse) then
          match splitMessage fullResponse 1900 with
          | Some responseParts =>
              let '(calls, ok) := reply_parts renv responseParts 0 in
              (SendTyping :: prompt :: calls, ok)
          | None => ([SendTyping; prompt], false)   (* not taken: the split returns *)
          end
        else
          ([SendTyping; prompt; ChannelReply NO_RESPONSE], reply_send renv 0)
    end.

(** [handleSyncThreadReply(threadId, userMessage, content)]: the calls it
    makes, and whether it returns ([true]) or throws, which it does when
    the send of the error note is rejected. *)
Definition handleSyncThreadReply (renv : reply_env) (w : world)
    (userModels : gmap jsstring jsstring) (OPENCODE_MODEL : option jsstring)
    (threadId userId content : jsstring) : list reply_call * bool :=
  let sessionId := threadToSession w !! threadId in
  match sessionId with
  | Some id =>
      if negb (JS.truthy sessionId) then ([], true)
      else
        let '(calls, ok) :=
          reply_attempt renv userModels OPENCODE_MODEL id userId content in
        if ok then (calls, true)
        else (calls ++ [ErrorNote], note_send renv)
  | None => ([], true)
  end.

(** ** Binds that overlap

    A handler runs without interruption only from one [await] to the
    next.  Between the existence check of the [/sync/session] handler and
    the three writes of [createSyncThread] lie the awaits of the platform
    calls, so the check of a second request can run while the first
    request awaits the platform.  The handler is cut here at the last of
    these awaits, that of [startThread]. *)

(** [createSyncThread] up to the [await] of [startThread]: the thread the
    platform has started, not stored yet; [None] where the function
    returns null. *)
Definition createSyncThread_start (env : platform) (sessionId title : jsstring)
    (directory : option jsstring) : M (option thread) :=
  w ← get;
  (if syncChannel w is None
   then c ← ensureSyncChannel env; modify (with_syncChannel c)
   else mret tt);;
  w ← get;
  match syncChannel w with
  | None => mret None
  | Some channel =>
      try_catch
        (let name := or_else (JS.slice title 0 100) OPENCODE_SESSION in
         (* Create starter message for the thread *)
         call (ChannelSend channel name);;
         (if starter_send env then mret tt else throw);;
         (* Create thread from the message *)
         call (StartThread name sessionId);;
         match start_thread env with
         | None => throw
         | Some id => mret (Some {| thread_id := id; thread_name := name |})
         end)
        (mret None)
  end.

(** [createSyncThread] from there on: the three writes, and the thread
    returned. *)
Definition createSyncThread_store (sessionId : jsstring)
    (started : option thread) : M (option thread) :=
  match started with
  | None => mret None
  | Some thread =>
      (* Store mappings *)
      modify (with_sessionToThread <[sessionId := thread_id thread]>);;
      modify (with_threadToSession <[thread_id thread := sessionId]>);;
      (* Subscribe to thread for replies *)
      modify (with_subscribedThreads (λ s, {[thread_id thread]} ∪ s));;
      mret (Some thread)
  end.

(** A [/sync/session] request at that [await]: answered already, or
    waiting for its thread. *)
Inductive pending_bind :=
| Answered (answer : response)
| Started (sessionId : jsstring) (started : option thread).

(** The handler of [POST /sync/session] up to that [await], existence
    check included. *)
Definition syncSession_start (env : platform) (request : option session_request)
    : M pending_bind :=
  try_catch
    (match request with
     | None => throw
     | Some data =>
         match req_sessionId data with
         | Some sessionId =>
             if negb (JS.truthy (req_sessionId data)) then
               mret (Answered {| status := 400;
                                 body := ErrorBody (JS.lit "Missing sessionId") |})
             else
               w ← get;
               (* Check if thread already exists for this session *)
               match sessionToThread w !! sessionId with
               | Some existingThreadId =>
                   mret (Answered {| status := 200;
                                     body := ThreadBody existingThreadId true |})
               | None =>
                   (* Create new thread *)
                   started ← createSyncThread_start env sessionId
                               (or_else (default [] (req_title data))
                                  OPENCODE_SESSION)
                               (req_directory data);
                   mret (Started sessionId started)
               end
         | None =>
             mret (Answered {| status := 400;
                               body := ErrorBody (JS.lit "Missing sessionId") |})
         end
     end)
    (mret (Answered {| status := 400; body := ErrorBody (JS.lit "error") |})).

(** The handler from there on. *)
Definition syncSession_resume (pending : pending_bind) : M response :=
  match pending with
  | Answered answer => mret answer
  | Started sessionId started =>
      thread ← createSyncThread_store sessionId started;
      match thread with
      | Some t =>
          mret {| status := 200; body := ThreadBody (thread_id t) false |}
      | None =>
          mret {| status := 500;
                  body := ErrorBody (JS.lit "Failed to create thread") |}
      end
  end.

(** Two requests whose handlers overlap: the second is taken up while the
    first awaits its thread; then the first resumes, then the second. *)
Definition overlapping_syncSessions (envA envB : platform)
    (requestA requestB : option session_request) : M (response * response) :=
  pendingA ← syncSession_start envA requestA;
  pendingB ← syncSession_start envB requestB;
  answerA ← syncSession_resume pendingA;
  answerB ← syncSession_resume pendingB;
  mret (answerA, answerB).
(** * Properties *)

(** ** JavaScript string primitives *)

Section JSFacts.

Lemma len_nonneg (s : jsstring) : (0 ≤ JS.len s)%Z.
Proof. unfold JS.len. lia. Qed.

Lemma trimStart_length (s : jsstring) :
  List.length (JS.trimStart s) ≤ List.length s.
Proof.
  induction s as [|c s IH]; simpl; [lia|].
  destruct (JS.is_white_space c); simpl; lia.
Qed.

Lemma trim_length (s : jsstring) : List.length (JS.trim s) ≤ List.length s.
Proof.
  unfold JS.trim, JS.trimEnd. rewrite length_rev.
  etrans; [apply trimStart_length|]. rewrite length_rev.
  apply trimStart_length.
Qed.

Lemma relative_index_inside (n i : Z) :
  (0 ≤ i ≤ n)%Z → JS.relative_index n i = i.
Proof.
  intros Hi. unfold JS.relative_index.
  destruct (Z.ltb_spec i 0); lia.
Qed.

Lemma slice_prefix {A} (s : list A) (k : Z) :
  (0 ≤ k ≤ Z.of_nat (List.length s))%Z →
  JS.slice s 0 k = take (Z.to_nat k) s.
Proof.
  intros Hk. unfold JS.slice.
  rewrite !relative_index_inside by lia.
  rewrite Z.sub_0_r. done.
Qed.

Lemma slice_from_suffix {A} (s : list A) (k : Z) :
  (0 ≤ k ≤ Z.of_nat (List.length s))%Z →
  JS.slice_from s k = drop (Z.to_nat k) s.
Proof.
  intros Hk. unfold JS.slice_from, JS.slice.
  rewrite !relative_index_inside by lia.
  apply take_ge. rewrite length_drop. lia.
Qed.

Lemma lastIndexOf_from_spec (s : jsstring) (c : N) (n : nat) :
  (JS.lastIndexOf_from s c n = (-1)%Z ∧ ∀ i, i < n → s !! i ≠ Some c)
  ∨ (∃ k, JS.lastIndexOf_from s c n = Z.of_nat k ∧ k < n ∧ s !! k = Some c
          ∧ ∀ i, k < i < n → s !! i ≠ Some c).
Proof.
  induction n as [|n IH]; simpl.
  - left. split; [done|]. intros i Hi. lia.
  - destruct (s !! n) as [c'|] eqn:Hn.
    + destruct (N.eqb_spec c' c) as [->|Hne].
      * right. exists n. repeat split; [lia|done|]. intros i Hi. lia.
      * destruct IH as [[-> IH]|(k & -> & Hk & Hc & IH)].
        -- left. split; [done|]. intros i Hi.
           destruct (decide (i = n)) as [->|]; [congruence|]. apply IH. lia.
        -- right. exists k. repeat split; [lia|done|]. intros i Hi.
           destruct (decide (i = n)) as [->|]; [congruence|]. apply IH. lia.
    + destruct IH as [[-> IH]|(k & -> & Hk & Hc & IH)].
      * left. split; [done|]. intros i Hi.
        destruct (decide (i = n)) as [->|]; [congruence|]. apply IH. lia.
      * right. exists k. repeat split; [lia|done|]. intros i Hi.
        destruct (decide (i = n)) as [->|]; [congruence|]. apply IH. lia.
Qed.

End JSFacts.

(** ** splitMessage *)

Section SplitMessage.

Lemma lastIndexOf_cases (s : jsstring) (c : N) (limit : Z) :
  (0 ≤ limit)%Z →
  (JS.lastIndexOf s c limit = (-1)%Z
   ∧ ∀ j, (0 ≤ j ≤ limit)%Z → s !! Z.to_nat j ≠ Some c)
  ∨ latest_at_or_before s c limit (JS.lastIndexOf s c limit).
Proof.
  intros Hl. unfold JS.lastIndexOf, JS.len.
  set (n := Z.to_nat _).
  assert (Hn : Z.of_nat n = (Z.min limit (Z.of_nat (List.length s) - 1) + 1)%Z)
    by (subst n; lia).
  assert (Hout : ∀ j, (0 ≤ j)%Z → ¬ Z.to_nat j < n → (j ≤ limit)%Z →
                      s !! Z.to_nat j ≠ Some c).
  { intros j Hj Hjn Hjl. rewrite lookup_ge_None_2; [done|]. lia. }
  destruct (lastIndexOf_from_spec s c n) as [[-> Hnone]|(k & -> & Hk & Hc & Hnone)].
  - left. split; [done|]. intros j Hj.
    destruct (decide (Z.to_nat j < n)); [by apply Hnone|apply Hout; lia].
  - right. split; [lia|]. split; [by rewrite Nat2Z.id|].
    intros j Hj.
    destruct (decide (Z.to_nat j < n)); [apply Hnone; lia|apply Hout; lia].
Qed.

Lemma latest_at_or_before_lastIndexOf (s : jsstring) (c : N) (limit k : Z) :
  latest_at_or_before s c limit k → JS.lastIndexOf s c limit = k.
Proof.
  intros (Hk & Hc & Hlater).
  destruct (lastIndexOf_cases s c limit) as [[_ Hnone]|(Hr & Hrc & Hrlater)];
    [lia| |].
  - exfalso. by apply (Hnone k).
  - destruct (Z.lt_trichotomy k (JS.lastIndexOf s c limit)) as [Hlt|[->|Hgt]];
      [|done|].
    + exfalso. apply (Hlater (JS.lastIndexOf s c limit)); [lia|done].
    + exfalso. apply (Hrlater k); [lia|done].
Qed.

Lemma lastIndexOf_range (s : jsstring) (c : N) (limit : Z) :
  (0 ≤ limit)%Z → (-1 ≤ JS.lastIndexOf s c limit ≤ limit)%Z.
Proof.
  intros Hl.
  destruct (lastIndexOf_cases s c limit) as [[-> _]|(Hr & _)]; lia.
Qed.

(** The split point as one expression. *)
Lemma chooseSplitIndex_eq (remaining : jsstring) (maxLength : Z) :
  (1 ≤ maxLength)%Z →
  chooseSplitIndex remaining maxLength
  = let newline := JS.lastIndexOf remaining JS.NEWLINE maxLength in
    let space := JS.lastIndexOf remaining JS.SPACE maxLength in
    if (maxLength <=? 2 * newline)%Z then newline
    else if (maxLength <=? 2 * space)%Z then space
    else maxLength.
Proof.
  intros Hm. unfold chooseSplitIndex. cbv zeta.
  generalize (JS.lastIndexOf remaining JS.NEWLINE maxLength) as newline.
  generalize (JS.lastIndexOf remaining JS.SPACE maxLength) as space.
  intros space newline.
  destruct (Z.eqb_spec newline (-1)), (Z.ltb_spec (2 * newline) maxLength);
    simpl; Z_cases.
Qed.

Lemma chooseSplitIndex_range (remaining : jsstring) (maxLength : Z) :
  (1 ≤ maxLength)%Z →
  (maxLength ≤ 2 * chooseSplitIndex remaining maxLength
   ∧ chooseSplitIndex remaining maxLength ≤ maxLength)%Z.
Proof.
  intros Hm. rewrite chooseSplitIndex_eq by done. cbv zeta.
  pose proof (lastIndexOf_range remaining JS.NEWLINE maxLength).
  pose proof (lastIndexOf_range remaining JS.SPACE maxLength).
  destruct (Z.leb_spec maxLength (2 * JS.lastIndexOf remaining JS.NEWLINE maxLength));
    [lia|].
  destruct (Z.leb_spec maxLength (2 * JS.lastIndexOf remaining JS.SPACE maxLength));
    lia.
Qed.

Lemma lastIndexOf_upper_half (s : jsstring) (c : N) (limit : Z) :
  (1 ≤ limit)%Z → none_in_upper_half s c limit →
  (2 * JS.lastIndexOf s c limit < limit)%Z.
Proof.
  intros Hl Hnone.
  destruct (lastIndexOf_cases s c limit) as [[-> _]|(Hr & Hc & _)]; [lia..|].
  destruct (Z.lt_ge_cases (2 * JS.lastIndexOf s c limit) limit); [done|].
  exfalso. apply (Hnone (JS.lastIndexOf s c limit)); [lia..|done].
Qed.

Lemma chooseSplitIndex_newline (remaining : jsstring) (maxLength k : Z) :
  (1 ≤ maxLength)%Z →
  latest_at_or_before remaining JS.NEWLINE maxLength k →
  (maxLength ≤ 2 * k)%Z →
  chooseSplitIndex remaining maxLength = k.
Proof.
  intros Hm Hk Hhalf. rewrite chooseSplitIndex_eq by done. cbv zeta.
  rewrite (latest_at_or_before_lastIndexOf _ _ _ _ Hk).
  destruct (Z.leb_spec maxLength (2 * k)); [done|lia].
Qed.

Lemma chooseSplitIndex_space (remaining : jsstring) (maxLength k : Z) :
  (1 ≤ maxLength)%Z →
  none_in_upper_half remaining JS.NEWLINE maxLength →
  latest_at_or_before remaining JS.SPACE maxLength k →
  (maxLength ≤ 2 * k)%Z →
  chooseSplitIndex remaining maxLength = k.
Proof.
  intros Hm Hnl Hk Hhalf. rewrite chooseSplitIndex_eq by done. cbv zeta.
  pose proof (lastIndexOf_upper_half _ _ _ Hm Hnl).
  rewrite (latest_at_or_before_lastIndexOf _ _ _ _ Hk).
  destruct (Z.leb_spec maxLength (2 * JS.lastIndexOf remaining JS.NEWLINE maxLength));
    [lia|].
  destruct (Z.leb_spec maxLength (2 * k)); [done|lia].
Qed.

Lemma chooseSplitIndex_forced (remaining : jsstring) (maxLength : Z) :
  (1 ≤ maxLength)%Z →
  none_in_upper_half remaining JS.NEWLINE maxLength →
  none_in_upper_half remaining JS.SPACE maxLength →
  chooseSplitIndex remaining maxLength = maxLength.
Proof.
  intros Hm Hnl Hsp. rewrite chooseSplitIndex_eq by done. cbv zeta.
  pose proof (lastIndexOf_upper_half _ _ _ Hm Hnl).
  pose proof (lastIndexOf_upper_half _ _ _ Hm Hsp).
  destruct (Z.leb_spec maxLength (2 * JS.lastIndexOf remaining JS.NEWLINE maxLength));
    [lia|].
  destruct (Z.leb_spec maxLength (2 * JS.lastIndexOf remaining JS.SPACE maxLength));
    [lia|done].
Qed.

(** With enough fuel the loop returns; it emits well-formed segments, at
    least one if it was entered with text left, and the first one ends at
    the chosen split point. *)
Lemma splitMessage_loop_returns (maxLength : Z) :
  (1 ≤ maxLength)%Z →
  ∀ fuel remaining parts,
    List.length remaining < fuel →
    ∃ out,
      splitMessage_loop fuel maxLength remaining parts = Some (parts ++ out)
      ∧ Forall (segment_ok maxLength) out
      ∧ (remaining ≠ [] → out ≠ [])
      ∧ ((maxLength < JS.len remaining)%Z →
         head out = Some (take (Z.to_nat (chooseSplitIndex remaining maxLength))
                            remaining)).
Proof.
  intros Hm. induction fuel as [|fuel IH]; intros remaining parts Hfuel; [lia|].
  simpl. unfold JS.len in *.
  destruct (Z.ltb_spec 0 (Z.of_nat (List.length remaining))) as [Hpos|Hzero].
  - destruct (Z.leb_spec (Z.of_nat (List.length remaining)) maxLength) as [Hle|Hgt].
    + exists [remaining]. split_and!; [done| |done|lia].
      apply Forall_singleton. split; [|done].
      intros ->. simpl in Hpos. lia.
    + pose proof (chooseSplitIndex_range remaining maxLength Hm) as [Hlo Hhi].
      set (k := chooseSplitIndex remaining maxLength) in *.
      rewrite slice_prefix, slice_from_suffix by lia.
      destruct (IH (JS.trim (drop (Z.to_nat k) remaining))
                   (parts ++ [take (Z.to_nat k) remaining]))
        as (out & -> & Hok & _).
      { pose proof (trim_length (drop (Z.to_nat k) remaining)).
        rewrite length_drop in *. lia. }
      exists (take (Z.to_nat k) remaining :: out).
      rewrite <- app_assoc. split_and!; [done| |done|done].
      apply Forall_cons. split; [|done].
      split.
      * intros Hnil. apply (f_equal List.length) in Hnil.
        rewrite length_take in Hnil. simpl in Hnil. lia.
      * unfold JS.len. rewrite length_take. lia.
  - exists []. rewrite app_nil_r. split_and!; [done|done| |lia].
    intros Hne. destruct remaining; [done|simpl in Hzero; lia].
Qed.

Lemma splitMessage_returns (text : jsstring) (maxLength : Z) :
  (1 ≤ maxLength)%Z →
  ∃ parts, splitMessage text maxLength = Some parts
           ∧ (text ≠ [] → parts ≠ [] ∧ Forall (segment_ok maxLength) parts)
           ∧ Forall (λ p, (JS.len p ≤ maxLength)%Z) parts
           ∧ ((maxLength < JS.len text)%Z →
              head parts
              = Some (take (Z.to_nat (chooseSplitIndex text maxLength)) text)).
Proof.
  intros Hm. unfold splitMessage, splitMessage_fuel.
  destruct (Z.leb_spec (JS.len text) maxLength) as [Hle|Hgt].
  - exists [text]. split_and!; [done| | |lia].
    + intros Hne. split; [done|]. apply Forall_singleton. by split.
    + by apply Forall_singleton.
  - destruct (splitMessage_loop_returns maxLength Hm (S (List.length text)) text [])
      as (out & -> & Hok & Hne & Hhead); [lia|].
    exists out. split_and!; [done| | |done].
    + intros Htext. split; [by apply Hne|done].
    + eapply Forall_impl; [exact Hok|]. by intros p [_ ?].
Qed.

End SplitMessage.

Section SplitMessageClaims.

Lemma splitMessage_loop_progress (remaining : jsstring) (maxLength : Z) :
  (1 ≤ maxLength)%Z → (maxLength < JS.len remaining)%Z →
  let splitIndex := chooseSplitIndex remaining maxLength in
  (maxLength ≤ 2 * splitIndex)%Z
  ∧ (JS.len (JS.trim (JS.slice_from remaining splitIndex))
     ≤ JS.len remaining - splitIndex)%Z.
Proof.
  intros Hm Hlen splitIndex. unfold JS.len in *.
  pose proof (chooseSplitIndex_range remaining maxLength Hm) as [Hlo Hhi].
  fold splitIndex in Hlo, Hhi. split; [done|].
  rewrite slice_from_suffix by lia.
  pose proof (trim_length (drop (Z.to_nat splitIndex) remaining)) as Htrim.
  rewrite length_drop in Htrim. lia.
Qed.

(** C10.  For a non-empty text and a limit of at least 1, [splitMessage]
    returns, the list it returns is not empty and none of its segments is
    the empty string; every iteration of the loop cuts at an index of at
    least half the limit and leaves a remainder shorter by at least that
    much. *)
Theorem splitMessage_terminates_nonempty (text : jsstring) (maxLength : Z) :
  text ≠ [] → (1 ≤ maxLength)%Z →
  (∃ parts, splitMessage text maxLength = Some parts
            ∧ parts ≠ []
            ∧ Forall (λ p, p ≠ []) parts)
  ∧ (∀ remaining, (maxLength < JS.len remaining)%Z →
       let splitIndex := chooseSplitIndex remaining maxLength in
       (maxLength ≤ 2 * splitIndex)%Z
       ∧ (JS.len (JS.trim (JS.slice_from remaining splitIndex))
          ≤ JS.len remaining - splitIndex)%Z).
Proof.
  intros Htext Hm. split.
  - destruct (splitMessage_returns text maxLength Hm) as (parts & Hsome & Hne & _).
    destruct (Hne Htext) as [Hparts Hok].
    exists parts. split_and!; [done|done|].
    eapply Forall_impl; [exact Hok|]. by intros p [? _].
  - intros remaining Hlen. by apply splitMessage_loop_progress.
Qed.

Lemma splitMessage_terminates_nonempty_witness :
  JS.lit "aaaa bbbb cccc" ≠ [] ∧ (1 ≤ 6)%Z
  ∧ ∃ parts, splitMessage (JS.lit "aaaa bbbb cccc") 6 = Some parts
             ∧ parts ≠ [] ∧ Forall (λ p, p ≠ []) parts.
Proof.
  split; [discriminate|]. split; [lia|].
  apply (splitMessage_terminates_nonempty (JS.lit "aaaa bbbb cccc") 6);
    [discriminate|lia].
Defined.

(** C8, as stated, fails: the text holds a newline before the limit, at
    index 1, yet the first segment does not end there. *)
Lemma splitMessage_early_newline_not_chosen :
  ¬ (∀ k first rest,
       latest_at_or_before early_newline_text JS.NEWLINE 1900 k →
       splitMessage early_newline_text 1900 = Some (first :: rest) →
       first = take (Z.to_nat k) early_newline_text).
Proof.
  intros Hclaim.
  assert (Hlatest : latest_at_or_before early_newline_text JS.NEWLINE 1900 1).
  { assert (Hidx : JS.lastIndexOf early_newline_text JS.NEWLINE 1900 = 1%Z)
      by (vm_compute; reflexivity).
    destruct (lastIndexOf_cases early_newline_text JS.NEWLINE 1900) as [[Hno _]|Hl];
      [lia| |].
    - rewrite Hidx in Hno. discriminate.
    - by rewrite Hidx in Hl. }
  specialize (Hclaim 1%Z (take 1900 early_newline_text)
                [replicate 102 98%N] Hlatest).
  assert (Hrun : splitMessage early_newline_text 1900
                 = Some [take 1900 early_newline_text; replicate 102 98%N])
    by (vm_compute; reflexivity).
  apply Hclaim in Hrun. apply (f_equal List.length) in Hrun.
  vm_compute in Hrun. discriminate.
Qed.

(** C8, amended.  For a text longer than the limit, the first segment ends
    at the latest newline at or before the limit when that newline is not
    before half the limit; failing that, at the latest space at or before
    the limit when that space is not before half the limit; failing both,
    exactly at the limit.  No segment is longer than the limit. *)
Theorem splitMessage_first_split (text : jsstring) (maxLength : Z) :
  (1 ≤ maxLength)%Z → (maxLength < JS.len text)%Z →
  ∃ first rest,
    splitMessage text maxLength = Some (first :: rest)
    ∧ Forall (λ p, (JS.len p ≤ maxLength)%Z) (first :: rest)
    ∧ (∀ k, latest_at_or_before text JS.NEWLINE maxLength k →
            (maxLength ≤ 2 * k)%Z →
            first = take (Z.to_nat k) text)
    ∧ (∀ k, none_in_upper_half text JS.NEWLINE maxLength →
            latest_at_or_before text JS.SPACE maxLength k →
            (maxLength ≤ 2 * k)%Z →
            first = take (Z.to_nat k) text)
    ∧ (none_in_upper_half text JS.NEWLINE maxLength →
       none_in_upper_half text JS.SPACE maxLength →
       first = take (Z.to_nat maxLength) text).
Proof.
  intros Hm Hlen.
  destruct (splitMessage_returns text maxLength Hm)
    as (parts & Hsome & _ & Hbound & Hhead).
  specialize (Hhead Hlen).
  destruct parts as [|first rest]; [discriminate|].
  simpl in Hhead. injection Hhead as ->.
  eexists _, rest. split_and!; [done|done|..].
  - intros k Hk Hhalf. by rewrite (chooseSplitIndex_newline _ _ k).
  - intros k Hnl Hk Hhalf. by rewrite (chooseSplitIndex_space _ _ k).
  - intros Hnl Hsp. by rewrite chooseSplitIndex_forced.
Qed.

Lemma splitMessage_first_split_witness :
  (1 ≤ 6)%Z ∧ (6 < JS.len (JS.lit "aaaa bbbb cccc"))%Z
  ∧ ∃ first rest,
      splitMessage (JS.lit "aaaa bbbb cccc") 6 = Some (first :: rest)
      ∧ Forall (λ p, (JS.len p ≤ 6)%Z) (first :: rest).
Proof.
  split; [lia|]. split; [vm_compute; reflexivity|].
  destruct (splitMessage_first_split (JS.lit "aaaa bbbb cccc") 6)
    as (first & rest & Hrun & Hbound & _); [lia|vm_compute; reflexivity|].
  exists first, rest. split; assumption.
Defined.

End SplitMessageClaims.

Section SplitMessageExamples.

Example splitMessage_short :
  splitMessage (JS.lit "hello") 1900 = Some [JS.lit "hello"].
Proof. reflexivity. Qed.

Example splitMessage_at_spaces :
  splitMessage (JS.lit "aaaa bbbb cccc") 6
  = Some [JS.lit "aaaa"; JS.lit "bbbb"; JS.lit "cccc"].
Proof. reflexivity. Qed.

(** A newline in the first half of the window is passed over. *)
Example splitMessage_newline_too_early :
  splitMessage (JS.lit "a" ++ [JS.NEWLINE] ++ JS.lit "bbbbbbbbbbbb") 10
  = Some [JS.lit "a" ++ [JS.NEWLINE] ++ JS.lit "bbbbbbbb"; JS.lit "bbbb"].
Proof. reflexivity. Qed.

(** The fuel is not for show: with a limit of 0 the loop never ends. *)
Lemma splitMessage_loop_zero_limit (fuel : nat) (parts : list jsstring) :
  splitMessage_loop fuel 0 (JS.lit "a") parts = None.
Proof.
  revert parts. induction fuel as [|fuel IH]; intros parts; [done|].
  simpl. apply IH.
Qed.

End SplitMessageExamples.

(** ** The exchange extractor *)

Section Extractor.

Lemma user_is_not_assistant : Some USER ≠ Some ASSISTANT.
Proof. vm_compute. discriminate. Qed.

(** Before an assistant message is met, messages of other roles are
    passed over. *)
Lemma getLatestExchange_loop_skip (skipped visited : list message) (i : Z) :
  Forall (λ m, ¬ is_assistant m) skipped →
  getLatestExchange_loop (skipped ++ visited) i (-1)
  = getLatestExchange_loop visited (i - Z.of_nat (List.length skipped)) (-1).
Proof.
  intros Hskipped. revert i.
  induction Hskipped as [|m skipped Hm _ IH]; intros i; simpl.
  - f_equal. lia.
  - rewrite (bool_decide_eq_false_2 _ Hm). simpl.
    rewrite andb_false_r, IH. f_equal. lia.
Qed.

(** Once an assistant message is met, the scan runs to the start of the
    list when no user message is left. *)
Lemma getLatestExchange_loop_no_user (visited : list message)
    (i lastAssistantIdx : Z) :
  lastAssistantIdx ≠ (-1)%Z →
  Forall (λ m, ¬ is_user m) visited →
  getLatestExchange_loop visited i lastAssistantIdx = ((-1)%Z, lastAssistantIdx).
Proof.
  intros Hla Hvisited. revert i.
  induction Hvisited as [|m visited Hm _ IH]; intros i; simpl; [done|].
  destruct (Z.eqb_spec lastAssistantIdx (-1)) as [|_]; [done|].
  rewrite andb_false_r. rewrite (bool_decide_eq_false_2 _ Hm). simpl.
  apply IH.
Qed.

Lemma getLatestExchange_ends_with_pair (pre : list message) (u a : message) :
  is_user u → is_assistant a →
  getLatestExchange (pre ++ [u; a])
  = Some {| userMessage := Some u; assistantMessage := Some a |}.
Proof.
  unfold is_user, is_assistant. intros Hu Ha. unfold getLatestExchange.
  rewrite rev_app_distr, length_app. simpl.
  rewrite Ha, Hu.
  rewrite (bool_decide_eq_true_2 (Some ASSISTANT = Some ASSISTANT)) by done.
  rewrite (bool_decide_eq_true_2 (Some USER = Some USER)) by done.
  rewrite (bool_decide_eq_false_2 _ user_is_not_assistant).
  assert (Hne : Some ASSISTANT ≠ Some USER)
    by (intros H; by apply user_is_not_assistant).
  rewrite (bool_decide_eq_false_2 _ Hne). simpl.
  set (n := List.length pre).
  destruct (Z.eqb_spec (Z.of_nat (n + 2) - 1) (-1)) as [|_]; [lia|]. simpl.
  destruct (Z.eqb_spec (Z.of_nat (n + 2) - 1 - 1) (-1)) as [|_]; [lia|]. simpl.
  destruct (Z.eqb_spec (Z.of_nat (n + 2) - 1) (-1)) as [|_]; [lia|].
  replace (Z.to_nat (Z.of_nat (n + 2) - 1 - 1)) with (n + 0) by lia.
  replace (Z.to_nat (Z.of_nat (n + 2) - 1)) with (n + 1) by lia.
  rewrite !lookup_app_r by (unfold n; lia).
  replace (n + 0 - List.length pre) with 0 by (unfold n; lia).
  replace (n + 1 - List.length pre) with 1 by (unfold n; lia).
  reflexivity.
Qed.

Lemma getLatestExchange_no_assistant (messages : list message) :
  Forall (λ m, ¬ is_assistant m) messages →
  getLatestExchange messages = None.
Proof.
  intros Hno. unfold getLatestExchange.
  rewrite <- (app_nil_r (rev messages)).
  rewrite getLatestExchange_loop_skip.
  - done.
  - apply Forall_forall. intros m Hm.
    rewrite Forall_forall in Hno. apply Hno.
    apply list_elem_of_In, in_rev, list_elem_of_In, Hm.
Qed.

Lemma getLatestExchange_assistant_first (pre post : list message) (a : message) :
  is_assistant a →
  Forall (λ m, ¬ is_assistant m) post →
  Forall (λ m, ¬ is_user m) pre →
  getLatestExchange (pre ++ a :: post) = None.
Proof.
  intros Ha Hpost Hpre. unfold getLatestExchange.
  rewrite rev_app_distr. simpl. rewrite <- app_assoc. simpl.
  rewrite getLatestExchange_loop_skip.
  2:{ apply Forall_forall. intros m Hm. rewrite Forall_forall in Hpost.
      apply Hpost. apply list_elem_of_In, in_rev, list_elem_of_In, Hm. }
  simpl. unfold is_assistant in Ha. rewrite Ha.
  rewrite (bool_decide_eq_true_2 (Some ASSISTANT = Some ASSISTANT)) by done.
  assert (Hne : Some ASSISTANT ≠ Some USER)
    by (intros H; by apply user_is_not_assistant).
  rewrite (bool_decide_eq_false_2 _ Hne). simpl.
  rewrite getLatestExchange_loop_no_user.
  - done.
  - rewrite length_rev, length_app. simpl. lia.
  - apply Forall_forall. intros m Hm. rewrite Forall_forall in Hpre.
    apply Hpre. apply list_elem_of_In, in_rev, list_elem_of_In, Hm.
Qed.

(** C3.  A list ending in a user message followed by an assistant message
    yields exactly that pair; a list without an assistant message yields
    null; a list whose last assistant message comes before every user
    message yields null. *)
Theorem getLatestExchange_correct :
  (∀ pre u a,
     is_user u → is_assistant a →
     getLatestExchange (pre ++ [u; a])
     = Some {| userMessage := Some u; assistantMessage := Some a |})
  ∧ (∀ messages,
       Forall (λ m, ¬ is_assistant m) messages →
       getLatestExchange messages = None)
  ∧ (∀ pre a post,
       is_assistant a →
       Forall (λ m, ¬ is_assistant m) post →
       Forall (λ m, ¬ is_user m) pre →
       getLatestExchange (pre ++ a :: post) = None).
Proof.
  split_and!.
  - apply getLatestExchange_ends_with_pair.
  - apply getLatestExchange_no_assistant.
  - intros pre a post. apply getLatestExchange_assistant_first.
Qed.

Lemma getLatestExchange_correct_witness :
  let u := text_message "user" "fix the bug" in
  let a := text_message "assistant" "fixed it in main.go" in
  getLatestExchange ([a] ++ [u; a])
  = Some {| userMessage := Some u; assistantMessage := Some a |}
  ∧ getLatestExchange [u; u] = None
  ∧ getLatestExchange ([] ++ a :: [u]) = None.
Proof.
  intros u a.
  destruct getLatestExchange_correct as (Hpair & Hnone & Hfirst).
  split_and!.
  - apply Hpair; reflexivity.
  - apply Hnone. repeat constructor; vm_compute; discriminate.
  - apply Hfirst; [reflexivity| |constructor].
    repeat constructor; vm_compute; discriminate.
Defined.

End Extractor.

(** ** The deduplication ledger *)

Section Ledger.

Lemma alreadyPosted_true (lastPosted : option posted) (u a : jsstring) :
  alreadyPosted lastPosted u a = true
  ↔ ∃ entry, lastPosted = Some entry
             ∧ userContent entry = u ∧ assistantContent entry = a.
Proof.
  unfold alreadyPosted. destruct lastPosted as [entry|].
  - rewrite andb_true_iff, !bool_decide_eq_true. split.
    + intros [Hu Ha]. by exists entry.
    + intros (entry' & [= <-] & Hu & Ha). done.
  - split; [discriminate|]. intros (entry & Heq & _). discriminate.
Qed.

(** C6.  With no ledger entry for the session [shouldPost] is true; after
    [record] of a triple [shouldPost] of the same triple is false; and
    [shouldPost] is false exactly when the session has an entry whose two
    fields equal the given texts. *)
Theorem shouldPost_record_dedup :
  (∀ ledger sessionId userText assistantText,
     ledger !! sessionId = None →
     shouldPost ledger sessionId userText assistantText = true)
  ∧ (∀ ledger sessionId userText assistantText,
       shouldPost (record sessionId userText assistantText ledger)
         sessionId userText assistantText = false)
  ∧ (∀ ledger sessionId userText assistantText,
       shouldPost ledger sessionId userText assistantText = false
       ↔ ∃ entry, ledger !! sessionId = Some entry
                  ∧ userContent entry = userText
                  ∧ assistantContent entry = assistantText).
Proof.
  split_and!.
  - intros ledger sessionId u a Hnone. unfold shouldPost. by rewrite Hnone.
  - intros ledger sessionId u a. unfold shouldPost, record.
    rewrite lookup_insert_eq. simpl.
    by rewrite !bool_decide_eq_true_2.
  - intros ledger sessionId u a. unfold shouldPost.
    rewrite negb_false_iff. apply alreadyPosted_true.
Qed.

Lemma shouldPost_record_dedup_witness :
  let S := JS.lit "abc123" in
  let u := JS.lit "fix the bug" in
  let a := JS.lit "fixed it in main.go" in
  shouldPost ∅ S u a = true
  ∧ shouldPost (record S u a ∅) S u a = false.
Proof.
  intros S u a.
  destruct shouldPost_record_dedup as (Hbefore & Hafter & _).
  split.
  - apply Hbefore. apply lookup_empty.
  - apply Hafter.
Defined.

End Ledger.

(** ** The handlers *)

Section MirrorHandler.

(** C4.  An idle event for a session in the chat-initiated set is dropped
    on entry: the handler returns with the world as it was, so with no
    call to the backend or to the platform logged and the ledger, the
    registry and the timers untouched, whatever the environment would
    have answered. *)
Theorem handleSessionIdle_skips_chat_initiated
    (env : platform) (cwd sessionId : jsstring) (w : world) :
  sessionId ∈ discordInitiatedSessions w →
  handleSessionIdle env cwd sessionId w = (Ok tt, w).
Proof.
  intros Hin. unfold handleSessionIdle. run.
  by rewrite bool_decide_eq_true_2.
Qed.

Lemma handleSessionIdle_skips_chat_initiated_witness :
  let w := markChatInitiated abc123 initial_world in
  abc123 ∈ discordInitiatedSessions w
  ∧ handleSessionIdle (healthy fix_the_bug "1001") home abc123 w = (Ok tt, w).
Proof.
  intros w.
  assert (Hin : abc123 ∈ discordInitiatedSessions w).
  { apply elem_of_union_l. by apply elem_of_singleton. }
  split; [exact Hin|].
  apply (handleSessionIdle_skips_chat_initiated
           (healthy fix_the_bug "1001") home abc123 w Hin).
Defined.

(** Without the mark the same event is mirrored. *)
Example handleSessionIdle_mirrors_unmarked :
  trace (handleSessionIdle (healthy fix_the_bug "1001") home abc123
           initial_world).2 ≠ [].
Proof. vm_compute. discriminate. Qed.

End MirrorHandler.

Section EventConsumer.

Lemma session_deleted_is_not_status :
  Some SESSION_DELETED ≠ Some SESSION_STATUS.
Proof. vm_compute. discriminate. Qed.

(** C5.  After a [session.deleted] event that carries session [S], bound
    to thread [T]: the forward mapping, the ledger entry and the
    provenance mark of [S] are gone, and the reverse mapping is as it was,
    so [T] still resolves to [S]. *)
Theorem session_deleted_cleanup
    (e : event) (S T : jsstring) (w : world) :
  event_type e = Some SESSION_DELETED →
  (properties e ≫= prop_sessionId) = Some S →
  S ≠ [] →
  getThread w S = Some T →
  getSession w T = Some S →
  let w' := (processEvent e w).2 in
  (processEvent e w).1 = Ok tt
  ∧ getThread w' S = None
  ∧ lastPostedContent w' !! S = None
  ∧ (S ∉ discordInitiatedSessions w')
  ∧ getSession w' T = Some S
  ∧ threadToSession w' = threadToSession w.
Proof.
  intros Htype Hid Hne Hfwd Hrev. unfold processEvent.
  rewrite Htype, Hid. run.
  destruct S as [|c S]; [done|]. simpl.
  unfold getThread, getSession. simpl.
  split_and!; [done|apply lookup_delete_eq|apply lookup_delete_eq| |done|done].
  intros [_ Hout]%elem_of_difference. apply Hout. by apply elem_of_singleton.
Qed.

Lemma session_deleted_cleanup_witness :
  let S := JS.lit "abc123" in
  let T := JS.lit "1122334455" in
  let w' := (processEvent (deleted_event S) (bound_world S T)).2 in
  getThread (bound_world S T) S = Some T
  ∧ getThread w' S = None
  ∧ getSession w' T = Some S.
Proof.
  intros S T w'.
  destruct (session_deleted_cleanup (deleted_event S) S T (bound_world S T))
    as (_ & Hfwd & _ & _ & Hrev & _);
    [reflexivity|reflexivity|discriminate|reflexivity|reflexivity|].
  split_and!; [reflexivity|exact Hfwd|exact Hrev].
Defined.

(** Handling one event returns, logs no call, and schedules only timers
    for [handleSessionIdle]. *)
Lemma processEvent_frame (e : event) (w : world) :
  ∃ w', processEvent e w = (Ok tt, w')
        ∧ trace w' = trace w
        ∧ ∃ ts, timers w' = timers w ++ ts ∧ Forall (λ t, ¬ is_retry t) ts.
Proof.
  unfold processEvent.
  destruct e as [type [[[[|c1 id1]|] [[|c2 id2]|] statusType]|]]; simpl;
    repeat (match goal with
            | |- context [bool_decide ?P] => destruct (bool_decide P)
            end; simpl);
    run;
    eexists; (split; [reflexivity|]); simpl; (split; [reflexivity|]);
    first [ by exists []; rewrite app_nil_r
          | eexists [_]; split; [reflexivity|];
            apply Forall_singleton; unfold is_retry; simpl; intros [=] ].
Qed.

Lemma for_await_frame (events : list event) (w : world) :
  ∃ w', for_await events w = (Ok tt, w')
        ∧ trace w' = trace w
        ∧ ∃ ts, timers w' = timers w ++ ts ∧ Forall (λ t, ¬ is_retry t) ts.
Proof.
  revert w. induction events as [|e events IH]; intros w; simpl.
  - exists w. split_and!; [done|done|]. exists []. by rewrite app_nil_r.
  - destruct (processEvent_frame e w) as (w1 & Hrun & Htrace & ts & Htimers & Hts).
    destruct (IH w1) as (w2 & Hrun2 & Htrace2 & ts2 & Htimers2 & Hts2).
    exists w2. unfold mbind, M_bind, bind. rewrite Hrun, Hrun2.
    split_and!; [done|congruence|].
    exists (ts ++ ts2). rewrite Htimers2, Htimers, app_assoc.
    split; [done|]. by apply Forall_app.
Qed.

(** What one subscription leaves behind. *)
Lemma startGlobalEventSubscription_timers (f : feed) (w : world) :
  ∃ ts, Forall (λ t, ¬ is_retry t) ts
        ∧ trace (startGlobalEventSubscription f w).2 = trace w ++ [GlobalEvent]
        ∧ timers (startGlobalEventSubscription f w).2
          = timers w ++ ts
            ++ (if subscribed f
                then match ending f with
                     | FeedEnds => []
                     | FeedThrows => [(CallStartGlobalEventSubscription, RETRY_DELAY)]
                     end
                else [(CallStartGlobalEventSubscription, RETRY_DELAY)]).
Proof.
  unfold startGlobalEventSubscription. run.
  destruct (subscribed f); simpl.
  - destruct (for_await_frame (delivered f) (with_effect GlobalEvent w))
      as (w1 & Hrun & Htrace & ts & Htimers & Hts).
    rewrite Hrun. exists ts. split; [done|].
    destruct (ending f); simpl; rewrite Htrace, Htimers; simpl;
      by rewrite ?app_nil_r, ?app_assoc.
  - exists []. by split.
Qed.

(** A feed that is exhausted without an error leaves no timer behind. *)
Lemma feed_end_schedules_no_retry :
  let f := {| subscribed := true; delivered := []; ending := FeedEnds |} in
  let w' := (startGlobalEventSubscription f initial_world).2 in
  timers w' = [] ∧ reconnecting w' = false.
Proof. split; vm_compute; reflexivity. Qed.

End EventConsumer.

Section Reconnect.

Lemma startGlobalEventSubscription_fails (f : feed) (w : world) :
  feed_fails f →
  ∃ ts, Forall (λ t, ¬ is_retry t) ts
        ∧ timers (startGlobalEventSubscription f w).2
          = timers w ++ ts ++ [(CallStartGlobalEventSubscription, RETRY_DELAY)].
Proof.
  intros Hfails.
  destruct (startGlobalEventSubscription_timers f w) as (ts & Hts & _ & Htimers).
  exists ts. split; [done|]. rewrite Htimers.
  destruct Hfails as [->| ->]; [done|]. by destruct (subscribed f).
Qed.

Lemma startGlobalEventSubscription_reconnecting (f : feed) (w : world) :
  feed_fails f → reconnecting (startGlobalEventSubscription f w).2 = true.
Proof.
  intros Hfails.
  destruct (startGlobalEventSubscription_fails f w Hfails) as (ts & _ & Htimers).
  unfold reconnecting. apply bool_decide_eq_true_2. rewrite Htimers.
  rewrite !elem_of_app. right. right. apply list_elem_of_singleton. done.
Qed.

Lemma subscriptions_all_fail (feeds : list feed) (w : world) :
  Forall feed_fails feeds →
  trace (subscriptions feeds w)
  = trace w ++ replicate (List.length feeds) GlobalEvent.
Proof.
  intros Hall. revert w.
  induction Hall as [|f feeds Hf _ IH]; intros w; simpl.
  - by rewrite app_nil_r.
  - rewrite (startGlobalEventSubscription_reconnecting f w Hf).
    rewrite IH. simpl.
    destruct (startGlobalEventSubscription_timers f w) as (_ & _ & -> & _).
    by rewrite <- app_assoc.
Qed.

(** The [catch] block.  When the subscription call rejects or the
    iteration of the feed throws, the consumer schedules one call of the
    subscription entry point after a fixed 10000 ms and is reconnecting;
    as no count is kept, any number of failing subscriptions in a row are
    all attempted. *)
Lemma subscription_retries_after_failure :
  (∀ f w, feed_fails f →
     reconnecting (startGlobalEventSubscription f w).2 = true
     ∧ ∃ ts, Forall (λ t, ¬ is_retry t) ts
             ∧ timers (startGlobalEventSubscription f w).2
               = timers w ++ ts
                 ++ [(CallStartGlobalEventSubscription, 10000%Z)])
  ∧ (∀ feeds w, Forall feed_fails feeds →
       trace (subscriptions feeds w)
       = trace w ++ replicate (List.length feeds) GlobalEvent).
Proof.
  split.
  - intros f w Hfails. split.
    + by apply startGlobalEventSubscription_reconnecting.
    + by apply startGlobalEventSubscription_fails.
  - apply subscriptions_all_fail.
Qed.

Lemma subscription_retries_after_failure_witness :
  feed_fails broken_feed
  ∧ reconnecting (startGlobalEventSubscription broken_feed initial_world).2 = true
  ∧ trace (subscriptions [broken_feed; broken_feed; broken_feed] initial_world)
    = [GlobalEvent; GlobalEvent; GlobalEvent].
Proof.
  destruct subscription_retries_after_failure as [Hone Hmany].
  assert (Hfails : feed_fails broken_feed) by (right; reflexivity).
  split_and!.
  - exact Hfails.
  - apply (Hone broken_feed initial_world Hfails).
  - apply (Hmany [broken_feed; broken_feed; broken_feed] initial_world).
    repeat constructor; exact Hfails.
Defined.

(** C7, the code where the claim fails.  When the subscription is
    established and the feed is then exhausted without an error, the
    [for await] loop is left, the [try] block is at its end and the
    function returns: whatever events were delivered, no call of the
    subscription entry point is scheduled, the consumer is not
    reconnecting, and no later feed is ever subscribed to.  The [catch]
    block of the same function does schedule that call: the same feed,
    throwing where it ended, is retried. *)
Theorem feed_end_is_never_retried (f : feed) (later : list feed) (w : world) :
  subscribed f = true →
  ending f = FeedEnds →
  reconnecting w = false →
  let w' := (startGlobalEventSubscription f w).2 in
  let throwing := {| subscribed := true; delivered := delivered f;
                     ending := FeedThrows |} in
  reconnecting w' = false
  ∧ (∃ ts, timers w' = timers w ++ ts ∧ Forall (λ t, ¬ is_retry t) ts)
  ∧ subscriptions (f :: later) w = w'
  ∧ trace (subscriptions (f :: later) w) = trace w ++ [GlobalEvent]
  ∧ reconnecting (startGlobalEventSubscription throwing w).2 = true.
Proof.
  intros Hsub Hend Hidle w' throwing.
  destruct (startGlobalEventSubscription_timers f w)
    as (ts & Hts & Htrace & Htimers).
  rewrite Hsub, Hend, app_nil_r in Htimers. fold w' in Htimers, Htrace.
  assert (reconnecting w' = false) as Hquiet.
  { unfold reconnecting in *. apply bool_decide_eq_false_2.
    apply bool_decide_eq_false_1 in Hidle.
    rewrite Htimers. intros [Hin|Hin]%elem_of_app; [done|].
    rewrite Forall_forall in Hts. by apply (Hts _ Hin). }
  split_and!; [done|by exists ts| | |].
  - simpl. fold w'. by rewrite Hquiet.
  - simpl. fold w'. by rewrite Hquiet.
  - apply startGlobalEventSubscription_reconnecting. by right.
Qed.

Lemma feed_end_is_never_retried_witness :
  let f := {| subscribed := true; delivered := [idle_event abc123];
              ending := FeedEnds |} in
  let w' := (startGlobalEventSubscription f initial_world).2 in
  reconnecting w' = false
  ∧ subscriptions [f; broken_feed; broken_feed] initial_world = w'
  ∧ trace (subscriptions [f; broken_feed; broken_feed] initial_world)
    = [GlobalEvent].
Proof.
  intros f w'.
  destruct (feed_end_is_never_retried f [broken_feed; broken_feed]
              initial_world)
    as (Hquiet & _ & Hstops & Htrace & _); [reflexivity..|].
  split_and!; [exact Hquiet|exact Hstops|exact Htrace].
Defined.

End Reconnect.

Section Registry.

Lemma stores_with_effect (e : effect) (w : world) :
  stores (with_effect e w) = stores w.
Proof. reflexivity. Qed.

Lemma send_parts_stores (env : platform) (threadId label : jsstring)
    (parts : list jsstring) (i sent : nat) (w : world) :
  stores (send_parts env threadId label parts i sent w).2 = stores w.
Proof.
  revert i sent w. induction parts as [|p parts IH]; intros i sent w; [done|].
  simpl. run. destruct (thread_send env sent); [|done].
  rewrite IH. done.
Qed.

Lemma send_split_stores (env : platform) (threadId label text : jsstring)
    (sent : nat) (w : world) :
  stores (send_split env threadId label text sent w).2 = stores w.
Proof.
  unfold send_split. destruct (splitMessage text 1900); [|done].
  apply send_parts_stores.
Qed.

(** Posting touches none of the maps, and never throws. *)
Lemma postToSyncThread_stores (env : platform)
    (threadId userContent_ assistantContent_ : jsstring) (w : world) :
  stores (postToSyncThread env threadId userContent_ assistantContent_ w).2
  = stores w
  ∧ (postToSyncThread env threadId userContent_ assistantContent_ w).1 ≠ Throw.
Proof.
  unfold postToSyncThread.
  destruct userContent_ as [|c u], assistantContent_ as [|c' a]; run;
    destruct (channels_fetch env); try done;
    repeat (match goal with
            | |- context [send_split ?e ?t ?l ?x ?n ?w0] =>
                pose proof (send_split_stores e t l x n w0);
                destruct (send_split e t l x n w0) as [[?| |] ?]
            end; simpl in *);
    rewrite ?stores_with_effect in *;
    (split; [congruence|done]).
Qed.

Lemma send_parts_returns (env : platform) (threadId label : jsstring)
    (parts : list jsstring) (i sent : nat) (w : world) :
  (send_parts env threadId label parts i sent w).1 ≠ Diverge.
Proof.
  revert i sent w. induction parts as [|p parts IH]; intros i sent w; [done|].
  simpl. run. destruct (thread_send env sent); [|done]. apply IH.
Qed.

Lemma send_split_returns (env : platform) (threadId label text : jsstring)
    (sent : nat) (w : world) :
  (send_split env threadId label text sent w).1 ≠ Diverge.
Proof.
  unfold send_split.
  destruct (splitMessage_returns text 1900) as (parts & -> & _); [lia|].
  apply send_parts_returns.
Qed.

(** Posting always comes back with a boolean. *)
Lemma postToSyncThread_returns (env : platform)
    (threadId userContent_ assistantContent_ : jsstring) (w : world) :
  ∃ posted_,
    (postToSyncThread env threadId userContent_ assistantContent_ w).1 = Ok posted_.
Proof.
  unfold postToSyncThread.
  destruct userContent_ as [|c u], assistantContent_ as [|c' a]; run;
    destruct (channels_fetch env); try (by eexists);
    repeat (match goal with
            | |- context [send_split ?e ?t ?l ?x ?n ?w0] =>
                pose proof (send_split_returns e t l x n w0);
                destruct (send_split e t l x n w0) as [[?| |] ?]
            end; simpl in *);
    try done; by eexists.
Qed.

End Registry.

Section RegistryBind.

#[local] Arguments postToSyncThread : simpl never.
#[local] Arguments getLatestExchange : simpl never.
#[local] Arguments extractMessageContent : simpl never.
#[local] Arguments shouldPost : simpl never.
#[local] Arguments JS.truthy : simpl never.

Lemma truthy_nonempty (s : jsstring) : s ≠ [] → JS.truthy (Some s) = true.
Proof. by destruct s. Qed.

Lemma stores_registry (w w' : world) :
  stores w' = stores w →
  sessionToThread w' = sessionToThread w
  ∧ threadToSession w' = threadToSession w
  ∧ lastPostedContent w' = lastPostedContent w.
Proof. unfold stores. intros [= -> -> _ -> _ _ _]. done. Qed.

(** The endpoint answers with the thread already bound and changes
    nothing. *)
Lemma syncSession_bound (env : platform) (S T : jsstring)
    (title directory : option jsstring) (w : world) :
  getThread w S = Some T →
  (syncSession env
     (Some {| req_sessionId := Some S; req_title := title;
              req_directory := directory |}) w).2 = w.
Proof.
  unfold getThread. intros Hbound. unfold syncSession.
  destruct S as [|c S]; run; [done|].
  by rewrite Hbound.
Qed.

(** An idle event for a bound session creates no thread. *)
Lemma handleSessionIdle_bound (env : platform) (cwd S T : jsstring) (w : world) :
  T ≠ [] →
  getThread w S = Some T →
  sessionToThread (handleSessionIdle env cwd S w).2 = sessionToThread w
  ∧ threadToSession (handleSessionIdle env cwd S w).2 = threadToSession w.
Proof.
  unfold getThread. intros HT Hbound. unfold handleSessionIdle. run.
  destruct (bool_decide (S ∈ discordInitiatedSessions w)); [done|]. run.
  destruct (session_messages env) as [messages|]; run; [|done].
  destruct (bool_decide (List.length messages = 0)); [done|].
  destruct (getLatestExchange messages) as [exchange|]; [|done]. run.
  match goal with
  | |- context [negb (JS.truthy ?u) && negb (JS.truthy ?a)] =>
      destruct (negb (JS.truthy u) && negb (JS.truthy a))
  end; [done|]. run.
  match goal with
  | |- context [negb (shouldPost ?l ?s ?u ?a)] =>
      destruct (negb (shouldPost l s u a))
  end; [done|]. run.
  rewrite Hbound, (truthy_nonempty T HT). run.
  match goal with
  | |- context [postToSyncThread ?e ?t ?u ?a ?w0] =>
      destruct (postToSyncThread_stores e t u a w0) as [Hstores _];
      destruct (postToSyncThread e t u a w0) as [[posted_| |] w1]
  end; simpl in *;
    rewrite stores_with_effect in Hstores;
    apply stores_registry in Hstores as (-> & -> & _); done.
Qed.

Lemma bind_once_bound (S T : jsstring) (b : bind_path) (w : world) :
  T ≠ [] →
  getThread w S = Some T →
  sessionToThread (bind_once S b w) = sessionToThread w
  ∧ threadToSession (bind_once S b w) = threadToSession w.
Proof.
  intros HT Hbound. destruct b as [env title directory|env cwd]; simpl.
  - by rewrite (syncSession_bound env S T).
  - by apply (handleSessionIdle_bound env cwd S T).
Qed.

Lemma bind_all_bound (S T : jsstring) (later : list bind_path) (w : world) :
  T ≠ [] →
  getThread w S = Some T →
  sessionToThread (bind_all S later w) = sessionToThread w
  ∧ threadToSession (bind_all S later w) = threadToSession w.
Proof.
  intros HT. revert w. unfold bind_all.
  induction later as [|b later IH]; intros w Hbound; simpl; [done|].
  destruct (bind_once_bound S T b w HT Hbound) as [Hfwd Hrev].
  destruct (IH (bind_once S b w)) as [Hfwd' Hrev'].
  - unfold getThread in *. by rewrite Hfwd.
  - split; congruence.
Qed.

Lemma createSyncThread_binds (env : platform) (S T title : jsstring)
    (directory : option jsstring) (w : world) :
  creates_thread env w T →
  let w' := (createSyncThread env S title directory w).2 in
  getThread w' S = Some T ∧ getSession w' T = Some S
  ∧ T ∈ subscribedThreads w'.
Proof.
  intros (Hchannel & Hsend & Hstart). unfold createSyncThread, ensureSyncChannel.
  unfold getThread, getSession.
  destruct (syncChannel w) as [channel|] eqn:Hw; run.
  - rewrite Hw, Hsend. run. rewrite Hstart. run. rewrite Hw. simpl.
    rewrite !lookup_insert_eq. split_and!; [done|done|].
    apply elem_of_union_l. by apply elem_of_singleton.
  - destruct Hchannel as [[? [=]]|[c ->]]. run. rewrite Hw. run.
    rewrite Hsend. run. rewrite Hstart. run.
    rewrite !lookup_insert_eq. split_and!; [done|done|].
    apply elem_of_union_l. by apply elem_of_singleton.
Qed.

Lemma syncSession_first_bind (env : platform) (S T : jsstring)
    (title directory : option jsstring) (w : world) :
  S ≠ [] →
  getThread w S = None →
  creates_thread env w T →
  getThread (bind_once S (BySyncSession env title directory) w) S = Some T.
Proof.
  intros HS Hfree Hcreates. simpl. unfold syncSession.
  run. rewrite (truthy_nonempty S HS). run.
  unfold getThread in Hfree. rewrite Hfree.
  pose proof (createSyncThread_binds env S T
                (or_else (default [] title) OPENCODE_SESSION) directory w Hcreates)
    as (Hfwd & _).
  simpl in Hfwd.
  destruct (createSyncThread env S _ directory w) as [[[t|]| |] w'];
    simpl in *; done.
Qed.

#[local] Arguments createSyncThread : simpl never.

(** [createSyncThread] leaves the forward map alone, or binds the session
    to the thread the platform has just started. *)
Lemma createSyncThread_forward (env : platform) (S title : jsstring)
    (directory : option jsstring) (w : world) :
  sessionToThread (createSyncThread env S title directory w).2 = sessionToThread w
  ∨ ∃ id, start_thread env = Some id
          ∧ sessionToThread (createSyncThread env S title directory w).2
            = <[S := id]> (sessionToThread w).
Proof.
  unfold createSyncThread, ensureSyncChannel.
  destruct (syncChannel w) as [channel|] eqn:Hw; run.
  - rewrite Hw.
    destruct (starter_send env), (start_thread env) as [id|];
      run; rewrite ?Hw; run; try (by left).
    right. by exists id.
  - destruct (ensure_channel env), (starter_send env),
      (start_thread env) as [id|];
      run; rewrite ?Hw; run; try (by left);
      right; by exists id.
Qed.

(** Split on the outcome of the post in the goal; it changed no map. *)
Ltac post_frame :=
  match goal with
  | |- context [postToSyncThread ?e ?t ?u ?a ?w0] =>
      let Hstores := fresh "Hstores" in
      destruct (postToSyncThread_stores e t u a w0) as [Hstores _];
      destruct (postToSyncThread e t u a w0) as [[?| |] ?];
      simpl in *;
      apply stores_registry in Hstores as (Hstores & _ & _);
      rewrite ?Hstores
  end.

Lemma handleSessionIdle_forward (env : platform) (cwd S : jsstring) (w : world) :
  sessionToThread (handleSessionIdle env cwd S w).2 = sessionToThread w
  ∨ ∃ id, start_thread env = Some id
          ∧ sessionToThread (handleSessionIdle env cwd S w).2
            = <[S := id]> (sessionToThread w).
Proof.
  unfold handleSessionIdle. run.
  destruct (bool_decide (S ∈ discordInitiatedSessions w)); [by left|]. run.
  destruct (session_messages env) as [messages|]; run; [|by left].
  destruct (bool_decide (List.length messages = 0)); [by left|].
  destruct (getLatestExchange messages) as [exchange|]; [|by left]. run.
  match goal with
  | |- context [negb (JS.truthy ?u) && negb (JS.truthy ?a)] =>
      destruct (negb (JS.truthy u) && negb (JS.truthy a))
  end; [by left|]. run.
  match goal with
  | |- context [negb (shouldPost ?l ?s ?u ?a)] =>
      destruct (negb (shouldPost l s u a))
  end; [by left|]. run.
  destruct (negb (JS.truthy (sessionToThread w !! S))); run.
  - match goal with
    | |- context [createSyncThread ?e ?s ?t ?d ?w0] =>
        pose proof (createSyncThread_forward e s t d w0) as Hcreated;
        destruct (createSyncThread e s t d w0) as [[[created|]| |] w1]
    end; simpl in *; try exact Hcreated.
    post_frame; exact Hcreated.
  - destruct (sessionToThread w !! S) as [threadId|]; [|by left].
    post_frame; by left.
Qed.

Lemma bind_once_forward (S : jsstring) (b : bind_path) (w : world) :
  sessionToThread (bind_once S b w) = sessionToThread w
  ∨ ∃ id, start_thread (bind_env b) = Some id
          ∧ sessionToThread (bind_once S b w) = <[S := id]> (sessionToThread w).
Proof.
  destruct b as [env title directory|env cwd]; simpl.
  - unfold syncSession. run.
    destruct (negb (JS.truthy (Some S))); run; [by left|].
    destruct (sessionToThread w !! S) as [existing|]; run; [by left|].
    match goal with
    | |- context [createSyncThread ?e ?s ?t ?d ?w0] =>
        pose proof (createSyncThread_forward e s t d w0) as Hcreated;
        destruct (createSyncThread e s t d w0) as [[[created|]| |] w1]
    end; simpl in *; exact Hcreated.
  - apply handleSessionIdle_forward.
Qed.

(** Once the handler has a thread to post into, the exchange goes to the
    ledger whatever the post returned. *)
Lemma handleSessionIdle_records (env : platform) (cwd S T : jsstring)
    (messages : list message) (found : exchange) (w : world) :
  S ∉ discordInitiatedSessions w →
  session_messages env = Some messages →
  messages ≠ [] →
  getLatestExchange messages = Some found →
  let u := extractMessageContent (userMessage found) in
  let a := extractMessageContent (assistantMessage found) in
  u ≠ [] →
  shouldPost (lastPostedContent w) S u a = true →
  getThread w S = Some T → T ≠ [] →
  lastPostedContent (handleSessionIdle env cwd S w).2
  = record S u a (lastPostedContent w).
Proof.
  unfold getThread. intros Hout Hmessages Hne Hfound Hu Hnew Hbound HT.
  unfold handleSessionIdle. run.
  rewrite (bool_decide_eq_false_2 _ Hout). run.
  rewrite Hmessages. run.
  rewrite bool_decide_eq_false_2 by (by destruct messages).
  rewrite Hfound. run.
  rewrite (truthy_nonempty _ Hu). run.
  rewrite Hnew. run.
  rewrite Hbound, (truthy_nonempty T HT). run.
  match goal with
  | |- context [postToSyncThread ?e ?t ?x ?y ?w0] =>
      destruct (postToSyncThread_stores e t x y w0) as [Hstores _];
      destruct (postToSyncThread_returns e t x y w0) as [posted_ Hret];
      destruct (postToSyncThread e t x y w0) as [r w1]
  end; simpl in *. subst r. simpl.
  rewrite stores_with_effect in Hstores.
  apply stores_registry in Hstores as (_ & _ & ->). done.
Qed.

(** C1, amended.  For binds that follow one another: when a bind of an
    unbound session leaves it bound, it is bound to the thread the
    platform started during that bind; whatever binds of the same session
    follow, each starting when the one before it has returned and each
    with its own thread on offer, [getThread] keeps returning that first
    thread and both maps of the registry are as the first bind left them.
    (Thread ids are the platform's, never the empty string.) *)
Theorem registry_first_bind_wins
    (S T : jsstring) (first : bind_path) (later : list bind_path) (w : world) :
  T ≠ [] →
  getThread w S = None →
  getThread (bind_once S first w) S = Some T →
  let w1 := bind_once S first w in
  let wn := bind_all S later w1 in
  start_thread (bind_env first) = Some T
  ∧ getThread wn S = Some T
  ∧ sessionToThread wn = sessionToThread w1
  ∧ threadToSession wn = threadToSession w1.
Proof.
  intros HT Hfree Hfirst w1 wn.
  destruct (bind_all_bound S T later w1 HT Hfirst) as [Hfwd Hrev].
  split_and!; [|by unfold getThread, wn; rewrite Hfwd|done|done].
  unfold getThread in *.
  destruct (bind_once_forward S first w) as [Hsame|(id & Hid & Hnew)].
  - rewrite Hsame in Hfirst. congruence.
  - rewrite Hnew, lookup_insert_eq in Hfirst. congruence.
Qed.

End RegistryBind.

Section Scenarios.

Lemma registry_first_bind_wins_witness :
  let first := BySyncSession (healthy [] "1001") None None in
  let later := [BySyncSession (healthy [] "1002") None None;
                BySessionIdle (healthy fix_the_bug "1003") home] in
  let w1 := bind_once abc123 first initial_world in
  JS.lit "1001" ≠ []
  ∧ getThread initial_world abc123 = None
  ∧ getThread w1 abc123 = Some (JS.lit "1001")
  ∧ getThread (bind_all abc123 later w1) abc123 = Some (JS.lit "1001").
Proof.
  intros first later w1.
  assert (Hfirst : getThread w1 abc123 = Some (JS.lit "1001"))
    by (vm_compute; reflexivity).
  split_and!; [discriminate|reflexivity|exact Hfirst|].
  apply (registry_first_bind_wins abc123 (JS.lit "1001") first later
           initial_world);
    [discriminate|reflexivity|exact Hfirst].
Defined.

(** The end-to-end scenario of the specification: the first idle event
    creates the thread, posts the two labelled messages and fills the
    ledger; the same event again changes nothing but the log of the
    message fetch. *)
Example idle_event_mirrors_once :
  let w1 := (handleSessionIdle (healthy fix_the_bug "1001") home abc123
               initial_world).2 in
  let w2 := (handleSessionIdle (healthy fix_the_bug "1002") home abc123 w1).2 in
  trace w1
  = [SessionMessages abc123; EnsureSyncChannel;
     ChannelSend (JS.lit "opencode-sync") (JS.lit "fix the bug");
     StartThread (JS.lit "fix the bug") abc123;
     ChannelsFetch (JS.lit "1001");
     ThreadSend (JS.lit "1001") (USER_LABEL ++ JS.lit "fix the bug");
     ThreadSend (JS.lit "1001") (ASSISTANT_LABEL ++ JS.lit "fixed it in main.go")]
  ∧ getThread w1 abc123 = Some (JS.lit "1001")
  ∧ lastPostedContent w1 !! abc123
    = Some {| userContent := JS.lit "fix the bug";
              assistantContent := JS.lit "fixed it in main.go" |}
  ∧ trace w2 = trace w1 ++ [SessionMessages abc123]
  ∧ stores w2 = stores w1.
Proof. split_and!; vm_compute; reflexivity. Qed.

(** [createSyncThread] itself does not look at the registry: called for a
    bound session it binds the new thread. *)
Example createSyncThread_overwrites :
  let w1 := bound_world abc123 (JS.lit "1001") in
  let w2 := (createSyncThread (healthy [] "1002") abc123 (JS.lit "again")
               None w1).2 in
  getThread w1 abc123 = Some (JS.lit "1001")
  ∧ getThread w2 abc123 = Some (JS.lit "1002").
Proof. split_and!; vm_compute; reflexivity. Qed.

(** *** Binds that overlap *)

Section Overlap.

#[local] Arguments createSyncThread : simpl never.
#[local] Arguments createSyncThread_start : simpl never.
#[local] Arguments JS.truthy : simpl never.

(** The two halves of [createSyncThread], one after the other, are the
    function. *)
Lemma createSyncThread_split (env : platform) (S title : jsstring)
    (directory : option jsstring) (w : world) :
  createSyncThread env S title directory w
  = (started ← createSyncThread_start env S title directory;
     createSyncThread_store S started) w.
Proof.
  unfold createSyncThread, createSyncThread_start, ensureSyncChannel.
  destruct (syncChannel w) as [channel|] eqn:Hw;
    destruct (ensure_channel env) as [| |c];
    destruct (starter_send env);
    destruct (start_thread env) as [id|];
    run; rewrite ?Hw; run; done.
Qed.

(** The two halves of the handler, one after the other, are the handler:
    a request that is not overlapped by another is served as [syncSession]
    serves it. *)
Lemma syncSession_split (env : platform) (request : option session_request)
    (w : world) :
  syncSession env request w
  = (pending ← syncSession_start env request; syncSession_resume pending) w.
Proof.
  unfold syncSession, syncSession_start.
  destruct request as [[[S|] title directory]|]; run; try done.
  destruct (JS.truthy (Some S)); run; [|done].
  destruct (sessionToThread w !! S) as [T|]; run; [done|].
  rewrite createSyncThread_split. run.
  by destruct (createSyncThread_start env S
                 (or_else (default [] title) OPENCODE_SESSION) directory w)
    as [[[t|]| |] w1].
Qed.

End Overlap.

(** C1, as stated, fails.  Two requests to bind the session [abc123]
    overlap: the second is checked while the first awaits its thread, and
    finds the session unbound.  The first binds thread 1001, the second
    then binds thread 1002 over it: both are answered with a new thread,
    and [getThread] returns the thread of the second bind, while thread
    1001 still resolves to the session.  The same two requests one after
    the other leave thread 1001 bound. *)
Lemma overlapping_binds_last_wins :
  let request := Some {| req_sessionId := Some abc123;
                         req_title := Some (JS.lit "Fix the bug");
                         req_directory := Some home |} in
  let first := healthy [] "1001" in
  let second := healthy [] "1002" in
  let overlapped := overlapping_syncSessions first second request request
                      initial_world in
  let in_turn := bind_all abc123
                   [BySyncSession first (Some (JS.lit "Fix the bug")) (Some home);
                    BySyncSession second (Some (JS.lit "Fix the bug")) (Some home)]
                   initial_world in
  overlapped.1
  = Ok ({| status := 200; body := ThreadBody (JS.lit "1001") false |},
        {| status := 200; body := ThreadBody (JS.lit "1002") false |})
  ∧ getThread overlapped.2 abc123 = Some (JS.lit "1002")
  ∧ getThread overlapped.2 abc123 ≠ Some (JS.lit "1001")
  ∧ getSession overlapped.2 (JS.lit "1001") = Some abc123
  ∧ getThread in_turn abc123 = Some (JS.lit "1001").
Proof. split_and!; vm_compute; first [reflexivity | discriminate]. Qed.

(** C2, the code at the failing input.  Session [abc123] is bound to
    thread 1001 and has a new exchange, and the thread cannot be fetched:
    the post fails before anything is sent, yet the ledger now holds the
    exchange, and the next idle event with the same content, on a platform
    that works again, is suppressed as a duplicate. *)
Theorem failed_post_is_recorded :
  let w0 := bound_world abc123 (JS.lit "1001") in
  let w1 := (handleSessionIdle (unreachable_thread fix_the_bug) home abc123 w0).2 in
  let w2 := (handleSessionIdle (healthy fix_the_bug "1002") home abc123 w1).2 in
  (postToSyncThread (unreachable_thread fix_the_bug) (JS.lit "1001")
     (JS.lit "fix the bug") (JS.lit "fixed it in main.go") w0).1 = Ok false
  ∧ trace w1 = [SessionMessages abc123; ChannelsFetch (JS.lit "1001")]
  ∧ lastPostedContent w0 !! abc123 = None
  ∧ lastPostedContent w1 !! abc123
    = Some {| userContent := JS.lit "fix the bug";
              assistantContent := JS.lit "fixed it in main.go" |}
  ∧ trace w2 = trace w1 ++ [SessionMessages abc123].
Proof. split_and!; vm_compute; reflexivity. Qed.

End Scenarios.

(** ** The model menu *)

Section Pagination.

(** C9.  With 47 candidates, page 2 shows the 7 candidates at the global
    indices 40 to 46, in a row of five and a row of two; the control at
    local offset [j] carries the index [2 * 20 + j] and the candidate at
    that index, and the same pairs are stored for the later selection;
    the navigation row holds the previous-page control, and no control
    leads to a next page. *)
Theorem renderModelsPage_last_page (models : list model) (currentModel : jsstring) :
  List.length models = 47 →
  let shown :=
    imap (λ j m, model_button (2 * 20 + Z.of_nat j) m
                   (bool_decide (model_id m = currentModel)))
      (drop 40 models) in
  let rows := [take 5 shown; drop 5 shown; [previous_button 2]] in
  renderModelsPage models currentModel 2
  = Some {| components := rows;
            stored := list_to_map
                        (imap (λ j m, ((2 * 20 + Z.of_nat j)%Z, m))
                           (drop 40 models)) |}
  ∧ List.length shown = 7
  ∧ Forall (Forall (λ b, customId b ≠ customId (next_button 2))) rows.
Proof.
  intros Hlen.
  do 47 (destruct models as [|? models]; [discriminate Hlen|]).
  destruct models; [|discriminate Hlen].
  split_and!; [vm_compute; reflexivity|reflexivity|].
  vm_compute.
  repeat (apply Forall_cons; split); try apply Forall_nil;
    first [discriminate | exact I].
Qed.

Lemma renderModelsPage_last_page_witness :
  let models := numbered_model <$> seq 0 47 in
  List.length models = 47
  ∧ map (map customId)
      (default [] (components <$> renderModelsPage models (JS.lit "provider/model-41") 2))
    = [[JS.lit "model_40"; JS.lit "model_41"; JS.lit "model_42";
        JS.lit "model_43"; JS.lit "model_44"];
       [JS.lit "model_45"; JS.lit "model_46"];
       [JS.lit "models_page_1"]].
Proof.
  intros models.
  destruct (renderModelsPage_last_page models (JS.lit "provider/model-41"))
    as (Hview & _); [reflexivity|].
  split; [reflexivity|]. rewrite Hview. vm_compute. reflexivity.
Defined.

End Pagination.

(** * Further properties *)

(** ** splitMessage: what the segments hold *)

Section SplitMessageContent.

Lemma trimStart_decompose (s : jsstring) :
  ∃ ws, s = ws ++ JS.trimStart s ∧ Forall (λ c, JS.is_white_space c = true) ws.
Proof.
  induction s as [|c s (ws & Hs & Hws)]; simpl.
  - by exists [].
  - destruct (JS.is_white_space c) eqn:Hc.
    + exists (c :: ws). split; [by rewrite Hs at 1|]. by constructor.
    + by exists [].
Qed.

Lemma trimEnd_decompose (s : jsstring) :
  ∃ ws, s = JS.trimEnd s ++ ws ∧ Forall (λ c, JS.is_white_space c = true) ws.
Proof.
  unfold JS.trimEnd.
  destruct (trimStart_decompose (rev s)) as (ws & Hs & Hws).
  exists (rev ws). split.
  - rewrite <- rev_app_distr, <- Hs. by rewrite rev_involutive.
  - apply Forall_forall. intros c Hc. rewrite Forall_forall in Hws.
    apply Hws. by apply list_elem_of_In, in_rev, list_elem_of_In.
Qed.

(** [trim] removes white space from the two ends and nothing else. *)
Lemma trim_decompose (s : jsstring) :
  ∃ l r, s = l ++ JS.trim s ++ r
         ∧ Forall (λ c, JS.is_white_space c = true) l
         ∧ Forall (λ c, JS.is_white_space c = true) r.
Proof.
  unfold JS.trim.
  destruct (trimStart_decompose s) as (l & Hl & Hwl).
  destruct (trimEnd_decompose (JS.trimStart s)) as (r & Hr & Hwr).
  exists l, r. split; [|done]. by rewrite <- Hr.
Qed.

Lemma non_white_of_white (ws : jsstring) :
  Forall (λ c, JS.is_white_space c = true) ws → non_white ws = [].
Proof.
  unfold non_white. induction 1 as [|c ws Hc _ IH]; [done|].
  rewrite filter_cons_False; [done|]. by rewrite Hc.
Qed.

Lemma non_white_app (s t : jsstring) :
  non_white (s ++ t) = non_white s ++ non_white t.
Proof. apply filter_app. Qed.

Lemma non_white_trim (s : jsstring) : non_white (JS.trim s) = non_white s.
Proof.
  destruct (trim_decompose s) as (l & r & Hs & Hl & Hr).
  rewrite Hs at 2. rewrite !non_white_app.
  by rewrite (non_white_of_white l), (non_white_of_white r), app_nil_r.
Qed.

Lemma trim_sublist (s : jsstring) : JS.trim s `sublist_of` s.
Proof.
  destruct (trim_decompose s) as (l & r & Hs & _).
  rewrite Hs at 2. by apply sublist_inserts_l, sublist_inserts_r.
Qed.

Lemma solid_trim (s : jsstring) : solid s → JS.trim s = s.
Proof.
  intros Hsolid. destruct (trim_decompose s) as (l & r & Hs & Hl & Hr).
  assert (Hnil : ∀ ws, Forall (λ c, JS.is_white_space c = true) ws →
                       solid ws → ws = []).
  { intros [|c ws] Hw Hn; [done|].
    apply Forall_cons in Hw as [Hw _]. apply Forall_cons in Hn as [Hn _].
    congruence. }
  unfold solid in Hsolid. rewrite Hs in Hsolid.
  apply Forall_app in Hsolid as [Hsl Hsolid].
  apply Forall_app in Hsolid as [_ Hsr].
  rewrite (Hnil l Hl Hsl), (Hnil r Hr Hsr) in Hs.
  simpl in Hs. by rewrite app_nil_r in Hs.
Qed.

Lemma solid_none_in_upper_half (s : jsstring) (c : N) (limit : Z) :
  solid s → JS.is_white_space c = true → none_in_upper_half s c limit.
Proof.
  intros Hsolid Hc j _ _ Hj.
  apply list_elem_of_lookup_2 in Hj.
  unfold solid in Hsolid. rewrite Forall_forall in Hsolid.
  specialize (Hsolid c Hj). congruence.
Qed.

(** What the loop does to the text it is given. *)
Lemma splitMessage_loop_content (maxLength : Z) :
  (1 ≤ maxLength)%Z →
  ∀ fuel remaining parts result,
    splitMessage_loop fuel maxLength remaining parts = Some result →
    ∃ out,
      result = parts ++ out
      ∧ concat out `sublist_of` remaining
      ∧ non_white (concat out) = non_white remaining
      ∧ (maxLength * Z.of_nat (List.length out)
         ≤ 2 * JS.len remaining + maxLength)%Z
      ∧ (solid remaining →
         concat out = remaining
         ∧ ∀ i p, out !! i = Some p → S i < List.length out →
                  JS.len p = maxLength).
Proof.
  intros Hm. induction fuel as [|fuel IH]; intros remaining parts result;
    [discriminate|].
  simpl. unfold JS.len in *.
  destruct (Z.ltb_spec 0 (Z.of_nat (List.length remaining))) as [Hpos|Hzero].
  - destruct (Z.leb_spec (Z.of_nat (List.length remaining)) maxLength) as [Hle|Hgt].
    + intros [= <-]. exists [remaining]. simpl. rewrite app_nil_r.
      split_and!; [done|done|done|lia|].
      intros _. split; [done|]. intros i p _ Hi. simpl in Hi. lia.
    + pose proof (chooseSplitIndex_range remaining maxLength Hm) as [Hlo Hhi].
      set (k := chooseSplitIndex remaining maxLength) in *.
      rewrite slice_prefix, slice_from_suffix by lia.
      intros Hrun. apply IH in Hrun as (out & -> & Hsub & Hnw & Hcount & Hsolid).
      exists (take (Z.to_nat k) remaining :: out).
      rewrite <- app_assoc. simpl.
      pose proof (trim_length (drop (Z.to_nat k) remaining)) as Htrim.
      rewrite length_drop in Htrim.
      split_and!; [done| | | |].
      * rewrite <- (take_drop (Z.to_nat k) remaining) at 2.
        apply sublist_app; [done|]. etrans; [exact Hsub|apply trim_sublist].
      * rewrite non_white_app, Hnw, non_white_trim, <- non_white_app.
        by rewrite take_drop.
      * lia.
      * intros Hrem.
        assert (Hdrop : solid (drop (Z.to_nat k) remaining)).
        { unfold solid in *. rewrite <- (take_drop (Z.to_nat k) remaining) in Hrem.
          by apply Forall_app in Hrem as [_ ?]. }
        rewrite (solid_trim _ Hdrop) in Hsolid.
        destruct (Hsolid Hdrop) as [Hconcat Hfull].
        split; [by rewrite Hconcat, take_drop|].
        intros [|i] p Hp Hi; simpl in *.
        -- injection Hp as <-. rewrite length_take.
           assert (k = maxLength) as ->; [|lia].
           subst k. apply chooseSplitIndex_forced; [done|..];
             by apply solid_none_in_upper_half.
        -- apply (Hfull i p Hp). lia.
  - intros [= <-]. exists []. rewrite app_nil_r. simpl.
    assert (remaining = []) as -> by (destruct remaining; [done|simpl in Hzero; lia]).
    split_and!; [done|done|done|simpl; lia|].
    intros _. split; [done|]. intros i p Hp. done.
Qed.

Lemma splitMessage_content (text : jsstring) (maxLength : Z) (parts : list jsstring) :
  (1 ≤ maxLength)%Z →
  splitMessage text maxLength = Some parts →
  concat parts `sublist_of` text
  ∧ non_white (concat parts) = non_white text
  ∧ (maxLength * Z.of_nat (List.length parts) ≤ 2 * JS.len text + maxLength)%Z
  ∧ (solid text →
     concat parts = text
     ∧ ∀ i p, parts !! i = Some p → S i < List.length parts →
              JS.len p = maxLength).
Proof.
  intros Hm. unfold splitMessage, splitMessage_fuel.
  destruct (Z.leb_spec (JS.len text) maxLength) as [Hle|Hgt].
  - intros [= <-]. simpl. rewrite app_nil_r.
    pose proof (len_nonneg text).
    split_and!; [done|done|lia|].
    intros _. split; [done|]. intros i p _ Hi. simpl in Hi. lia.
  - intros Hrun.
    apply (splitMessage_loop_content maxLength Hm) in Hrun
      as (out & -> & Hsub & Hnw & Hcount & Hsolid).
    done.
Qed.

(** X1.  Splitting loses only white space: for a limit of at least 1
    [splitMessage] returns, and the segments, put end to end, are the text
    with some code units left out, every code unit that is not white
    space still there, in order. *)
Theorem splitMessage_loses_only_white_space (text : jsstring) (maxLength : Z) :
  (1 ≤ maxLength)%Z →
  ∃ parts,
    splitMessage text maxLength = Some parts
    ∧ concat parts `sublist_of` text
    ∧ non_white (concat parts) = non_white text.
Proof.
  intros Hm.
  destruct (splitMessage_returns text maxLength Hm) as (parts & Hrun & _).
  destruct (splitMessage_content text maxLength parts Hm Hrun) as (? & ? & _).
  by exists parts.
Qed.

Lemma splitMessage_loses_only_white_space_witness :
  (1 ≤ 6)%Z
  ∧ ∃ parts,
      splitMessage (JS.lit "aaaa bbbb cccc") 6 = Some parts
      ∧ non_white (concat parts) = non_white (JS.lit "aaaa bbbb cccc").
Proof.
  split; [lia|].
  destruct (splitMessage_loses_only_white_space (JS.lit "aaaa bbbb cccc") 6)
    as (parts & Hrun & _ & Hkept); [lia|].
  exists parts. split; assumption.
Defined.



(** X3.  For a limit of at least 1 [splitMessage] returns, and the number
    of its segments is bounded by the length of the text: it is at most
    twice the length over the limit, plus one, since every pass of the
    loop but the last takes at least half the limit off the text. *)
Theorem splitMessage_segment_count (text : jsstring) (maxLength : Z) :
  (1 ≤ maxLength)%Z →
  ∃ parts,
    splitMessage text maxLength = Some parts
    ∧ (maxLength * Z.of_nat (List.length parts)
       ≤ 2 * JS.len text + maxLength)%Z.
Proof.
  intros Hm.
  destruct (splitMessage_returns text maxLength Hm) as (parts & Hrun & _).
  destruct (splitMessage_content text maxLength parts Hm Hrun)
    as (_ & _ & Hcount & _).
  by exists parts.
Qed.

Lemma splitMessage_segment_count_witness :
  (1 ≤ 6)%Z
  ∧ ∃ parts,
      splitMessage (JS.lit "aaaa bbbb cccc") 6 = Some parts
      ∧ (6 * Z.of_nat (List.length parts) ≤ 2 * 14 + 6)%Z.
Proof.
  split; [lia|].
  destruct (splitMessage_segment_count (JS.lit "aaaa bbbb cccc") 6)
    as (parts & Hrun & Hcount); [lia|].
  exists parts. split; assumption.
Defined.

End SplitMessageContent.

(** ** The exchange extractor: the full picture *)

Section ExtractorComplete.

Lemma assistant_is_not_user : Some ASSISTANT ≠ Some USER.
Proof. vm_compute. discriminate. Qed.

(** After the assistant message: the scan stops at the first user message
    it meets, or runs out. *)
Lemma getLatestExchange_loop_after (visited : list message) (i la : Z) :
  la ≠ (-1)%Z →
  (Forall (λ m, ¬ is_user m) visited
   ∧ getLatestExchange_loop visited i la = ((-1)%Z, la))
  ∨ (∃ mid u pre,
       visited = mid ++ u :: pre
       ∧ Forall (λ m, ¬ is_user m) mid ∧ is_user u
       ∧ getLatestExchange_loop visited i la
         = ((i - Z.of_nat (List.length mid))%Z, la)).
Proof.
  intros Hla. apply Z.eqb_neq in Hla as Hneq.
  revert i. induction visited as [|m visited IH]; intros i.
  - left. by split.
  - simpl. rewrite Hneq, andb_false_r, Hneq. simpl.
    destruct (decide (is_user m)) as [Hm|Hm].
    + right. exists [], m, visited.
      rewrite (bool_decide_eq_true_2 _ Hm). simpl.
      split_and!; [done|done|done|]. f_equal; lia.
    + rewrite (bool_decide_eq_false_2 _ Hm). simpl.
      destruct (IH (i - 1)%Z) as [[Hno Hrun]|(mid & u & pre & -> & Hmid & Hu & Hrun)].
      * left. split; [by constructor|done].
      * right. exists (m :: mid), u, pre.
        split_and!; [done|by constructor|done|].
        rewrite Hrun. simpl. f_equal; lia.
Qed.

(** Before it: the scan looks for the last assistant message. *)
Lemma getLatestExchange_loop_before (visited : list message) (i : Z) :
  (Z.of_nat (List.length visited) ≤ i + 1)%Z →
  (Forall (λ m, ¬ is_assistant m) visited
   ∧ getLatestExchange_loop visited i (-1) = ((-1)%Z, (-1)%Z))
  ∨ (∃ post a rest,
       visited = post ++ a :: rest
       ∧ Forall (λ m, ¬ is_assistant m) post ∧ is_assistant a
       ∧ (0 ≤ i - Z.of_nat (List.length post))%Z
       ∧ getLatestExchange_loop visited i (-1)
         = getLatestExchange_loop rest (i - Z.of_nat (List.length post) - 1)
             (i - Z.of_nat (List.length post))).
Proof.
  revert i. induction visited as [|m visited IH]; intros i Hi.
  - left. by split.
  - simpl in Hi. destruct (decide (is_assistant m)) as [Hm|Hm].
    + right. exists [], m, visited. simpl.
      unfold is_assistant in Hm. rewrite Hm.
      rewrite (bool_decide_eq_true_2 (Some ASSISTANT = Some ASSISTANT)) by done.
      rewrite (bool_decide_eq_false_2 _ assistant_is_not_user). simpl.
      split_and!; [done|done|done|simpl; lia|]. simpl. f_equal; lia.
    + destruct (IH (i - 1)%Z) as [[Hno Hrun]|(post & a & rest & -> & Hpost & Ha & Hidx & Hrun)];
        [lia| |].
      * left. split; [by constructor|].
        simpl. rewrite (bool_decide_eq_false_2 _ Hm). simpl.
        by rewrite andb_false_r.
      * right. exists (m :: post), a, rest.
        split_and!; [done|by constructor|done|simpl; lia|].
        simpl. rewrite (bool_decide_eq_false_2 _ Hm). simpl.
        rewrite andb_false_r, Hrun. simpl. f_equal; lia.
Qed.

Lemma Forall_rev {A} (P : A → Prop) (l : list A) : Forall P (rev l) ↔ Forall P l.
Proof.
  rewrite !Forall_forall. split; intros H x Hx; apply H;
    apply list_elem_of_In; apply list_elem_of_In in Hx;
    [by apply in_rev in Hx|by apply in_rev].
Qed.

Lemma lookup_second_middle {A} (l1 l2 l3 : list A) (x y : A) (n : nat) :
  n = List.length l1 + 1 + List.length l2 →
  (l1 ++ x :: l2 ++ y :: l3) !! n = Some y.
Proof.
  intros ->. rewrite (app_comm_cons l2), app_assoc.
  apply list_lookup_middle. rewrite length_app. simpl. lia.
Qed.

(** X4.  [getLatestExchange] returns a pair exactly when the list holds an
    assistant message with a user message somewhere before it; the pair
    is then the last assistant message of the list and the nearest user
    message before it, whatever comes between them or after them. *)
Theorem getLatestExchange_characterised (messages : list message) (found : exchange) :
  getLatestExchange messages = Some found
  ↔ ∃ pre u mid a post,
      messages = pre ++ u :: mid ++ a :: post
      ∧ is_user u ∧ is_assistant a
      ∧ Forall (λ m, ¬ is_user m) mid
      ∧ Forall (λ m, ¬ is_assistant m) post
      ∧ found = {| userMessage := Some u; assistantMessage := Some a |}.
Proof.
  unfold getLatestExchange. split.
  - destruct (getLatestExchange_loop_before (rev messages)
                (Z.of_nat (List.length messages) - 1))
      as [[_ ->]|(post & a & rest & Hrev & Hpost & Ha & Hidx & ->)];
      [rewrite length_rev; lia|done|].
    set (la := (Z.of_nat (List.length messages) - 1 - Z.of_nat (List.length post))%Z) in *.
    destruct (getLatestExchange_loop_after rest (la - 1) la)
      as [[_ ->]|(mid & u & pre & -> & Hmid & Hu & ->)]; [lia|done|].
    apply (f_equal (@rev message)) in Hrev. rewrite rev_involutive in Hrev.
    rewrite rev_app_distr in Hrev. simpl in Hrev.
    rewrite rev_app_distr in Hrev. simpl in Hrev.
    rewrite <- !app_assoc in Hrev. simpl in Hrev.
    assert (Hlen : List.length messages
                   = List.length pre + 1 + List.length mid + 1 + List.length post).
    { rewrite Hrev. rewrite !length_app. simpl. rewrite !length_app. simpl.
      rewrite !length_rev. lia. }
    destruct (Z.eqb_spec (la - 1 - Z.of_nat (List.length mid)) (-1)) as [|_];
      [lia|].
    destruct (Z.eqb_spec la (-1)) as [|_]; [lia|]. simpl.
    intros [= <-]. exists (rev pre), u, (rev mid), a, (rev post).
    split_and!; [done|done|done|by apply Forall_rev|by apply Forall_rev|].
    f_equal.
    + rewrite Hrev. apply list_lookup_middle. rewrite length_rev. lia.
    + rewrite Hrev. apply lookup_second_middle. rewrite !length_rev. lia.
  - intros (pre & u & mid & a & post & -> & Hu & Ha & Hmid & Hpost & ->).
    rewrite rev_app_distr. simpl. rewrite rev_app_distr. simpl.
    rewrite <- !app_assoc. simpl.
    rewrite getLatestExchange_loop_skip by (by apply Forall_rev).
    simpl. unfold is_assistant in Ha. rewrite Ha.
    rewrite (bool_decide_eq_true_2 (Some ASSISTANT = Some ASSISTANT)) by done.
    rewrite (bool_decide_eq_false_2 _ assistant_is_not_user). simpl.
    rewrite !length_app, length_rev. simpl. rewrite !length_app. simpl.
    set (la := (Z.of_nat (List.length pre + S (List.length mid + S (List.length post))) - 1
                - Z.of_nat (List.length post))%Z).
    destruct (getLatestExchange_loop_after (rev mid ++ u :: rev pre) (la - 1) la)
      as [[Hno _]|(mid' & u' & pre' & Heq & Hmid' & Hu' & ->)]; [lia| |].
    { exfalso. apply Forall_app in Hno as [_ Hno].
      apply Forall_cons in Hno as [Hno _]. by apply Hno. }
    assert (mid' = rev mid ∧ u' = u) as [-> ->].
    { apply Forall_rev in Hmid.
      clear -Heq Hmid Hmid' Hu Hu'. revert mid' Heq Hmid'.
      induction Hmid as [|m l Hm _ IH]; intros [|m' l'] Heq Hmid'; simpl in *.
      - by injection Heq as -> _.
      - injection Heq as -> _. apply Forall_cons in Hmid' as [Hm' _]. done.
      - injection Heq as <- _. done.
      - injection Heq as <- Heq. apply Forall_cons in Hmid' as [_ Hmid'].
        destruct (IH l' Heq Hmid') as [-> ->]. done. }
    rewrite length_rev.
    destruct (Z.eqb_spec (la - 1 - Z.of_nat (List.length mid)) (-1)) as [|_];
      [lia|].
    destruct (Z.eqb_spec la (-1)) as [|_]; [lia|]. simpl.
    f_equal. f_equal.
    + apply list_lookup_middle. lia.
    + apply lookup_second_middle. lia.
Qed.

End ExtractorComplete.

(** ** Message texts *)

Section MessageContent.

Lemma trimStart_head (s : jsstring) (c : N) :
  head (JS.trimStart s) = Some c → JS.is_white_space c = false.
Proof.
  induction s as [|x s IH]; simpl; [done|].
  destruct (JS.is_white_space x) eqn:Hx; [done|].
  simpl. by intros [= <-].
Qed.

Lemma last_rev_head {A} (l : list A) : last (rev l) = head l.
Proof. destruct l as [|x l]; [done|]. simpl. apply last_snoc. Qed.

Lemma trimEnd_last (s : jsstring) (c : N) :
  last (JS.trimEnd s) = Some c → JS.is_white_space c = false.
Proof. unfold JS.trimEnd. rewrite last_rev_head. apply trimStart_head. Qed.

Lemma trimEnd_head (s : jsstring) (c : N) :
  head (JS.trimEnd s) = Some c → head s = Some c.
Proof.
  destruct (trimEnd_decompose s) as (ws & Hs & _).
  destruct (JS.trimEnd s) as [|x t]; [done|].
  rewrite Hs. done.
Qed.

(** [trim] leaves no white space at either end. *)
Lemma trim_ends (s : jsstring) (c : N) :
  head (JS.trim s) = Some c ∨ last (JS.trim s) = Some c →
  JS.is_white_space c = false.
Proof.
  unfold JS.trim. intros [Hhead|Hlast].
  - apply trimEnd_head in Hhead. by apply trimStart_head in Hhead.
  - by apply trimEnd_last in Hlast.
Qed.

Lemma extract_fold (parts : list part) (content : jsstring) :
  foldl (λ content p,
           if bool_decide (part_type p = Some (JS.lit "text"))
           then content ++ default [] (JS.or (part_text p) (Some []))
           else content)
        content parts
  = content ++ text_of_parts parts.
Proof.
  unfold text_of_parts. revert content.
  induction parts as [|p parts IH]; intros content; simpl.
  - by rewrite app_nil_r.
  - rewrite IH. destruct (decide (part_type p = Some (JS.lit "text"))) as [Hp|Hp].
    + rewrite (bool_decide_eq_true_2 _ Hp), filter_cons_True by done.
      simpl. rewrite <- app_assoc. do 2 f_equal.
      by destruct (part_text p) as [[|c t]|].
    + by rewrite (bool_decide_eq_false_2 _ Hp), filter_cons_False by done.
Qed.

(** X5.  The text of a message is the texts of its [text] parts, in
    order and with nothing between them, trimmed: parts of other types
    contribute nothing, and the result has no white space at either end.
    A null message, or one without parts, has the empty text. *)
Theorem extractMessageContent_trimmed_text :
  extractMessageContent None = []
  ∧ (∀ m, extractMessageContent (Some m)
          = JS.trim (text_of_parts (default [] (msg_parts m))))
  ∧ (∀ message c,
       head (extractMessageContent message) = Some c
       ∨ last (extractMessageContent message) = Some c →
       JS.is_white_space c = false).
Proof.
  assert (Hmain : ∀ m, extractMessageContent (Some m)
                       = JS.trim (text_of_parts (default [] (msg_parts m)))).
  { intros m. unfold extractMessageContent.
    destruct (default [] (msg_parts m)) as [|p parts] eqn:Hparts; [done|].
    rewrite bool_decide_eq_false_2 by done.
    by rewrite extract_fold. }
  split_and!; [done|exact Hmain|].
  intros [m|] c; [|by intros [?|?]].
  rewrite Hmain. apply trim_ends.
Qed.

Lemma extractMessageContent_trimmed_text_witness :
  let m := {| msg_role := Some USER; msg_info := None;
              msg_parts := Some [{| part_type := Some (JS.lit "text");
                                    part_text := Some (JS.lit "  fix ") |};
                                 {| part_type := Some (JS.lit "file");
                                    part_text := Some (JS.lit "main.go") |};
                                 {| part_type := Some (JS.lit "text");
                                    part_text := Some (JS.lit "the bug  ") |}] |} in
  extractMessageContent (Some m) = JS.lit "fix the bug"
  ∧ JS.is_white_space 102 = false.
Proof.
  intros m.
  destruct extractMessageContent_trimmed_text as (_ & Htext & Hends).
  split; [by rewrite Htext|].
  apply (Hends (Some m) 102%N). left. reflexivity.
Defined.

(** X6.  The plugin's copies of the extractor: its [extractMessageContent]
    gives the same text as the bot's for every message; its
    [getLatestExchange] gives the same pair as the bot's when every
    message carries its role at [msg.role], and finds nothing when no
    message does, also where the bot's, reading [msg.info.role], finds a
    pair. *)
Theorem plugin_extractor_agreement :
  (∀ message, plugin_extractMessageContent message = extractMessageContent message)
  ∧ (∀ messages, Forall role_at_top messages →
       plugin_getLatestExchange messages = getLatestExchange messages)
  ∧ (∀ messages, Forall (λ m, JS.truthy (msg_role m) = false) messages →
       plugin_getLatestExchange messages = None).
Proof.
  split_and!.
  - intros [m|]; [|done]. unfold plugin_extractMessageContent, extractMessageContent.
    destruct (msg_parts m) as [[|p parts]|]; done.
  - intros messages Hall.
    unfold plugin_getLatestExchange, getLatestExchange.
    assert (Hloop : ∀ visited i la, Forall role_at_top visited →
              plugin_getLatestExchange_loop visited i la
              = getLatestExchange_loop visited i la).
    { induction visited as [|m visited IH]; intros i la Hv; [done|].
      apply Forall_cons in Hv as [Hm Hv]. simpl.
      unfold message_role, JS.or. unfold role_at_top in Hm. rewrite Hm.
      by rewrite IH. }
    rewrite Hloop; [done|]. apply Forall_rev, Hall.
  - intros messages Hall. unfold plugin_getLatestExchange.
    assert (Hloop : ∀ visited i, Forall (λ m, JS.truthy (msg_role m) = false) visited →
              plugin_getLatestExchange_loop visited i (-1) = ((-1)%Z, (-1)%Z)).
    { induction visited as [|m visited IH]; intros i Hv; [done|].
      apply Forall_cons in Hv as [Hm Hv]. simpl.
      rewrite (bool_decide_eq_false_2 (msg_role m = Some ASSISTANT))
        by (intros Heq; rewrite Heq in Hm; discriminate).
      simpl. rewrite andb_false_r. by apply IH. }
    rewrite Hloop; [done|]. apply Forall_rev, Hall.
Qed.

Lemma plugin_extractor_agreement_witness :
  let top := [text_message "user" "fix the bug";
              text_message "assistant" "fixed it in main.go"] in
  let nested := [info_message "user" "fix the bug";
                 info_message "assistant" "fixed it in main.go"] in
  plugin_getLatestExchange top = getLatestExchange top
  ∧ plugin_getLatestExchange nested = None
  ∧ getLatestExchange nested ≠ None.
Proof.
  intros top nested.
  destruct plugin_extractor_agreement as (_ & Hsame & Hblind).
  split_and!.
  - apply Hsame. repeat constructor.
  - apply Hblind. repeat constructor.
  - vm_compute. discriminate.
Defined.

End MessageContent.

(** ** Model identifiers *)

Section ModelIdentifiers.

Lemma split_on_nonempty (sep : N) (s : jsstring) : split_on sep s ≠ [].
Proof.
  induction s as [|c s IH]; simpl; [done|].
  destruct (c =? sep)%N; [done|]. by destruct (split_on sep s).
Qed.

(** [split] then [join] with the same separator gives the string back. *)
Lemma join_split_on (sep : N) (s : jsstring) : join [sep] (split_on sep s) = s.
Proof.
  induction s as [|c s IH]; simpl; [done|].
  destruct (N.eqb_spec c sep) as [->|Hne].
  - pose proof (split_on_nonempty sep s).
    destruct (split_on sep s) as [|field fields] eqn:Hsplit; [done|].
    simpl in *. by rewrite IH.
  - pose proof (split_on_nonempty sep s).
    destruct (split_on sep s) as [|field fields] eqn:Hsplit; [done|].
    simpl in *. destruct fields; simpl in *; by rewrite <- IH.
Qed.

Lemma split_on_head (sep : N) (s first : jsstring) (rest : list jsstring) :
  split_on sep s = first :: rest → sep ∉ first.
Proof.
  revert first rest. induction s as [|c s IH]; intros first rest; simpl.
  - intros [= <- <-]. apply not_elem_of_nil.
  - destruct (N.eqb_spec c sep) as [->|Hne].
    + intros [= <- <-]. apply not_elem_of_nil.
    + pose proof (split_on_nonempty sep s).
      destruct (split_on sep s) as [|field fields] eqn:Hsplit; [done|].
      intros [= <- <-]. apply not_elem_of_cons. split; [done|].
      by apply (IH field fields).
Qed.

Lemma split_on_prefix (sep : N) (first rest : jsstring) :
  sep ∉ first →
  split_on sep (first ++ sep :: rest) = first :: split_on sep rest.
Proof.
  induction first as [|c first IH]; intros Hfree; simpl.
  - by rewrite N.eqb_refl.
  - apply not_elem_of_cons in Hfree as [Hc Hfree].
    destruct (N.eqb_spec c sep) as [->|_]; [done|]. by rewrite IH.
Qed.

Lemma split_on_no_sep (sep : N) (s : jsstring) :
  sep ∉ s → split_on sep s = [s].
Proof.
  induction s as [|c s IH]; intros Hfree; simpl; [done|].
  apply not_elem_of_cons in Hfree as [Hc Hfree].
  destruct (N.eqb_spec c sep) as [->|_]; [done|]. by rewrite IH.
Qed.

(** X7.  [parseModelId] cuts a model string at its first slash: the
    provider holds no slash, provider, slash and model put together are
    the string again, and a string without a slash is all provider with
    an empty model.  So an id [provider/model] built from a provider id
    without a slash is read back as it was built, slashes of the model
    part included. *)
Theorem parseModelId_round_trip :
  (∀ modelStr,
     ∃ provider,
       providerID (parseModelId modelStr) = Some provider
       ∧ (SLASH ∉ provider)
       ∧ (SLASH ∈ modelStr →
          modelStr = provider ++ [SLASH] ++ modelID (parseModelId modelStr))
       ∧ (SLASH ∉ modelStr →
          provider = modelStr ∧ modelID (parseModelId modelStr) = []))
  ∧ (∀ provider model_,
       SLASH ∉ provider →
       parseModelId (provider ++ [SLASH] ++ model_)
       = {| providerID := Some provider; modelID := model_ |}).
Proof.
  split.
  - intros modelStr. unfold parseModelId.
    pose proof (join_split_on SLASH modelStr) as Hjoin.
    pose proof (split_on_nonempty SLASH modelStr).
    destruct (split_on SLASH modelStr) as [|first rest] eqn:Hsplit; [done|].
    exists first. simpl. split_and!; [done|by eapply split_on_head| |].
    + intros Hin. destruct rest as [|r rest]; [|by rewrite <- Hjoin].
      simpl in Hjoin. subst first.
      by apply split_on_head in Hsplit.
    + intros Hout. rewrite (split_on_no_sep _ _ Hout) in Hsplit.
      by injection Hsplit as <- <-.
  - intros provider model_ Hfree. unfold parseModelId. simpl.
    rewrite (split_on_prefix _ _ _ Hfree). by rewrite join_split_on.
Qed.

Lemma parseModelId_round_trip_witness :
  (SLASH ∉ JS.lit "openrouter")
  ∧ parseModelId (JS.lit "openrouter/meta/llama")
    = {| providerID := Some (JS.lit "openrouter");
         modelID := JS.lit "meta/llama" |}.
Proof.
  assert (Hfree : SLASH ∉ JS.lit "openrouter").
  { intros Hin. vm_compute in Hin.
    repeat (apply elem_of_cons in Hin as [Hin|Hin]; [discriminate Hin|]).
    by apply elem_of_nil in Hin. }
  split; [exact Hfree|].
  destruct parseModelId_round_trip as [_ Hback].
  apply (Hback (JS.lit "openrouter") (JS.lit "meta/llama") Hfree).
Defined.

End ModelIdentifiers.

(** ** Posting an exchange *)

Section Posting.

#[local] Arguments splitMessage : simpl never.
#[local] Arguments JS.truthy : simpl never.

Lemma trace_with_effect (e : effect) (w : world) :
  trace (with_effect e w) = trace w ++ [e].
Proof. reflexivity. Qed.

(** One of the two loops: it sends the parts in order, the label in front
    of the one at index 0, until a send fails. *)
Lemma send_parts_trace (env : platform) (threadId label : jsstring)
    (parts : list jsstring) (i sent : nat) (w : world) :
  ∃ n,
    n ≤ List.length parts
    ∧ trace (send_parts env threadId label parts i sent w).2
      = trace w
        ++ (ThreadSend threadId
              <$> take n (imap (λ k p, if bool_decide (i + k = 0)
                                       then label ++ p else p) parts))
    ∧ (∀ sent', (send_parts env threadId label parts i sent w).1 = Ok sent' →
                n = List.length parts ∧ sent' = sent + List.length parts)
    ∧ ((send_parts env threadId label parts i sent w).1 = Throw → n ≠ 0).
Proof.
  revert i sent w. induction parts as [|p parts IH]; intros i sent w.
  - exists 0. simpl. rewrite app_nil_r. split_and!; [done|done| |done].
    intros sent' [= <-]. split; [done|lia].
  - simpl. run. destruct (thread_send env sent) eqn:Hsend.
    + destruct (IH (S i) (S sent)
                  (with_effect
                     (ThreadSend threadId
                        (if bool_decide (i = 0) then label ++ p else p)) w))
        as (n & Hn & Htrace & Hok & Hthrow).
      exists (S n). split_and!; [lia| | |done].
      * rewrite Htrace. simpl. rewrite <- app_assoc. simpl.
        rewrite Nat.add_0_r. do 4 f_equal.
        apply imap_ext. intros k x _. simpl.
        by rewrite bool_decide_eq_false_2 by lia.
      * intros sent' Hres. destruct (Hok sent' Hres) as [-> ->]. split; lia.
    + exists 1. simpl. rewrite ?take_0, ?Nat.add_0_r.
      split_and!; [lia|done|done|done].
Qed.

Lemma send_split_trace (env : platform) (threadId label text : jsstring)
    (sent : nat) (w : world) :
  JS.truthy (Some text) = true →
  ∃ n,
    n ≤ List.length (segments text)
    ∧ trace (send_split env threadId label text sent w).2
      = trace w ++ (ThreadSend threadId <$> take n (labelled label (segments text)))
    ∧ (∀ sent', (send_split env threadId label text sent w).1 = Ok sent' →
                n = List.length (segments text))
    ∧ ((send_split env threadId label text sent w).1 = Throw → n ≠ 0)
    ∧ (send_split env threadId label text sent w).1 ≠ Diverge.
Proof.
  intros Htext. unfold send_split, segments, labelled. rewrite Htext.
  destruct (splitMessage_returns text 1900) as (parts & -> & _); [lia|]. simpl.
  destruct (send_parts_trace env threadId label parts 0 sent w)
    as (n & Hn & Htrace & Hok & Hthrow).
  exists n. split_and!; [done|done| |done|apply send_parts_returns].
  intros sent' Hres. by destruct (Hok sent' Hres).
Qed.

Lemma labelled_length (label : jsstring) (parts : list jsstring) :
  List.length (labelled label parts) = List.length parts.
Proof. apply length_imap. Qed.

Lemma segments_falsy (text : jsstring) :
  JS.truthy (Some text) = false → segments text = [].
Proof. unfold segments. by intros ->. Qed.

(** What [postToSyncThread] leaves in the trace, and when it says true. *)
Lemma postToSyncThread_trace (env : platform)
    (threadId userContent_ assistantContent_ : jsstring) (w : world) :
  ∃ n (posted_ : bool),
    (postToSyncThread env threadId userContent_ assistantContent_ w).1 = Ok posted_
    ∧ trace (postToSyncThread env threadId userContent_ assistantContent_ w).2
      = trace w ++ ChannelsFetch threadId
          :: (ThreadSend threadId
                <$> take n (posted_messages userContent_ assistantContent_))
    ∧ (channels_fetch env ≠ FetchThread → n = 0 ∧ posted_ = false)
    ∧ (posted_ = true →
       List.length (posted_messages userContent_ assistantContent_) ≤ n).
Proof.
  unfold postToSyncThread, posted_messages. run.
  destruct (channels_fetch env) eqn:Hfetch; simpl;
    try (exists 0, false; rewrite take_0;
         split_and!; [done|done|done|done]).
  set (w0 := with_effect (ChannelsFetch threadId) w).
  destruct (JS.truthy (Some userContent_)) eqn:Hu.
  - destruct (send_split_trace env threadId USER_LABEL userContent_ 0 w0 Hu)
      as (n & Hn & Htrace & Hok & Hthrow & Hdiv).
    rewrite <- (labelled_length USER_LABEL) in Hn.
    destruct (send_split env threadId USER_LABEL userContent_ 0 w0)
      as [[sent| |] w1]; simpl in *; [| |done].
    + specialize (Hok sent eq_refl).
      rewrite <- (labelled_length USER_LABEL) in Hok. subst n.
      rewrite firstn_all in Htrace.
      destruct (JS.truthy (Some assistantContent_)) eqn:Ha.
      * destruct (send_split_trace env threadId ASSISTANT_LABEL assistantContent_
                    sent w1 Ha)
          as (n & Hn' & Htrace' & Hok' & Hthrow' & Hdiv').
        rewrite <- (labelled_length ASSISTANT_LABEL) in Hn'.
        destruct (send_split env threadId ASSISTANT_LABEL assistantContent_ sent w1)
          as [[sent'| |] w2]; simpl in *; [| |done].
        -- specialize (Hok' sent' eq_refl).
           rewrite <- (labelled_length ASSISTANT_LABEL) in Hok'. subst n.
           exists (List.length (labelled USER_LABEL (segments userContent_))
                   + List.length (labelled ASSISTANT_LABEL (segments assistantContent_))),
             true.
           split_and!; [done| |done|by rewrite length_app].
           rewrite Htrace', Htrace, take_app_add, firstn_all. subst w0.
           rewrite ?trace_with_effect, fmap_app, <- ?app_assoc. done.
        -- exists (List.length (labelled USER_LABEL (segments userContent_)) + n),
             false.
           split_and!; [done| |done|done].
           rewrite Htrace', Htrace, take_app_add. subst w0.
           rewrite ?trace_with_effect, fmap_app, <- ?app_assoc. done.
      * exists (List.length (labelled USER_LABEL (segments userContent_))), true.
        rewrite (segments_falsy _ Ha). simpl. rewrite app_nil_r.
        split_and!; [done| |done|done].
        rewrite Htrace, firstn_all. subst w0.
        rewrite ?trace_with_effect, <- ?app_assoc. done.
    + exists n, false. split_and!; [done| |done|done].
      rewrite Htrace, take_app_le by lia. subst w0.
      rewrite ?trace_with_effect, <- ?app_assoc. done.
  - rewrite (segments_falsy _ Hu). simpl.
    destruct (JS.truthy (Some assistantContent_)) eqn:Ha.
    + destruct (send_split_trace env threadId ASSISTANT_LABEL assistantContent_
                  0 w0 Ha)
        as (n & Hn' & Htrace' & Hok' & Hthrow' & Hdiv').
      rewrite <- (labelled_length ASSISTANT_LABEL) in Hn'.
      destruct (send_split env threadId ASSISTANT_LABEL assistantContent_ 0 w0)
        as [[sent'| |] w2]; simpl in *; [| |done].
      * specialize (Hok' sent' eq_refl).
        rewrite <- (labelled_length ASSISTANT_LABEL) in Hok'. subst n.
        exists (List.length (labelled ASSISTANT_LABEL (segments assistantContent_))),
          true.
        split_and!; [done| |done|done].
        rewrite Htrace'. subst w0. rewrite ?trace_with_effect, <- ?app_assoc. done.
      * exists n, false. split_and!; [done| |done|done].
        rewrite Htrace'. subst w0. rewrite ?trace_with_effect, <- ?app_assoc. done.
    + exists 0, true. rewrite (segments_falsy _ Ha). simpl.
      split_and!; [done|done|done|done].
Qed.

End Posting.

(** ** The sends of a post, one by one *)

Section PostingAccount.

#[local] Arguments splitMessage : simpl never.
#[local] Arguments JS.truthy : simpl never.

Lemma send_parts_send_all (env : platform) (threadId label : jsstring)
    (parts : list jsstring) (i sent : nat) (w : world) :
  send_parts env threadId label parts i sent w
  = send_all env threadId
      (imap (λ k p, if bool_decide (i + k = 0) then label ++ p else p) parts)
      sent w.
Proof.
  revert i sent w. induction parts as [|p parts IH]; intros i sent w; [done|].
  simpl. run. rewrite Nat.add_0_r.
  destruct (thread_send env sent); [|done].
  rewrite IH. f_equal. apply imap_ext. intros k x _. simpl.
  by rewrite !bool_decide_eq_false_2 by lia.
Qed.

Lemma send_split_send_all (env : platform) (threadId label text : jsstring)
    (sent : nat) (w : world) :
  JS.truthy (Some text) = true →
  send_split env threadId label text sent w
  = send_all env threadId (labelled label (segments text)) sent w.
Proof.
  intros Htext. unfold send_split, segments, labelled. rewrite Htext.
  destruct (splitMessage_returns text 1900) as (parts & -> & _); [lia|].
  apply send_parts_send_all.
Qed.

Lemma send_all_app (env : platform) (threadId : jsstring)
    (first second : list jsstring) (sent : nat) (w : world) :
  send_all env threadId (first ++ second) sent w
  = (n ← send_all env threadId first sent; send_all env threadId second n) w.
Proof.
  revert sent w. induction first as [|c first IH]; intros sent w; [done|].
  simpl. run. destruct (thread_send env sent); [|done].
  rewrite IH. done.
Qed.

(** With the thread fetched, a post is one run through its messages. *)
Lemma postToSyncThread_send_all (env : platform)
    (threadId userContent_ assistantContent_ : jsstring) (w : world) :
  channels_fetch env = FetchThread →
  postToSyncThread env threadId userContent_ assistantContent_ w
  = try_catch
      (send_all env threadId (posted_messages userContent_ assistantContent_) 0;;
       mret true)
      (mret false) (with_effect (ChannelsFetch threadId) w).
Proof.
  intros Hfetch. unfold postToSyncThread, posted_messages. run.
  rewrite Hfetch, send_all_app. run.
  destruct (JS.truthy (Some userContent_)) eqn:Hu.
  - rewrite (send_split_send_all _ _ _ _ _ _ Hu).
    destruct (send_all env threadId (labelled USER_LABEL (segments userContent_))
                0 (with_effect (ChannelsFetch threadId) w))
      as [[sent| |] w1]; [|done..].
    destruct (JS.truthy (Some assistantContent_)) eqn:Ha.
    + by rewrite (send_split_send_all _ _ _ _ _ _ Ha).
    + by rewrite (segments_falsy _ Ha).
  - rewrite (segments_falsy _ Hu). simpl.
    destruct (JS.truthy (Some assistantContent_)) eqn:Ha.
    + by rewrite (send_split_send_all _ _ _ _ _ _ Ha).
    + by rewrite (segments_falsy _ Ha).
Qed.

(** The run stops at the first send that is rejected. *)
Lemma send_all_account (env : platform) (threadId : jsstring)
    (contents : list jsstring) (sent : nat) (w : world) :
  ∃ n,
    n ≤ List.length contents
    ∧ trace (send_all env threadId contents sent w).2
      = trace w ++ (ThreadSend threadId <$> take n contents)
    ∧ (∀ k, S k < n → thread_send env (sent + k) = true)
    ∧ (((send_all env threadId contents sent w).1
        = Ok (sent + List.length contents)
        ∧ n = List.length contents
        ∧ ∀ k, k < n → thread_send env (sent + k) = true)
       ∨ ((send_all env threadId contents sent w).1 = Throw
          ∧ ∃ k, n = S k ∧ thread_send env (sent + k) = false)).
Proof.
  revert sent w. induction contents as [|c contents IH]; intros sent w.
  - exists 0. simpl. rewrite app_nil_r, Nat.add_0_r.
    split_and!; [done|done|lia|]. left. split_and!; [done|done|lia].
  - simpl. run. destruct (thread_send env sent) eqn:Hsend.
    + destruct (IH (S sent) (with_effect (ThreadSend threadId c) w))
        as (n & Hn & Htrace & Hbefore & Hend).
      exists (S n). split_and!; [lia| | |].
      * rewrite Htrace. simpl. by rewrite <- app_assoc.
      * intros [|k] Hk; [by rewrite Nat.add_0_r|].
        replace (sent + S k) with (S sent + k) by lia. apply Hbefore. lia.
      * destruct Hend as [(Hok & -> & Hall)|(Hthrow & k & -> & Hfail)].
        -- left. split_and!; [|done|].
           ++ rewrite Hok. f_equal. simpl. lia.
           ++ intros [|k] Hk; [by rewrite Nat.add_0_r|].
              replace (sent + S k) with (S sent + k) by lia. apply Hall. lia.
        -- right. split; [done|]. exists (S k). split; [done|].
           by replace (sent + S k) with (S sent + k) by lia.
    + exists 1. simpl. rewrite ?take_0. split_and!; [lia|done|lia|].
      right. split; [done|]. exists 0. by rewrite Nat.add_0_r.
Qed.

End PostingAccount.

Section PostingProperties.

Lemma segments_ok (text : jsstring) : Forall (segment_ok 1900) (segments text).
Proof.
  unfold segments. destruct text as [|c text]; [done|]. simpl.
  destruct (splitMessage_returns (c :: text) 1900) as (parts & -> & Hok & _);
    [lia|].
  simpl. by destruct Hok.
Qed.

Lemma labelled_within (label : jsstring) (parts : list jsstring) :
  (JS.len label ≤ 15)%Z →
  Forall (segment_ok 1900) parts →
  Forall (λ c, (1 ≤ JS.len c ≤ 1915)%Z) (labelled label parts).
Proof.
  intros Hlabel Hparts. unfold labelled.
  apply Forall_forall. intros c Hc.
  apply list_elem_of_lookup in Hc as [i Hc].
  rewrite list_lookup_imap in Hc.
  destruct (parts !! i) as [p|] eqn:Hp; [|done]. simpl in Hc.
  injection Hc as <-.
  rewrite Forall_forall in Hparts.
  destruct (Hparts p) as [Hne Hlen]; [by eapply list_elem_of_lookup_2|].
  assert (1 ≤ JS.len p)%Z by (destruct p; [done|unfold JS.len; simpl; lia]).
  unfold JS.len in *. destruct (bool_decide (i = 0)); [|lia].
  rewrite length_app. lia.
Qed.

Lemma posted_messages_within (u a : jsstring) :
  Forall (λ c, (1 ≤ JS.len c ≤ 1915)%Z) (posted_messages u a).
Proof.
  unfold posted_messages. apply Forall_app. split.
  - apply labelled_within; [by vm_compute|apply segments_ok].
  - apply labelled_within; [by vm_compute|apply segments_ok].
Qed.

(** X8.  [postToSyncThread] never throws and touches none of the maps.  It
    fetches the thread and then sends the labelled segments of the user
    text followed by those of the assistant text, in order, up to and
    including the first send that is rejected: every send before the last
    one attempted went through.  It returns true exactly when none was
    rejected, and then all of them were sent; it returns false after a
    rejected send, which is then the last one attempted.  When the thread
    cannot be fetched or is no thread it sends nothing and returns
    false. *)
Theorem postToSyncThread_sends_in_order (env : platform)
    (threadId userContent_ assistantContent_ : jsstring) (w : world) :
  let messages := posted_messages userContent_ assistantContent_ in
  ∃ n (posted_ : bool),
    postToSyncThread env threadId userContent_ assistantContent_ w
    = (Ok posted_,
       (postToSyncThread env threadId userContent_ assistantContent_ w).2)
    ∧ stores (postToSyncThread env threadId userContent_ assistantContent_ w).2
      = stores w
    ∧ trace (postToSyncThread env threadId userContent_ assistantContent_ w).2
      = trace w ++ ChannelsFetch threadId
          :: (ThreadSend threadId <$> take n messages)
    ∧ n ≤ List.length messages
    ∧ (channels_fetch env ≠ FetchThread → n = 0 ∧ posted_ = false)
    ∧ (channels_fetch env = FetchThread →
       (∀ k, S k < n → thread_send env k = true)
       ∧ (posted_ = true →
          n = List.length messages
          ∧ take n messages = messages
          ∧ ∀ k, k < n → thread_send env k = true)
       ∧ (posted_ = false → ∃ k, n = S k ∧ thread_send env k = false)).
Proof.
  intros messages.
  destruct (postToSyncThread_stores env threadId userContent_ assistantContent_ w)
    as [Hstores _].
  destruct (channels_fetch env) eqn:Hfetch.
  1-3: destruct (postToSyncThread_trace env threadId userContent_
                   assistantContent_ w)
         as (n & posted_ & Hres & Htrace & Hother & _);
       rewrite Hfetch in Hother;
       destruct Hother as [-> ->]; [done|];
       exists 0, false; split_and!;
         [rewrite <- Hres; by destruct (postToSyncThread _ _ _ _ _)
         |done|done|lia|done|done].
  revert Hstores.
  rewrite (postToSyncThread_send_all env threadId userContent_
             assistantContent_ w Hfetch).
  fold messages. unfold try_catch. run.
  destruct (send_all_account env threadId messages 0
              (with_effect (ChannelsFetch threadId) w))
    as (n & Hn & Htrace & Hbefore & Hend).
  destruct (send_all env threadId messages 0
              (with_effect (ChannelsFetch threadId) w)) as [r w1].
  simpl in Htrace, Hend. rewrite <- app_assoc in Htrace. simpl in Htrace.
  destruct Hend as [(-> & -> & Hall)|(-> & k & -> & Hfail)]; simpl;
    intros Hstores.
  - exists (List.length messages), true.
    split_and!; [done|done|done|done|done|].
    intros _. split_and!; [done| |done].
    intros _. split_and!; [done|by apply take_ge|done].
  - exists (S k), false.
    split_and!; [done|done|done|done|done|].
    intros _. split_and!; [done|done|]. intros _. by exists k.
Qed.

(** X9.  Whatever the two texts, every message [postToSyncThread] sends
    holds between 1 and 1915 code units: a segment of at most 1900 and,
    in front of the first one, a label of at most 15. *)
Theorem postToSyncThread_within_limit (env : platform)
    (threadId userContent_ assistantContent_ : jsstring) (w : world) :
  ∃ sends,
    trace (postToSyncThread env threadId userContent_ assistantContent_ w).2
    = trace w ++ ChannelsFetch threadId :: (ThreadSend threadId <$> sends)
    ∧ Forall (λ content, (1 ≤ JS.len content ≤ 1915)%Z) sends.
Proof.
  destruct (postToSyncThread_trace env threadId userContent_ assistantContent_ w)
    as (n & posted_ & _ & Htrace & _).
  eexists. split; [exact Htrace|].
  apply Forall_take, posted_messages_within.
Qed.

End PostingProperties.

(** ** Creating a thread *)

Section ThreadCreation.

Lemma len_slice_prefix (s : jsstring) (n : Z) :
  (0 ≤ n)%Z → (JS.len (JS.slice s 0 n) ≤ n)%Z.
Proof.
  intros Hn. unfold JS.len, JS.slice.
  rewrite length_take, length_drop.
  unfold JS.relative_index. simpl.
  destruct (Z.ltb_spec n 0); lia.
Qed.

Lemma or_else_bounds (s fallback : jsstring) (n : Z) :
  (JS.len s ≤ n)%Z → (1 ≤ JS.len fallback ≤ n)%Z →
  (1 ≤ JS.len (or_else s fallback) ≤ n)%Z.
Proof.
  unfold or_else, JS.or, JS.len. destruct s as [|c s]; simpl; lia.
Qed.

(** All the ways [createSyncThread] can end. *)
Lemma createSyncThread_outcome (env : platform) (S title : jsstring)
    (directory : option jsstring) (w w' : world) (r : result (option thread)) :
  createSyncThread env S title directory w = (r, w') →
  lastPostedContent w' = lastPostedContent w
  ∧ discordInitiatedSessions w' = discordInitiatedSessions w
  ∧ timers w' = timers w
  ∧ ((∃ id, creates_thread env w id
            ∧ r = Ok (Some {| thread_id := id;
                              thread_name :=
                                or_else (JS.slice title 0 100) OPENCODE_SESSION |})
            ∧ sessionToThread w' = <[S := id]> (sessionToThread w)
            ∧ threadToSession w' = <[id := S]> (threadToSession w)
            ∧ subscribedThreads w' = {[id]} ∪ subscribedThreads w)
     ∨ ((∀ id, ¬ creates_thread env w id)
        ∧ (r = Ok None ∨ r = Throw)
        ∧ sessionToThread w' = sessionToThread w
        ∧ threadToSession w' = threadToSession w
        ∧ subscribedThreads w' = subscribedThreads w)).
Proof.
  unfold createSyncThread, ensureSyncChannel, creates_thread.
  destruct (syncChannel w) as [channel|] eqn:Hw;
    destruct (ensure_channel env) as [| |c] eqn:He;
    destruct (starter_send env) eqn:Hs;
    destruct (start_thread env) as [id|] eqn:Ht;
    run; rewrite ?Hw; run; intros [= <- <-]; simpl;
    (split_and!; [done|done|done|]);
    first [ left; exists id;
            split_and!; try done; first [left; by eexists | right; by eexists]
          | right; split_and!; try done;
            [ intros id' (Hch & Hsend & Hstart);
              first [ discriminate Hsend | discriminate Hstart
                    | destruct Hch as [[? Hx]|[? Hx]]; discriminate Hx ]
            | first [by left | by right] ] ].
Qed.

(** X10.  [createSyncThread] hands back a thread exactly when the sync
    channel is there (or can be made), the starter message goes out and
    the thread is started.  Then the session is bound to the new thread in
    both directions and the thread is subscribed, and its name is the
    first 100 code units of the title, or the label [OpenCode Session]
    for an empty title, so between 1 and 100 code units.  In every other case it returns null or throws, and both maps
    and the subscriptions are as they were.  The ledger, the provenance
    set and the timers are never touched. *)
Theorem createSyncThread_all_or_nothing (env : platform) (S title : jsstring)
    (directory : option jsstring) (w : world) :
  let r := (createSyncThread env S title directory w).1 in
  let w' := (createSyncThread env S title directory w).2 in
  lastPostedContent w' = lastPostedContent w
  ∧ discordInitiatedSessions w' = discordInitiatedSessions w
  ∧ timers w' = timers w
  ∧ ((∃ t, r = Ok (Some t)
           ∧ creates_thread env w (thread_id t)
           ∧ thread_name t = or_else (JS.slice title 0 100) OPENCODE_SESSION
           ∧ (1 ≤ JS.len (thread_name t) ≤ 100)%Z
           ∧ getThread w' S = Some (thread_id t)
           ∧ getSession w' (thread_id t) = Some S
           ∧ thread_id t ∈ subscribedThreads w')
     ∨ ((∀ id, ¬ creates_thread env w id)
        ∧ (r = Ok None ∨ r = Throw)
        ∧ sessionToThread w' = sessionToThread w
        ∧ threadToSession w' = threadToSession w
        ∧ subscribedThreads w' = subscribedThreads w)).
Proof.
  intros r w'.
  destruct (createSyncThread_outcome env S title directory w w' r)
    as (Hledger & Hmarks & Htimers & Hcases);
    [subst r w'; by destruct (createSyncThread _ _ _ _ _)|].
  split_and!; [done|done|done|].
  destruct Hcases as [(id & Hcreates & Hr & Hfwd & Hrev & Hsub)|Hfail];
    [left|by right].
  eexists. split; [exact Hr|]. simpl. unfold getThread, getSession.
  rewrite Hfwd, Hrev, Hsub, !lookup_insert_eq.
  split; [done|]. split; [done|]. split.
  - apply or_else_bounds; [by apply len_slice_prefix|split; by vm_compute].
  - split_and!; [done|done|].
    apply elem_of_union_l. by apply elem_of_singleton.
Qed.

End ThreadCreation.

(** ** The mirror handler, case by case *)

Section MirrorOutcome.

#[local] Arguments postToSyncThread : simpl never.
#[local] Arguments createSyncThread : simpl never.
#[local] Arguments getLatestExchange : simpl never.
#[local] Arguments extractMessageContent : simpl never.
#[local] Arguments shouldPost : simpl never.
#[local] Arguments JS.truthy : simpl never.

Lemma truthy_false_empty (s : jsstring) : JS.truthy (Some s) = false → s = [].
Proof. by destruct s. Qed.

(** All the ways [handleSessionIdle] can go; it always returns. *)
Lemma handleSessionIdle_outcome (env : platform) (cwd S : jsstring) (w : world) :
  let w0 := with_effect (SessionMessages S) w in
  ∃ w',
    handleSessionIdle env cwd S w = (Ok tt, w')
    ∧ ((S ∈ discordInitiatedSessions w ∧ w' = w)
       ∨ ((S ∉ discordInitiatedSessions w)
          ∧ ((mirror_contents env = None ∧ w' = w0)
             ∨ ∃ u a,
                 mirror_contents env = Some (u, a)
                 ∧ ((shouldPost (lastPostedContent w) S u a = false ∧ w' = w0)
                    ∨ (shouldPost (lastPostedContent w) S u a = true
                       ∧ ((∃ T, sessionToThread w !! S = Some T ∧ T ≠ []
                                ∧ w' = with_lastPostedContent (record S u a)
                                         (postToSyncThread env T u a w0).2)
                          ∨ (JS.truthy (sessionToThread w !! S) = false
                             ∧ ∃ r w1,
                                 createSyncThread env S (mirror_title u)
                                   (Some cwd) w0 = (r, w1)
                                 ∧ ((∃ t, r = Ok (Some t)
                                          ∧ w' = with_lastPostedContent
                                                   (record S u a)
                                                   (postToSyncThread env
                                                      (thread_id t) u a w1).2)
                                    ∨ ((r = Ok None ∨ r = Throw)
                                       ∧ w' = w1))))))))).
Proof.
  intros w0. unfold handleSessionIdle, mirror_contents. run.
  destruct (decide (S ∈ discordInitiatedSessions w)) as [Hin|Hout].
  { rewrite (bool_decide_eq_true_2 _ Hin). exists w. split; [done|]. by left. }
  rewrite (bool_decide_eq_false_2 _ Hout). run. fold w0.
  destruct (session_messages env) as [messages|]; run;
    [|exists w0; split; [done|]; right; split; [done|]; by left].
  destruct messages as [|m messages]; run;
    [exists w0; split; [done|]; right; split; [done|]; by left|].
  destruct (getLatestExchange (m :: messages)) as [found|]; run;
    [|exists w0; split; [done|]; right; split; [done|]; by left].
  set (u := extractMessageContent (userMessage found)).
  set (a := extractMessageContent (assistantMessage found)).
  destruct (JS.truthy (Some u)) eqn:Hu; destruct (JS.truthy (Some a)) eqn:Ha;
    run;
    try (exists w0; split; [done|]; right; split; [done|]; by left).
  all: destruct (shouldPost (lastPostedContent w) S u a) eqn:Hnew; run;
    [|exists w0; split; [done|]; right; split; [done|]; right;
      exists u, a; split; [done|]; by left].
  all: destruct (JS.truthy (sessionToThread w !! S)) eqn:Hbound; run;
    [ destruct (sessionToThread w !! S) as [T|] eqn:HT;
        [|cbv in Hbound; discriminate Hbound];
      destruct (postToSyncThread_returns env T u a w0) as [posted_ Hpost];
      destruct (postToSyncThread env T u a w0) as [rp wp] eqn:Hrun;
      simpl in Hpost; subst rp; simpl;
      eexists; (split; [done|]); right; (split; [done|]); right;
      exists u, a; (split; [done|]); right; (split; [done|]); left;
      exists T; split_and!;
        [done|intros ->; cbv in Hbound; discriminate Hbound|by rewrite Hrun]
    | unfold mirror_title;
      destruct (createSyncThread env S
                  (or_else (JS.slice u 0 50) OPENCODE_SESSION)
                  (Some cwd) w0) as [rc w1] eqn:Hcreate;
      pose proof (createSyncThread_outcome _ _ _ _ _ _ _ Hcreate)
        as (_ & _ & _ & Hcases);
      destruct Hcases as [(id & _ & -> & _)|(_ & [-> | ->] & _)]; simpl;
      try (destruct (postToSyncThread_returns env id u a w1) as [posted_ Hpost];
           destruct (postToSyncThread env id u a w1) as [rp wp] eqn:Hrun;
           simpl in Hpost; subst rp; simpl);
      eexists; (split; [done|]); right; (split; [done|]); right;
      exists u, a; (split; [done|]); right; (split; [done|]); right;
      (split; [done|]); eexists _, _; (split; [done|]);
      first [ left; eexists; split; [done|]; simpl; by rewrite Hrun
            | right; split; [by eauto|done] ] ].
Qed.

(** The same, field by field. *)
Lemma handleSessionIdle_cases (env : platform) (cwd S : jsstring) (w : world) :
  let w0 := with_effect (SessionMessages S) w in
  ∃ w',
    handleSessionIdle env cwd S w = (Ok tt, w')
    ∧ discordInitiatedSessions w' = discordInitiatedSessions w
    ∧ timers w' = timers w
    ∧ (((S ∈ discordInitiatedSessions w
         ∨ mirror_contents env = None
         ∨ ∃ u a, mirror_contents env = Some (u, a)
                  ∧ shouldPost (lastPostedContent w) S u a = false)
        ∧ (w' = w ∨ w' = w0))
       ∨ ∃ u a,
           (S ∉ discordInitiatedSessions w)
           ∧ mirror_contents env = Some (u, a)
           ∧ shouldPost (lastPostedContent w) S u a = true
           ∧ ((∃ T, sessionToThread w !! S = Some T ∧ T ≠ []
                    ∧ sessionToThread w' = sessionToThread w
                    ∧ threadToSession w' = threadToSession w
                    ∧ subscribedThreads w' = subscribedThreads w
                    ∧ syncChannel w' = syncChannel w
                    ∧ lastPostedContent w' = record S u a (lastPostedContent w)
                    ∧ trace w' = trace (postToSyncThread env T u a w0).2)
              ∨ (JS.truthy (sessionToThread w !! S) = false
                 ∧ ∃ id, creates_thread env w id
                         ∧ sessionToThread w' = <[S := id]> (sessionToThread w)
                         ∧ threadToSession w' = <[id := S]> (threadToSession w)
                         ∧ subscribedThreads w' = {[id]} ∪ subscribedThreads w
                         ∧ lastPostedContent w'
                           = record S u a (lastPostedContent w))
              ∨ (JS.truthy (sessionToThread w !! S) = false
                 ∧ (∀ id, ¬ creates_thread env w id)
                 ∧ sessionToThread w' = sessionToThread w
                 ∧ threadToSession w' = threadToSession w
                 ∧ subscribedThreads w' = subscribedThreads w
                 ∧ lastPostedContent w' = lastPostedContent w))).
Proof.
  intros w0.
  destruct (handleSessionIdle_outcome env cwd S w) as (w' & Hrun & Hcases).
  fold w0 in Hcases. exists w'. split; [done|].
  destruct Hcases as [[Hin ->]|[Hout [[Hnone ->]|(u & a & Hsome & Hcases)]]].
  { split_and!; [done|done|]. left. split; [by left|by left]. }
  { split_and!; [done|done|]. left. split; [right; by left|by right]. }
  destruct Hcases as [[Hdup ->]|[Hnew Hcases]].
  { split_and!; [done|done|]. left. split; [|by right].
    right; right. by exists u, a. }
  destruct Hcases as [(T & HT & HTne & ->)|(Hfree & r & w1 & Hcreate & Hcases)].
  { destruct (postToSyncThread_stores env T u a w0) as [Hstores _].
    unfold stores in Hstores. simpl in Hstores.
    injection Hstores as H1 H2 H3 H4 H5 H6 H7. simpl.
    split_and!; [done|done|]. right. exists u, a. split_and!; [done|done|done|].
    left. exists T. rewrite H4. by split_and!. }
  pose proof (createSyncThread_outcome _ _ _ _ _ _ _ Hcreate)
    as (Hledger & Hmarks & Htimers & Hcreated).
  simpl in Hledger, Hmarks, Htimers.
  destruct Hcases as [(t & -> & ->)|[Hfail ->]].
  - destruct (postToSyncThread_stores env (thread_id t) u a w1) as [Hstores _].
    unfold stores in Hstores. injection Hstores as H1 H2 H3 H4 H5 H6 H7. simpl.
    rewrite H5, H7, H4, H1, H2, H3, Hledger.
    split_and!; [done|done|].
    right. exists u, a. split_and!; [done|done|done|]. right; left.
    split; [done|].
    destruct Hcreated as [(id & Hcreates & _ & Hfwd & Hrev & Hsub)
                         |(_ & [[=]|[=]] & _)].
    exists id. by split_and!.
  - split_and!; [done|done|].
    right. exists u, a. split_and!; [done|done|done|]. right; right.
    split; [done|].
    destruct Hcreated as [(id & Hcreates & Hr & _)|(Hnever & _ & Hfwd & Hrev & Hsub)].
    + destruct Hfail; congruence.
    + by split_and!.
Qed.

End MirrorOutcome.

(** ** What the mirror handler does to the sync state *)

Section MirrorProperties.

#[local] Arguments postToSyncThread : simpl never.
#[local] Arguments createSyncThread : simpl never.
#[local] Arguments getLatestExchange : simpl never.
#[local] Arguments extractMessageContent : simpl never.
#[local] Arguments shouldPost : simpl never.
#[local] Arguments JS.truthy : simpl never.

Lemma shouldPost_recorded (S u a : jsstring) (ledger : gmap jsstring posted) :
  shouldPost (record S u a ledger) S u a = false.
Proof.
  unfold shouldPost, record, alreadyPosted. rewrite lookup_insert_eq. simpl.
  by rewrite !bool_decide_eq_true_2.
Qed.

Lemma mirror_contents_messages (env env2 : platform) :
  session_messages env2 = session_messages env →
  mirror_contents env2 = mirror_contents env.
Proof. unfold mirror_contents. by intros ->. Qed.

(** X11.  [handleSessionIdle] always returns, whatever the backend and the
    platform do.  It leaves the provenance set and the timers alone, and
    of the bindings and ledger entries it can only change those of the
    session it was called for: that session's ledger entry is afterwards
    as before or the exchange just extracted, the latter only when the
    session is bound to a thread by then. *)
Theorem handleSessionIdle_touches_one_session
    (env : platform) (cwd S : jsstring) (w : world) :
  ∃ w',
    handleSessionIdle env cwd S w = (Ok tt, w')
    ∧ discordInitiatedSessions w' = discordInitiatedSessions w
    ∧ timers w' = timers w
    ∧ (∀ S', S' ≠ S →
             getThread w' S' = getThread w S'
             ∧ lastPostedContent w' !! S' = lastPostedContent w !! S')
    ∧ (lastPostedContent w' !! S = lastPostedContent w !! S
       ∨ ∃ u a, mirror_contents env = Some (u, a)
                ∧ lastPostedContent w' !! S
                  = Some {| userContent := u; assistantContent := a |}
                ∧ is_Some (getThread w' S)).
Proof.
  destruct (handleSessionIdle_cases env cwd S w)
    as (w' & Hrun & Hmarks & Htimers & Hcases).
  exists w'. unfold getThread. split_and!; [done|done|done| |].
  - intros S' Hother.
    destruct Hcases as [[_ [->| ->]]|(u & a & _ & _ & _ & Hcases)]; [done|done|].
    destruct Hcases as [(T & _ & _ & -> & _ & _ & _ & -> & _)
                       |[(_ & id & _ & -> & _ & _ & ->)
                        |(_ & _ & -> & _ & _ & ->)]];
      unfold record; by rewrite ?lookup_insert_ne.
  - destruct Hcases as [[_ [->| ->]]|(u & a & _ & Hsome & _ & Hcases)];
      [by left|by left|].
    destruct Hcases as [(T & HT & _ & -> & _ & _ & _ & -> & _)
                       |[(_ & id & _ & -> & _ & _ & ->)
                        |(_ & _ & _ & _ & _ & ->)]];
      [right|right|by left];
      exists u, a; unfold record; rewrite ?lookup_insert_eq;
      (split_and!; [done|done|by eexists]).
Qed.

(** X12.  Once a session has a thread, a second idle event that finds the
    same messages at the backend posts nothing: the second activation
    returns having at most fetched the messages, with every store as the
    first one left it, whatever the platform would now answer. *)
Theorem handleSessionIdle_repeat_is_quiet
    (env env2 : platform) (cwd S : jsstring) (w : world) :
  session_messages env2 = session_messages env →
  let w1 := (handleSessionIdle env cwd S w).2 in
  JS.truthy (getThread w1 S) = true →
  handleSessionIdle env2 cwd S w1 = (Ok tt, w1)
  ∨ handleSessionIdle env2 cwd S w1
    = (Ok tt, with_effect (SessionMessages S) w1).
Proof.
  intros Hmessages w1 Hbound. unfold getThread in Hbound.
  apply mirror_contents_messages in Hmessages.
  assert (S ∈ discordInitiatedSessions w1
          ∨ ∀ u a, mirror_contents env = Some (u, a) →
                   shouldPost (lastPostedContent w1) S u a = false) as Hquiet.
  { subst w1.
    destruct (handleSessionIdle_cases env cwd S w)
      as (w' & Hrun & Hmarks & _ & Hcases).
    rewrite Hrun in *. simpl in *. rewrite Hmarks.
    destruct Hcases as [[Hwhy Hw']|(u' & a' & _ & Hsome' & _ & Hcases)].
    - assert (lastPostedContent w' = lastPostedContent w) as ->
        by (by destruct Hw' as [-> | ->]).
      destruct Hwhy as [Hin|[Hnone|(u' & a' & Hsome' & Hdup)]];
        [by left|right..]; intros u a Hsome; congruence.
    - right. intros u a Hsome.
      rewrite Hsome in Hsome'. injection Hsome' as <- <-.
      destruct Hcases as [(T & _ & _ & _ & _ & _ & _ & -> & _)
                         |[(_ & id & _ & _ & _ & _ & ->)
                          |(Hfree & _ & Hfwd & _)]];
        [apply shouldPost_recorded|apply shouldPost_recorded|].
      rewrite Hfwd in Hbound. congruence. }
  destruct (handleSessionIdle_outcome env2 cwd S w1) as (w2 & Hrun & Hcases).
  rewrite Hrun.
  destruct Hcases as [[_ ->]|[Hout [[_ ->]|(u & a & Hsome & Hcases)]]];
    [by left|by right|].
  destruct Hcases as [[_ ->]|[Hnew _]]; [by right|].
  destruct Hquiet as [Hin|Hquiet]; [done|].
  rewrite Hmessages in Hsome. rewrite (Hquiet u a Hsome) in Hnew. done.
Qed.

Lemma handleSessionIdle_repeat_is_quiet_witness :
  let env := healthy fix_the_bug "1001" in
  let env2 := unreachable_thread fix_the_bug in
  let w1 := (handleSessionIdle env home abc123 initial_world).2 in
  handleSessionIdle env2 home abc123 w1 = (Ok tt, w1)
  ∨ handleSessionIdle env2 home abc123 w1
    = (Ok tt, with_effect (SessionMessages abc123) w1).
Proof.
  apply (handleSessionIdle_repeat_is_quiet
           (healthy fix_the_bug "1001") (unreachable_thread fix_the_bug)
           home abc123 initial_world);
    [reflexivity|vm_compute; reflexivity].
Defined.

End MirrorProperties.


(** ** The two endpoints, case by case *)

Section Endpoints.

#[local] Arguments postToSyncThread : simpl never.
#[local] Arguments createSyncThread : simpl never.
#[local] Arguments JS.truthy : simpl never.

(** All the ways [POST /sync/session] can be answered. *)
Lemma syncSession_cases (env : platform) (request : option session_request)
    (w : world) :
  ∃ resp w',
    syncSession env request w = (Ok resp, w')
    ∧ ((w' = w
        ∧ ((∃ error, resp = {| status := 400; body := ErrorBody error |})
           ∨ ∃ data S T,
               request = Some data ∧ req_sessionId data = Some S ∧ S ≠ []
               ∧ sessionToThread w !! S = Some T
               ∧ resp = {| status := 200; body := ThreadBody T true |}))
       ∨ ∃ data S r,
           request = Some data ∧ req_sessionId data = Some S ∧ S ≠ []
           ∧ sessionToThread w !! S = None
           ∧ createSyncThread env S
               (or_else (default [] (req_title data)) OPENCODE_SESSION)
               (req_directory data) w = (r, w')
           ∧ ((∃ t, r = Ok (Some t)
                    ∧ resp = {| status := 200;
                                body := ThreadBody (thread_id t) false |})
              ∨ (r = Ok None
                 ∧ ∃ error, resp = {| status := 500; body := ErrorBody error |})
              ∨ (r = Throw
                 ∧ ∃ error, resp = {| status := 400; body := ErrorBody error |}))).
Proof.
  unfold syncSession.
  destruct request as [[[[|c S]|] title directory]|]; run;
    try (eexists _, w; split; [done|]; left; split; [done|]; left; by eexists).
  change (JS.truthy (Some (c :: S))) with true. run.
  destruct (sessionToThread w !! (c :: S)) as [T|] eqn:Hbound; run.
  { eexists _, w. split; [done|]. left. split; [done|]. right.
    by eexists _, (c :: S), T. }
  destruct (createSyncThread env (c :: S)
              (or_else (default [] title) OPENCODE_SESSION) directory w)
    as [r w1] eqn:Hcreate.
  pose proof (createSyncThread_outcome _ _ _ _ _ _ _ Hcreate)
    as (_ & _ & _ & Hcases).
  destruct Hcases as [(id & _ & -> & _)|(_ & [-> | ->] & _)]; simpl;
    eexists _, w1; (split; [done|]); right;
    eexists _, (c :: S), _; (split_and!; [done..|]);
    [left; by eexists|right; left; split; [done|by eexists]
    |right; right; split; [done|by eexists]].
Qed.

(** [POST /sync/message] changes no store. *)
Lemma syncMessage_stores (env : platform) (request : option message_request)
    (w : world) :
  stores (syncMessage env request w).2 = stores w.
Proof.
  unfold syncMessage.
  destruct request as [[sessionId [[|c T]|] u a]|]; run; try done.
  all: try (destruct (JS.truthy sessionId); simpl; [|done]).
  all: try match goal with
           | |- context [option_bind ?A ?B ?f ?x] =>
               destruct (option_bind A B f x) as [[|c T]|]
           end; run; try done.
  all: change (JS.truthy (Some (c :: T))) with true; run.
  all: match goal with
       | |- context [postToSyncThread ?e ?t ?x ?y ?w0] =>
           destruct (postToSyncThread_stores e t x y w0) as [Hstores _];
           destruct (postToSyncThread_returns e t x y w0) as [posted_ Hret];
           destruct (postToSyncThread e t x y w0) as [r w1]
       end; simpl in *; by subst r.
Qed.

End Endpoints.

Section MessageEndpoint.

#[local] Arguments postToSyncThread : simpl never.

(** The thread a [/sync/message] request is for: the one it names, else
    the one its session is bound to. *)
Lemma syncMessage_cases (env : platform) (request : option message_request)
    (w : world) :
  let u := default [] (request ≫= mreq_userContent) in
  let a := default [] (request ≫= mreq_assistantContent) in
  ∃ resp w',
    syncMessage env request w = (Ok resp, w')
    ∧ ((w' = w
        ∧ JS.truthy (request ≫= mreq_threadId) = false
        ∧ (∃ error, resp = {| mstatus := 400; mbody := MessageError error |}))
       ∨ ∃ T (posted_ : bool),
           T ≠ []
           ∧ (if JS.truthy (request ≫= mreq_threadId)
              then request ≫= mreq_threadId = Some T
              else (request ≫= mreq_sessionId) ≫= getThread w = Some T)
           ∧ postToSyncThread env T u a w = (Ok posted_, w')
           ∧ resp = {| mstatus := (if posted_ then 200 else 500)%Z;
                       mbody := MessageSuccess posted_ |}).
Proof.
  unfold syncMessage, getThread.
  destruct request as [[[[|c S]|] [[|c' T]|] u a]|]; simpl; run;
    try (eexists _, w; split; [done|]; left; split_and!; [done|done|by eexists]).
  all: try match goal with
           | |- context [sessionToThread ?w0 !! ?s] =>
               destruct (sessionToThread w0 !! s) as [[|c' T]|] eqn:Hbound
           end; simpl; run;
    try (eexists _, w; split; [done|]; left; split_and!; [done|done|by eexists]).
  all: match goal with
       | |- context [postToSyncThread ?e ?t ?x ?y ?w0] =>
           destruct (postToSyncThread_returns e t x y w0) as [posted_ Hret];
           destruct (postToSyncThread e t x y w0) as [r w1] eqn:Hpost
       end; simpl in Hret; subst r; simpl;
    eexists _, w1; (split; [done|]); right;
    exists (c' :: T), posted_; by split_and!.
Qed.

End MessageEndpoint.

Section EndpointProperties.

#[local] Arguments postToSyncThread : simpl never.
#[local] Arguments createSyncThread : simpl never.

Lemma syncSession_existing (env : platform) (data : session_request)
    (S T : jsstring) (w : world) :
  req_sessionId data = Some S → S ≠ [] →
  sessionToThread w !! S = Some T →
  syncSession env (Some data) w
  = (Ok {| status := 200; body := ThreadBody T true |}, w).
Proof.
  intros HS Hne Hbound. unfold syncSession. rewrite HS.
  destruct S as [|c S]; [done|]. run. by rewrite Hbound.
Qed.

(** X13.  [POST /sync/session] is always answered, with 200, 400 or 500,
    and never touches the ledger or the provenance set.  A 200 carries the
    thread the session is bound to once the request is served: the thread
    it was bound to before, flagged as existing, with nothing changed, or
    a thread created for a session that had none, bound in both
    directions and subscribed.  A 400 or a 500 carries an error and leaves
    both maps and the subscriptions as they were. *)
Theorem syncSession_answer_matches_registry
    (env : platform) (request : option session_request) (w : world) :
  ∃ resp w',
    syncSession env request w = (Ok resp, w')
    ∧ lastPostedContent w' = lastPostedContent w
    ∧ discordInitiatedSessions w' = discordInitiatedSessions w
    ∧ ((status resp = 200%Z
        ∧ ∃ S T existing,
            request ≫= req_sessionId = Some S
            ∧ body resp = ThreadBody T existing
            ∧ getThread w' S = Some T
            ∧ (if existing then w' = w
               else getThread w S = None
                    ∧ getSession w' T = Some S
                    ∧ T ∈ subscribedThreads w'))
       ∨ ((status resp = 400%Z ∨ status resp = 500%Z)
          ∧ (∃ error, body resp = ErrorBody error)
          ∧ sessionToThread w' = sessionToThread w
          ∧ threadToSession w' = threadToSession w
          ∧ subscribedThreads w' = subscribedThreads w)).
Proof.
  destruct (syncSession_cases env request w) as (resp & w' & Hrun & Hcases).
  exists resp, w'. split; [done|]. unfold getThread, getSession.
  destruct Hcases as [[-> [[error ->]|(data & S & T & -> & HS & _ & Hbound & ->)]]
                     |(data & S & r & -> & HS & _ & Hfree & Hcreate & Hcases)].
  { split_and!; [done|done|]. right. split_and!; try done; [by left|by eexists]. }
  { split_and!; [done|done|]. left. split; [done|]. by exists S, T, true. }
  pose proof (createSyncThread_outcome _ _ _ _ _ _ _ Hcreate)
    as (Hledger & Hmarks & _ & Hcreated).
  split_and!; [done|done|].
  destruct Hcases as [(t & -> & ->)|[[-> [error ->]]|[-> [error ->]]]];
    (destruct Hcreated as [(id & _ & Hr & Hfwd & Hrev & Hsub)
                          |(_ & Hr & Hfwd & Hrev & Hsub)]);
    try (by destruct Hr); try discriminate Hr.
  - injection Hr as ->. simpl. left. split; [done|].
    exists S, id, false. rewrite Hfwd, Hrev, Hsub, !lookup_insert_eq.
    split_and!; try done.
    apply elem_of_union_l. by apply elem_of_singleton.
  - right. split_and!; try done; [by right|by eexists].
  - right. split_and!; try done; [by left|by eexists].
Qed.

(** X14.  Asking [/sync/session] again for a session whose request was
    answered with a thread gives that same thread, flagged as existing,
    whatever title and directory the second request carries and whatever
    the platform would do: no call is made and nothing changes. *)
Theorem syncSession_replay
    (env env2 : platform) (request : option session_request)
    (again : session_request) (w : world) (resp : response)
    (T : jsstring) (existing : bool) :
  (syncSession env request w).1 = Ok resp →
  body resp = ThreadBody T existing →
  req_sessionId again = request ≫= req_sessionId →
  let w' := (syncSession env request w).2 in
  syncSession env2 (Some again) w'
  = (Ok {| status := 200; body := ThreadBody T true |}, w').
Proof.
  intros Hresp Hbody Hsame w'. subst w'.
  destruct (syncSession_cases env request w) as (resp' & w' & Hrun & Hcases).
  rewrite Hrun in *. simpl in *. injection Hresp as ->.
  destruct Hcases as [[-> [[error ->]|(data & S & T' & -> & HS & Hne & Hbound & ->)]]
                     |(data & S & r & -> & HS & Hne & Hfree & Hcreate & Hcases)].
  - discriminate Hbody.
  - injection Hbody as -> _. simpl in Hsame. rewrite HS in Hsame.
    by apply syncSession_existing with S.
  - simpl in Hsame. rewrite HS in Hsame.
    pose proof (createSyncThread_outcome _ _ _ _ _ _ _ Hcreate)
      as (_ & _ & _ & Hcreated).
    destruct Hcases as [(t & -> & ->)|[[-> [error ->]]|[-> [error ->]]]];
      [|discriminate Hbody..].
    injection Hbody as <- _.
    destruct Hcreated as [(id & _ & Hr & Hfwd & _)|(_ & [Hr|Hr] & _)];
      [|discriminate Hr..].
    injection Hr as ->. simpl.
    apply syncSession_existing with S; [done|done|].
    by rewrite Hfwd, lookup_insert_eq.
Qed.

Lemma syncSession_replay_witness :
  let env := healthy fix_the_bug "1001" in
  let first :=
    Some {| req_sessionId := Some abc123; req_title := Some (JS.lit "Fix");
            req_directory := Some home |} in
  let again :=
    {| req_sessionId := Some abc123; req_title := None;
       req_directory := None |} in
  let w' := (syncSession env first initial_world).2 in
  syncSession (unreachable_thread []) (Some again) w'
  = (Ok {| status := 200; body := ThreadBody (JS.lit "1001") true |}, w').
Proof.
  apply (syncSession_replay (healthy fix_the_bug "1001") (unreachable_thread [])
           _ _ initial_world
           {| status := 200; body := ThreadBody (JS.lit "1001") false |}
           (JS.lit "1001") false);
    vm_compute; reflexivity.
Defined.

(** X15.  [POST /sync/message] is always answered, with 200, 400 or 500,
    and changes no store.  A 400 is sent before any call to the platform.
    A 200 means that the thread was fetched and every labelled segment of
    both texts was sent to it, in order.  A request that names a thread is
    never answered 400, and it is that thread which is fetched, whatever
    the session of the request is bound to. *)
Theorem syncMessage_answer
    (env : platform) (request : option message_request) (w : world) :
  let u := default [] (request ≫= mreq_userContent) in
  let a := default [] (request ≫= mreq_assistantContent) in
  ∃ resp w',
    syncMessage env request w = (Ok resp, w')
    ∧ stores w' = stores w
    ∧ (mstatus resp = 200%Z ∨ mstatus resp = 400%Z ∨ mstatus resp = 500%Z)
    ∧ (mstatus resp = 400%Z → w' = w)
    ∧ (mstatus resp = 200%Z →
       ∃ T, T ≠ []
            ∧ trace w' = trace w ++ ChannelsFetch T
                           :: (ThreadSend T <$> posted_messages u a))
    ∧ (∀ T, request ≫= mreq_threadId = Some T → T ≠ [] →
            mstatus resp ≠ 400%Z
            ∧ trace w' !! List.length (trace w) = Some (ChannelsFetch T)).
Proof.
  intros u a.
  destruct (syncMessage_cases env request w) as (resp & w' & Hrun & Hcases).
  fold u a in Hcases. exists resp, w'. split; [done|].
  split; [by rewrite <- (syncMessage_stores env request w), Hrun|].
  destruct Hcases as [(-> & Hnone & error & ->)
                     |(T & posted_ & Hne & Htarget & Hpost & ->)].
  { simpl. split_and!; [by right; left|done|done|].
    intros T HT Hne. rewrite HT in Hnone. by destruct T. }
  destruct (postToSyncThread_trace env T u a w)
    as (n & posted_' & Hres & Htrace & _ & Hall).
  rewrite Hpost in Hres, Htrace. simpl in Hres, Htrace.
  injection Hres as <-. simpl.
  split_and!.
  - destruct posted_; [by left|by right; right].
  - by destruct posted_.
  - destruct posted_; [|done]. intros _. exists T. split; [done|].
    by rewrite Htrace, take_ge by (by apply Hall).
  - intros T' HT' Hne'. split; [by destruct posted_|].
    rewrite HT' in Htarget. destruct T' as [|c T']; [done|]. simpl in Htarget.
    injection Htarget as <-.
    by rewrite Htrace, list_lookup_middle.
Qed.

End EndpointProperties.

(** ** Invariants of the sync state *)

Section RegistryInvariant.

#[local] Arguments postToSyncThread : simpl never.
#[local] Arguments createSyncThread : simpl never.
#[local] Arguments JS.truthy : simpl never.

(** What one event of the feed does to the stores: it schedules the mirror
    handler for an idle session, or forgets a deleted one. *)
Lemma processEvent_effect (e : event) (w : world) :
  let w' := (processEvent e w).2 in
  threadToSession w' = threadToSession w
  ∧ subscribedThreads w' = subscribedThreads w
  ∧ syncChannel w' = syncChannel w
  ∧ timers w'
    = timers w ++ match idle_session e with
                  | Some id => [(CallHandleSessionIdle id, 100%Z)]
                  | None => []
                  end
  ∧ sessionToThread w'
    = from_option (λ id, delete id (sessionToThread w)) (sessionToThread w)
        (deleted_session e)
  ∧ lastPostedContent w'
    = from_option (λ id, delete id (lastPostedContent w)) (lastPostedContent w)
        (deleted_session e)
  ∧ discordInitiatedSessions w'
    = from_option (λ id, discordInitiatedSessions w ∖ {[id]})
        (discordInitiatedSessions w) (deleted_session e).
Proof.
  unfold processEvent, idle_session, deleted_session.
  destruct e as [type [[[[|c1 id1]|] [[|c2 id2]|] statusType]|]]; simpl;
    repeat (match goal with
            | |- context [bool_decide ?P] => destruct (bool_decide P)
            end; simpl);
    run; rewrite ?app_nil_r; done.
Qed.

(** What one operation does to the registry: nothing (a subscription
    apart), or it forgets one session, or it binds one session to the
    thread the platform has just started. *)
Lemma perform_registry (op : operation) (w : world) :
  let w' := perform op w in
  (sessionToThread w' = sessionToThread w
   ∧ threadToSession w' = threadToSession w
   ∧ subscribedThreads w ⊆ subscribedThreads w')
  ∨ (∃ S, sessionToThread w' = delete S (sessionToThread w)
          ∧ threadToSession w' = threadToSession w
          ∧ subscribedThreads w' = subscribedThreads w)
  ∨ (∃ env S id, operation_env op = Some env
                 ∧ start_thread env = Some id
                 ∧ sessionToThread w' = <[S := id]> (sessionToThread w)
                 ∧ threadToSession w' = <[id := S]> (threadToSession w)
                 ∧ subscribedThreads w' = {[id]} ∪ subscribedThreads w).
Proof.
  destruct op as [env cwd S|env request|env request|e|env|S|T]; simpl.
  - destruct (handleSessionIdle_cases env cwd S w)
      as (w' & -> & _ & _ & Hcases). simpl.
    destruct Hcases as [[_ [->| ->]]|(u & a & _ & _ & _ & Hcases)];
      [by left|by left|].
    destruct Hcases as [(T & _ & _ & -> & -> & -> & _)
                       |[(_ & id & Hcreates & -> & -> & -> & _)
                        |(_ & _ & -> & -> & -> & _)]];
      [by left| |by left].
    right; right. exists env, S, id. split_and!; try done. apply Hcreates.
  - destruct (syncSession_cases env request w) as (resp & w' & -> & Hcases).
    simpl.
    destruct Hcases as [[-> _]|(data & S & r & _ & _ & _ & _ & Hcreate & _)];
      [by left|].
    pose proof (createSyncThread_outcome _ _ _ _ _ _ _ Hcreate)
      as (_ & _ & _ & Hcreated).
    destruct Hcreated as [(id & Hcreates & _ & -> & -> & ->)
                         |(_ & _ & -> & -> & ->)]; [|by left].
    right; right. exists env, S, id. split_and!; try done. apply Hcreates.
  - pose proof (syncMessage_stores env request w) as Hstores.
    unfold stores in Hstores. injection Hstores as -> -> -> _ _ _ _.
    by left.
  - destruct (processEvent_effect e w) as (-> & -> & _ & _ & -> & _).
    destruct (deleted_session e) as [S|]; [right; left; by exists S|by left].
  - left. unfold ensureSyncChannel. run. by destruct (ensure_channel env).
  - by left.
  - left. split_and!; [done|done|]. apply union_subseteq_r.
Qed.

(** X16.  Every operation that writes the sync state keeps the registry
    consistent: a session that is bound to a thread is the session that
    thread resolves to, and the thread is subscribed, so that a reply in
    the thread reaches the session.  (The thread id the platform hands out
    is one that is not in use.) *)
Theorem registry_stays_consistent (op : operation) (w : world) :
  registry_consistent w →
  (∀ env, operation_env op = Some env → fresh_thread env w) →
  registry_consistent (perform op w).
Proof.
  intros Hw Hfresh.
  destruct (perform_registry op w)
    as [(Hfwd & Hrev & Hsub)
       |[(S & Hfwd & Hrev & Hsub)
        |(env & S & id & Henv & Hid & Hfwd & Hrev & Hsub)]];
    intros S1 T1; rewrite Hfwd, Hrev.
  - intros Hbound. destruct (Hw S1 T1 Hbound) as [Hback Hin].
    split; [done|]. by apply Hsub.
  - rewrite Hsub. intros [_ Hbound]%lookup_delete_Some. by apply Hw.
  - rewrite Hsub. pose proof (Hfresh env Henv id Hid) as Hunused.
    intros [[<- <-]|[Hother Hbound]]%lookup_insert_Some.
    + rewrite lookup_insert_eq. split; [done|].
      apply elem_of_union_l. by apply elem_of_singleton.
    + destruct (Hw S1 T1 Hbound) as [Hback Hin].
      rewrite lookup_insert_ne by congruence.
      split; [done|]. by apply elem_of_union_r.
Qed.

Lemma registry_stays_consistent_witness :
  registry_consistent
    (perform (HandleIdle (healthy fix_the_bug "1001") home abc123)
       initial_world).
Proof.
  apply (registry_stays_consistent
           (HandleIdle (healthy fix_the_bug "1001") home abc123) initial_world).
  - intros S T Hbound. vm_compute in Hbound. discriminate Hbound.
  - intros env Henv id Hid. reflexivity.
Defined.

Lemma perform_keeps_route (op : operation) (w : world) (T S : jsstring) :
  getSession w T = Some S →
  (∀ env, operation_env op = Some env → fresh_thread env w) →
  getSession (perform op w) T = Some S.
Proof.
  unfold getSession. intros Hroute Hfresh.
  destruct (perform_registry op w)
    as [(_ & -> & _)
       |[(S1 & _ & -> & _)
        |(env & S1 & id & Henv & Hid & _ & -> & _)]]; [done|done|].
  pose proof (Hfresh env Henv id Hid) as Hunused.
  rewrite lookup_insert_ne by congruence. done.
Qed.

(** X17.  No operation ever takes a thread out of the reverse map or out
    of the subscriptions: a thread that resolves to a session keeps
    resolving to it, also after the session is deleted or bound to another
    thread, and a subscribed thread stays subscribed.  (The thread id the
    platform hands out is one that is not in use.) *)
Theorem routing_is_kept (op : operation) (w : world) (T S : jsstring) :
  getSession w T = Some S →
  (∀ env, operation_env op = Some env → fresh_thread env w) →
  getSession (perform op w) T = Some S
  ∧ (T ∈ subscribedThreads w → T ∈ subscribedThreads (perform op w)).
Proof.
  unfold getSession. intros Hroute Hfresh.
  destruct (perform_registry op w)
    as [(_ & -> & Hsub)
       |[(S1 & _ & -> & ->)
        |(env & S1 & id & Henv & Hid & _ & -> & ->)]].
  - split; [done|]. apply Hsub.
  - done.
  - pose proof (Hfresh env Henv id Hid) as Hunused.
    rewrite lookup_insert_ne by congruence.
    split; [done|]. apply elem_of_union_r.
Qed.

Lemma routing_is_kept_witness :
  let w := bound_world abc123 (JS.lit "1001") in
  getSession (perform (ProcessEvent (deleted_event abc123)) w) (JS.lit "1001")
  = Some abc123
  ∧ (JS.lit "1001" ∈ subscribedThreads w →
     JS.lit "1001"
     ∈ subscribedThreads (perform (ProcessEvent (deleted_event abc123)) w)).
Proof.
  apply (routing_is_kept (ProcessEvent (deleted_event abc123))
           (bound_world abc123 (JS.lit "1001")) (JS.lit "1001") abc123).
  - vm_compute. reflexivity.
  - intros env Henv. discriminate Henv.
Defined.

End RegistryInvariant.

(** ** The feed and the mirror handler together *)

Section FeedAndMirror.

#[local] Arguments postToSyncThread : simpl never.
#[local] Arguments createSyncThread : simpl never.
#[local] Arguments shouldPost : simpl never.

(** X18.  The loop over the feed never throws, whatever the events hold,
    and makes no call.  It schedules the mirror handler once, 100 ms
    later, for every event that announces an idle session, in the order of
    the feed, and schedules nothing else.  It forgets the binding, the
    ledger entry and the provenance of every session announced as deleted,
    and nothing else; it never touches the reverse map or the
    subscriptions. *)
Theorem for_await_schedules (events : list event) (w : world) :
  let idle := omap idle_session events in
  let deleted := omap deleted_session events in
  ∃ w',
    for_await events w = (Ok tt, w')
    ∧ trace w' = trace w
    ∧ timers w'
      = timers w ++ ((λ id, (CallHandleSessionIdle id, 100%Z)) <$> idle)
    ∧ sessionToThread w'
      = foldl (λ m id, delete id m) (sessionToThread w) deleted
    ∧ lastPostedContent w'
      = foldl (λ m id, delete id m) (lastPostedContent w) deleted
    ∧ discordInitiatedSessions w'
      = foldl (λ s id, s ∖ {[id]}) (discordInitiatedSessions w) deleted
    ∧ threadToSession w' = threadToSession w
    ∧ subscribedThreads w' = subscribedThreads w.
Proof.
  revert w. induction events as [|e events IH]; intros w; simpl.
  - exists w. by rewrite app_nil_r.
  - destruct (processEvent_frame e w) as (w1 & Hrun & Htrace & _).
    destruct (processEvent_effect e w)
      as (Hrev & Hsub & _ & Htimers & Hfwd & Hledger & Hmarks).
    rewrite Hrun in Hrev, Hsub, Htimers, Hfwd, Hledger, Hmarks.
    simpl in Hrev, Hsub, Htimers, Hfwd, Hledger, Hmarks.
    destruct (IH w1)
      as (w2 & Hrun2 & Htrace2 & Htimers2 & Hfwd2 & Hledger2 & Hmarks2
          & Hrev2 & Hsub2).
    exists w2. unfold mbind, M_bind, bind. rewrite Hrun, Hrun2.
    rewrite Htrace2, Htimers2, Hfwd2, Hledger2, Hmarks2, Hrev2, Hsub2.
    rewrite Htrace, Htimers, Hfwd, Hledger, Hmarks, Hrev, Hsub, <- app_assoc.
    by destruct (idle_session e), (deleted_session e).
Qed.




End FeedAndMirror.

(** ** The model menu, any page *)

Section AnyPage.

Lemma slice_page {A} (s : list A) (start : Z) :
  (0 ≤ start)%Z →
  JS.slice s start (start + 20) = take 20 (drop (Z.to_nat start) s).
Proof.
  intros Hstart. unfold JS.slice, JS.relative_index.
  destruct (Z.ltb_spec start 0); [lia|].
  destruct (Z.ltb_spec (start + 20) 0); [lia|].
  destruct (decide (start + 20 ≤ Z.of_nat (List.length s))%Z).
  - f_equal; [lia|f_equal; lia].
  - destruct (decide (start ≤ Z.of_nat (List.length s))%Z).
    + rewrite Z.min_r, Z.min_l by lia.
      rewrite !take_ge by (rewrite length_drop; lia). done.
    + rewrite !Z.min_r by lia.
      rewrite !drop_ge by lia. by rewrite !take_nil.
Qed.

Lemma row_loop_step (pageModels : list model) (start : Z)
    (currentModel : jsstring) (bound j : nat)
    (row : list button) (buttonMap : gmap Z model) :
  row_loop pageModels start currentModel bound j row buttonMap
  = if decide (j < bound) then
      match pageModels !! j with
      | Some m =>
          row_loop pageModels start currentModel bound (S j)
            (row ++ [model_button (start + Z.of_nat j) m
                       (bool_decide (model_id m = currentModel))])
            (<[(start + Z.of_nat j)%Z := m]> buttonMap)
      | None => None
      end
    else Some (row, buttonMap).
Proof.
  rewrite row_loop_equation_1.
  destruct (decide (j < bound)); simpl; [|done].
  by destruct (pageModels !! j).
Qed.

Lemma rows_loop_step (pageModels : list model) (start : Z)
    (currentModel : jsstring) (i : nat)
    (rows : list (list button)) (buttonMap : gmap Z model) :
  rows_loop pageModels start currentModel i rows buttonMap
  = if decide (i < List.length pageModels) then
      match row_loop pageModels start currentModel
              (Nat.min (i + buttonsPerRow) (List.length pageModels)) i []
              buttonMap with
      | Some (row, buttonMap') =>
          rows_loop pageModels start currentModel (i + buttonsPerRow)
            (rows ++ [row]) buttonMap'
      | None => None
      end
    else Some (rows, buttonMap).
Proof.
  rewrite rows_loop_equation_1.
  destruct (decide (i < List.length pageModels)); simpl; [|done].
  by destruct (row_loop _ _ _ _ _ _ _) as [[row bm]|].
Qed.

(** The inner loop adds the controls of the models at [j], ..., [bound - 1]
    to the row, and stores those models at their global indices. *)
Lemma row_loop_spec (pageModels : list model) (start : Z)
    (currentModel : jsstring) (bound : nat) :
  bound ≤ List.length pageModels →
  ∀ n j row buttonMap,
    j + n = bound →
    ∃ buttonMap',
      row_loop pageModels start currentModel bound j row buttonMap
      = Some (row ++ take n (drop j (page_buttons start currentModel pageModels)),
              buttonMap')
      ∧ ∀ k, buttonMap' !! k
             = if decide (start + Z.of_nat j ≤ k < start + Z.of_nat bound)%Z
               then pageModels !! Z.to_nat (k - start)
               else buttonMap !! k.
Proof.
  intros Hbound. induction n as [|n IH]; intros j row buttonMap Hj.
  - rewrite row_loop_step. destruct (decide (j < bound)); [lia|].
    exists buttonMap. rewrite take_0, app_nil_r. split; [done|].
    intros k. destruct (decide _); [lia|done].
  - rewrite row_loop_step. destruct (decide (j < bound)); [|lia].
    destruct (lookup_lt_is_Some_2 pageModels j) as [m Hm]; [lia|].
    rewrite Hm.
    destruct (IH (S j)
                (row ++ [model_button (start + Z.of_nat j) m
                           (bool_decide (model_id m = currentModel))])
                (<[(start + Z.of_nat j)%Z := m]> buttonMap))
      as (buttonMap' & -> & Hmap); [lia|].
    exists buttonMap'. split.
    + rewrite <- app_assoc. do 2 f_equal. simpl.
      rewrite (drop_S (page_buttons start currentModel pageModels)
                 (model_button (start + Z.of_nat j) m
                    (bool_decide (model_id m = currentModel))) j); [done|].
      unfold page_buttons. by rewrite list_lookup_imap, Hm.
    + intros k. rewrite Hmap.
      destruct (decide (k = start + Z.of_nat j)%Z) as [->|Hk].
      * rewrite lookup_insert_eq.
        destruct (decide _); [lia|]. destruct (decide _); [|lia].
        replace (Z.to_nat (start + Z.of_nat j - start)) with j by lia. done.
      * rewrite lookup_insert_ne by done.
        repeat destruct (decide _); try lia; done.
Qed.

(** The outer loop adds the rows of five from row [q] on. *)
Lemma rows_loop_spec (pageModels : list model) (start : Z)
    (currentModel : jsstring) :
  let shown := page_buttons start currentModel pageModels in
  ∀ n q rows buttonMap,
    List.length pageModels ≤ 5 * (q + n) →
    List.length rows = q →
    ∃ rows' buttonMap',
      rows_loop pageModels start currentModel (5 * q) rows buttonMap
      = Some (rows', buttonMap')
      ∧ (∀ q', rows' !! q'
               = if decide (q' < q) then rows !! q'
                 else if decide (5 * q' < List.length shown)
                      then Some (take 5 (drop (5 * q') shown))
                      else None)
      ∧ ∀ k, buttonMap' !! k
             = if decide (start + Z.of_nat (5 * q) ≤ k
                          < start + Z.of_nat (List.length pageModels))%Z
               then pageModels !! Z.to_nat (k - start)
               else buttonMap !! k.
Proof.
  intros shown.
  assert (List.length shown = List.length pageModels) as Hshown
    by apply length_imap.
  induction n as [|n IH]; intros q rows buttonMap Hlen Hrows;
    rewrite rows_loop_step;
    destruct (decide (5 * q < List.length pageModels)) as [Hmore|Hdone];
    try lia.
  1, 3: exists rows, buttonMap; split; [done|]; split;
    [ intros q'; destruct (decide (q' < q)); [done|];
      destruct (decide _); [lia|];
      apply lookup_ge_None_2; lia
    | intros k; destruct (decide _); [lia|done] ].
  set (bound := Nat.min (5 * q + buttonsPerRow) (List.length pageModels)).
  destruct (row_loop_spec pageModels start currentModel bound
              ltac:(unfold bound; lia) (bound - 5 * q) (5 * q) [] buttonMap)
    as (buttonMap1 & -> & Hmap1); [unfold bound, buttonsPerRow; lia|].
  cbv beta iota. rewrite app_nil_l.
  replace (5 * q + buttonsPerRow) with (5 * (S q))
    by (unfold buttonsPerRow; lia).
  destruct (IH (S q)
              (rows ++ [take (bound - 5 * q)
                          (drop (5 * q)
                             (page_buttons start currentModel pageModels))])
              buttonMap1)
    as (rows' & buttonMap' & -> & Hrows' & Hmap');
    [lia|rewrite length_app; simpl; lia|].
  exists rows', buttonMap'. split; [done|]. split.
  - intros q'. rewrite Hrows'.
    destruct (decide (q' < S q)), (decide (q' < q)); try lia.
    + by rewrite lookup_app_l by lia.
    + assert (q' = q) as -> by lia.
      rewrite list_lookup_middle by done.
      destruct (decide _); [|lia]. f_equal. fold shown.
      destruct (decide (5 * q + 5 ≤ List.length pageModels)).
      * f_equal. unfold bound, buttonsPerRow. lia.
      * rewrite !take_ge; [done|rewrite length_drop; lia|].
        rewrite length_drop. unfold bound, buttonsPerRow. lia.
    + done.
  - intros k. rewrite Hmap', Hmap1.
    unfold bound, buttonsPerRow.
    repeat destruct (decide _); try lia; done.
Qed.

(** The map the pagination branch stores: the models of the page at their
    global indices. *)
Lemma renderModelsPage_stored
    (models : list model) (currentModel : jsstring) (page : Z) :
  (0 ≤ page)%Z →
  ∃ v,
    renderModelsPage models currentModel page = Some v
    ∧ ∀ k, stored v !! k
           = if decide (page * 20 ≤ k)%Z
             then page_models models page !! Z.to_nat (k - page * 20)
             else None.
Proof.
  intros Hpage.
  assert (List.length (page_models models page) ≤ 20) as Hpm
    by (unfold page_models; rewrite length_take; lia).
  destruct (rows_loop_spec (page_models models page) (page * 20) currentModel
              4 0 [] ∅)
    as (model_rows & buttonMap & Hloop & _ & Hmap); [lia|done|].
  change (5 * 0) with 0 in Hloop.
  unfold renderModelsPage. change pageSize with 20%Z.
  rewrite slice_page by lia.
  replace (take 20 (drop (Z.to_nat (page * 20)) models))
    with (page_models models page) by done.
  rewrite Hloop. simpl. eexists. split; [reflexivity|]. simpl.
  intros k. rewrite Hmap, lookup_empty. simpl.
  destruct (decide (page * 20 ≤ k)%Z).
  - destruct (decide _); [done|]. symmetry. apply lookup_ge_None_2. lia.
  - destruct (decide _); [lia|done].
Qed.

(** X20.  For any list of models and any page from 0 on, the pagination
    branch renders without error.  The controls of the models of the page
    (the twenty from index [20 * page] on, or those that are left) come
    in rows of five in the order of the list, the last row holding the
    rest; the control of the model at global index [k] carries [k] in
    its custom id, and the stored map sends exactly these [k] to their
    models.  A navigation row follows when there is a previous or a next
    page.  The message never exceeds five rows of one to five controls. *)
Theorem renderModelsPage_any_page
    (models : list model) (currentModel : jsstring) (page : Z) :
  (0 ≤ page)%Z →
  let start := (page * 20)%Z in
  let pageModels := page_models models page in
  let shown := page_buttons start currentModel pageModels in
  ∃ v model_rows,
    renderModelsPage models currentModel page = Some v
    ∧ components v
      = model_rows ++ match navigation models page with
                      | [] => []
                      | nav => [nav]
                      end
    ∧ (∀ q, model_rows !! q
            = if decide (5 * q < List.length shown)
              then Some (take 5 (drop (5 * q) shown))
              else None)
    ∧ (∀ k, stored v !! k
            = if decide (start ≤ k)%Z
              then pageModels !! Z.to_nat (k - start)
              else None)
    ∧ List.length (components v) ≤ 5
    ∧ Forall (λ row, 1 ≤ List.length row ≤ 5) (components v).
Proof.
  intros Hpage start pageModels shown.
  assert (List.length pageModels ≤ 20) as Hpm
    by (unfold pageModels, page_models; rewrite length_take; lia).
  assert (List.length shown = List.length pageModels) as Hshown
    by apply length_imap.
  destruct (rows_loop_spec pageModels start currentModel 4 0 [] ∅)
    as (model_rows & buttonMap & Hloop & Hrows & Hmap); [lia|done|].
  fold shown in Hrows. change (5 * 0) with 0 in Hloop.
  assert (List.length model_rows ≤ 4) as Hcount.
  { destruct (decide (List.length model_rows ≤ 4)) as [|Hmany]; [done|].
    destruct (lookup_lt_is_Some_2 model_rows 4) as [row Hrow]; [lia|].
    rewrite Hrows in Hrow. destruct (decide (4 < 0)); [lia|].
    destruct (decide _); [lia|done]. }
  assert (Forall (λ row : list button, 1 ≤ List.length row ≤ 5) model_rows)
    as Hsizes.
  { apply Forall_lookup. intros q row Hrow. rewrite Hrows in Hrow.
    destruct (decide (q < 0)); [lia|].
    destruct (decide _); [|done]. injection Hrow as <-.
    rewrite length_take, length_drop. lia. }
  unfold renderModelsPage. change pageSize with 20%Z. fold start.
  rewrite slice_page by lia.
  replace (take 20 (drop (Z.to_nat start) models)) with pageModels by done.
  rewrite Hloop. simpl. unfold navigation. fold start.
  eexists _, model_rows. split; [reflexivity|]. simpl.
  split_and!.
  - destruct (0 <? page)%Z,
      (start + 20 <? Z.of_nat (List.length models))%Z; simpl;
      by rewrite ?app_nil_r.
  - intros q. rewrite Hrows. by destruct (decide (q < 0)); [lia|].
  - intros k. rewrite Hmap, lookup_empty. simpl.
    destruct (decide (start ≤ k)%Z).
    + destruct (decide _); [done|].
      symmetry. apply lookup_ge_None_2. lia.
    + destruct (decide _); [lia|done].
  - destruct (0 <? page)%Z,
      (start + 20 <? Z.of_nat (List.length models))%Z; simpl;
      rewrite ?length_app; simpl; lia.
  - destruct (0 <? page)%Z,
      (start + 20 <? Z.of_nat (List.length models))%Z; simpl;
      rewrite ?Forall_app, ?Forall_singleton; simpl;
      first [done | split; [done|lia]].
Qed.

Lemma renderModelsPage_any_page_witness :
  let models := numbered_model <$> seq 0 47 in
  ∃ v, renderModelsPage models (JS.lit "provider/model-41") 1 = Some v
       ∧ List.length (components v) ≤ 5.
Proof.
  intros models.
  destruct (renderModelsPage_any_page models (JS.lit "provider/model-41") 1)
    as (v & model_rows & Hview & _ & _ & _ & Hcount & _); [lia|].
  exists v. split; [exact Hview|exact Hcount].
Defined.

End AnyPage.

(** ** From the catalogue to the backend *)

Section Selection.

Lemma getAvailableModels_keys (p : provider) (keys : list jsstring)
    (models : list model) :
  foldl (λ models modelId,
           models
           ++ [{| model_id := provider_id p ++ [SLASH] ++ modelId;
                  model_name := provider_name p ++ [JS.SPACE] ++ modelId |}])
        models keys
  = models
    ++ ((λ modelId, {| model_id := provider_id p ++ [SLASH] ++ modelId;
                       model_name := provider_name p ++ [JS.SPACE] ++ modelId |})
          <$> keys).
Proof.
  revert models. induction keys as [|key keys IH]; intros models; simpl.
  - by rewrite app_nil_r.
  - by rewrite IH, <- app_assoc.
Qed.

Lemma getAvailableModels_listed (listed : list provider) (models : list model) :
  foldl (λ models p,
           match provider_models p with
           | Some keys =>
               foldl (λ models modelId,
                        models
                        ++ [{| model_id := provider_id p ++ [SLASH] ++ modelId;
                               model_name :=
                                 provider_name p ++ [JS.SPACE] ++ modelId |}])
                     models keys
           | None => models
           end)
        models listed
  = models
    ++ (listed ≫= λ p,
          (λ modelId, {| model_id := provider_id p ++ [SLASH] ++ modelId;
                         model_name := provider_name p ++ [JS.SPACE] ++ modelId |})
            <$> default [] (provider_models p)).
Proof.
  revert models. induction listed as [|p listed IH]; intros models; simpl.
  - by rewrite app_nil_r.
  - rewrite IH. destruct (provider_models p) as [keys|]; simpl.
    + by rewrite getAvailableModels_keys, <- app_assoc.
    + done.
Qed.

(** X21.  Every model of the catalogue comes from one listed provider and
    one key of its models.  When a user
    selects it, [getUserModel] returns its id for that user whatever the
    configured default, and, for a provider id without a slash,
    [parseModelId] reads that id back as the provider and the key it was
    built from, with the slashes the key may hold. *)
Theorem selected_model_reaches_backend
    (listed : list provider) (m : model)
    (userModels : gmap jsstring jsstring) (OPENCODE_MODEL : option jsstring)
    (userId : jsstring) :
  m ∈ getAvailableModels (Some listed) →
  ∃ p key,
    p ∈ listed
    ∧ key ∈ default [] (provider_models p)
    ∧ model_id m = provider_id p ++ [SLASH] ++ key
    ∧ getUserModel (<[userId := model_id m]> userModels) OPENCODE_MODEL userId
      = model_id m
    ∧ ((SLASH ∉ provider_id p) →
       parseModelId
         (getUserModel (<[userId := model_id m]> userModels)
            OPENCODE_MODEL userId)
       = {| providerID := Some (provider_id p); modelID := key |}).
Proof.
  unfold getAvailableModels. rewrite getAvailableModels_listed, app_nil_l.
  intros (p & (key & -> & Hkey)%list_elem_of_fmap & Hp)%list_elem_of_bind.
  exists p, key. simpl.
  assert (getUserModel
            (<[userId := provider_id p ++ SLASH :: key]> userModels)
            OPENCODE_MODEL userId
          = provider_id p ++ SLASH :: key) as ->.
  { unfold getUserModel. rewrite lookup_insert_eq.
    by destruct (provider_id p). }
  split_and!; [done|done|done|done|].
  intros Hfree. unfold parseModelId.
  rewrite (split_on_prefix _ _ _ Hfree). by rewrite join_split_on.
Qed.

Lemma selected_model_reaches_backend_witness :
  let openrouter :=
    {| provider_id := JS.lit "openrouter"; provider_name := JS.lit "OpenRouter";
       provider_models := Some [JS.lit "meta/llama"] |} in
  let m := {| model_id := JS.lit "openrouter/meta/llama";
              model_name := JS.lit "OpenRouter meta/llama" |} in
  ∃ p key,
    p ∈ [openrouter]
    ∧ key ∈ default [] (provider_models p)
    ∧ model_id m = provider_id p ++ [SLASH] ++ key
    ∧ getUserModel (<[JS.lit "42" := model_id m]> ∅) None (JS.lit "42")
      = model_id m
    ∧ ((SLASH ∉ provider_id p) →
       parseModelId
         (getUserModel (<[JS.lit "42" := model_id m]> ∅) None (JS.lit "42"))
       = {| providerID := Some (provider_id p); modelID := key |}).
Proof.
  intros openrouter m.
  apply (selected_model_reaches_backend [openrouter] m ∅ None (JS.lit "42")).
  vm_compute. left.
Defined.

Lemma find_model_app (older newer : button_maps) (idx : Z) :
  find_model (older ++ newer) idx
  = match find_model older idx with
    | Some m => Some m
    | None => find_model newer idx
    end.
Proof.
  induction older as [|[id buttonMap] older IH]; simpl; [done|].
  by destruct (buttonMap !! idx).
Qed.

Lemma set_buttonMap_fresh (interactionId : jsstring) (buttonMap : gmap Z model)
    (modelButtonMaps : button_maps) :
  interactionId ∉ modelButtonMaps.*1 →
  set_buttonMap interactionId buttonMap modelButtonMaps
  = modelButtonMaps ++ [(interactionId, buttonMap)].
Proof.
  induction modelButtonMaps as [|[id old] rest IH]; simpl; [done|].
  intros [Hid Hrest]%not_elem_of_cons.
  rewrite bool_decide_eq_false_2 by done. by rewrite IH.
Qed.

(** X22.  A tap on the control of a model of a page that has just been
    rendered does not go through the map of that page when an older map
    is still kept that has the same index: the model selected is the one
    the oldest such map holds, whoever asked for that menu and whatever
    list it showed.  Only when no kept map has the index is it the model
    the control shows. *)
Theorem selection_resolves_through_oldest_menu
    (models : list model) (currentModel interactionId userId : jsstring)
    (page idx : Z) (m : model) (modelButtonMaps : button_maps)
    (userModels : gmap jsstring jsstring) :
  (0 ≤ page)%Z →
  (page * 20 ≤ idx)%Z →
  page_models models page !! Z.to_nat (idx - page * 20) = Some m →
  interactionId ∉ modelButtonMaps.*1 →
  ∃ v,
    renderModelsPage models currentModel page = Some v
    ∧ let kept := set_buttonMap interactionId (stored v) modelButtonMaps in
      let selected := default m (find_model modelButtonMaps idx) in
      find_model kept idx = Some selected
      ∧ selectModel kept userModels userId idx
        = <[userId := model_id selected]> userModels.
Proof.
  intros Hpage Hidx Hm Hfresh.
  destruct (renderModelsPage_stored models currentModel page Hpage)
    as (v & Hview & Hstored).
  exists v. split; [done|]. simpl.
  assert (find_model (set_buttonMap interactionId (stored v) modelButtonMaps) idx
          = Some (default m (find_model modelButtonMaps idx))) as Hfound.
  { rewrite set_buttonMap_fresh, find_model_app by done.
    destruct (find_model modelButtonMaps idx) as [older|]; [done|]. simpl.
    rewrite Hstored. destruct (decide _); [|lia]. by rewrite Hm. }
  split; [done|]. unfold selectModel. by rewrite Hfound.
Qed.

Lemma selection_resolves_through_oldest_menu_witness :
  let models := numbered_model <$> seq 0 47 in
  let filtered := [(JS.lit "7001", {[ 40%Z := numbered_model 3 ]})] in
  ∃ v,
    renderModelsPage models (JS.lit "provider/model-41") 2 = Some v
    ∧ let kept := set_buttonMap (JS.lit "7002") (stored v) filtered in
      let selected := default (numbered_model 40) (find_model filtered 40) in
      find_model kept 40 = Some selected
      ∧ selectModel kept ∅ (JS.lit "42") 40
        = <[JS.lit "42" := model_id selected]> ∅.
Proof.
  intros models filtered.
  apply (selection_resolves_through_oldest_menu models
           (JS.lit "provider/model-41") (JS.lit "7002") (JS.lit "42") 2 40
           (numbered_model 40) filtered ∅).
  - lia.
  - lia.
  - reflexivity.
  - vm_compute. intros Hin. inversion Hin as [|? ? ? Hrest]. inversion Hrest.
Defined.

End Selection.

(** ** Authorization *)

Section Authorization.

Lemma split_on_fields (sep : N) (s field : jsstring) :
  field ∈ split_on sep s → sep ∉ field.
Proof.
  revert field. induction s as [|c s IH]; intros field; simpl.
  - intros ->%list_elem_of_singleton. apply not_elem_of_nil.
  - destruct (N.eqb_spec c sep) as [->|Hne].
    + intros [->|Hin]%elem_of_cons; [apply not_elem_of_nil|by apply IH].
    + pose proof (split_on_nonempty sep s).
      destruct (split_on sep s) as [|first rest]; [done|].
      intros [->|Hin]%elem_of_cons.
      * apply not_elem_of_cons. split; [done|]. apply IH. by left.
      * apply IH. by right.
Qed.

Lemma checkUserAuthorized_decision (allowed : list jsstring)
    (guild : guild_answers) (userId : jsstring) :
  let auth := checkUserAuthorized allowed guild userId in
  (authorized auth = true → is_guild_member guild = true)
  ∧ (isAdmin auth = true → authorized auth = true)
  ∧ (isFirstUser auth = true ↔ is_guild_member guild = true ∧ allowed = [])
  ∧ (allowed = [] → authorized auth = is_guild_member guild
                    ∧ isAdmin auth = is_guild_member guild)
  ∧ (allowed ≠ [] →
     (authorized auth = true
      ↔ is_guild_member guild = true
        ∧ (userId ∈ allowed ∨ has_admin_role guild = true
           ∨ has_edit_role guild = true))
     ∧ (isAdmin auth = true
        ↔ is_guild_member guild = true ∧ has_admin_role guild = true)).
Proof.
  unfold checkUserAuthorized.
  destruct (is_guild_member guild); simpl;
    [|split_and!; intuition congruence].
  destruct allowed as [|id0 allowed']; simpl;
    [split_and!; intuition congruence|].
  destruct (decide (userId ∈ id0 :: allowed')) as [Hin|Hout].
  - rewrite (bool_decide_eq_true_2 _ Hin). simpl.
    destruct (has_admin_role guild); split_and!; intuition congruence.
  - rewrite (bool_decide_eq_false_2 _ Hout).
    destruct (has_admin_role guild), (has_edit_role guild); simpl;
      split_and!; intuition congruence.
Qed.

Lemma allowedUsers_entries (DISCORD_ALLOWED_USERS : option jsstring)
    (id : jsstring) :
  id ∈ allowedUsers DISCORD_ALLOWED_USERS →
  id ≠ [] ∧ id ≠ JS.lit "0" ∧ (COMMA ∉ id)
  ∧ ∀ c, head id = Some c ∨ last id = Some c → JS.is_white_space c = false.
Proof.
  unfold allowedUsers.
  destruct DISCORD_ALLOWED_USERS as [value|]; [|by intros ?%elem_of_nil].
  destruct (JS.truthy (Some value)); [|by intros ?%elem_of_nil].
  intros [[Hid Hzero] (field & -> & Hfield)%list_elem_of_fmap]%list_elem_of_filter.
  split_and!; [by destruct (JS.trim field)|done| |apply trim_ends].
  intros Hcomma. apply (split_on_fields COMMA value field Hfield).
  eapply elem_of_sublist; [done|apply trim_sublist].
Qed.

(** X23.  Who the bot lets in.  No one who is not a member of the guild is
    authorized, and no one is admin without being authorized.  With an
    empty allow list every member is let in as admin and as first user;
    with entries in it a member is authorized exactly when listed or
    holding the admin or the edit role, and is admin exactly when holding
    the admin role.  The allow list read from the environment never holds
    an empty id, the id 0, an id with a comma, or one with white space at
    either end. *)
Theorem authorization_sound
    (DISCORD_ALLOWED_USERS : option jsstring) (guild : guild_answers)
    (userId : jsstring) :
  let allowed := allowedUsers DISCORD_ALLOWED_USERS in
  let auth := checkUserAuthorized allowed guild userId in
  (authorized auth = true → is_guild_member guild = true)
  ∧ (isAdmin auth = true → authorized auth = true)
  ∧ (isFirstUser auth = true ↔ is_guild_member guild = true ∧ allowed = [])
  ∧ (allowed = [] → authorized auth = is_guild_member guild
                    ∧ isAdmin auth = is_guild_member guild)
  ∧ (allowed ≠ [] →
     (authorized auth = true
      ↔ is_guild_member guild = true
        ∧ (userId ∈ allowed ∨ has_admin_role guild = true
           ∨ has_edit_role guild = true))
     ∧ (isAdmin auth = true
        ↔ is_guild_member guild = true ∧ has_admin_role guild = true))
  ∧ (∀ id, id ∈ allowed →
           id ≠ [] ∧ id ≠ JS.lit "0" ∧ (COMMA ∉ id)
           ∧ ∀ c, head id = Some c ∨ last id = Some c →
                  JS.is_white_space c = false).
Proof.
  intros allowed auth.
  destruct (checkUserAuthorized_decision allowed guild userId)
    as (Hmember & Hadmin & Hfirst & Hopen & Hlisted).
  split_and!; [done|done|done|done|done|].
  apply allowedUsers_entries.
Qed.

Lemma authorization_sound_witness :
  let allowed := allowedUsers (Some (JS.lit " 123, 0 ,,456")) in
  let member := {| is_guild_member := true; has_admin_role := false;
                   has_edit_role := false |} in
  allowed = [JS.lit "123"; JS.lit "456"]
  ∧ authorized (checkUserAuthorized allowed member (JS.lit "456")) = true
  ∧ isAdmin (checkUserAuthorized allowed member (JS.lit "456")) = false.
Proof.
  intros allowed member.
  destruct (authorization_sound (Some (JS.lit " 123, 0 ,,456")) member
              (JS.lit "456"))
    as (_ & _ & _ & _ & Hlisted & _).
  split; [vm_compute; reflexivity|].
  destruct Hlisted as [Hauthorized Hadmin]; [discriminate|].
  split.
  - apply Hauthorized. split; [reflexivity|]. left.
    vm_compute. right. left.
  - destruct (isAdmin (checkUserAuthorized allowed member (JS.lit "456")))
      eqn:Hvalue; [|reflexivity].
    destruct Hadmin as [Hrole _]. destruct (Hrole Hvalue) as [_ Hx].
    discriminate Hx.
Defined.

End Authorization.

(** ** The plugin and the bot *)

Section Plugin.

#[local] Arguments syncSession : simpl never.
#[local] Arguments syncMessage : simpl never.
#[local] Arguments plugin_getLatestExchange : simpl never.
#[local] Arguments plugin_extractMessageContent : simpl never.
#[local] Arguments alreadyPosted : simpl never.
#[local] Arguments JS.truthy : simpl never.

(** What a [/sync/session] request of the plugin leaves behind. *)
Lemma postSync_session_outcome (env : plugin_env) (S title : jsstring)
    (directory : option jsstring) (s : system) :
  let result := (postSync_session env S title directory s).1 in
  let s1 := (postSync_session env S title directory s).2 in
  syncedSessions s1 = syncedSessions s
  ∧ plugin_lastPostedContent s1 = plugin_lastPostedContent s
  ∧ requests s1 = requests s ++ [PostSyncSession S title directory]
  ∧ (∀ T, result = Some T → getThread (bot s1) S = Some T)
  ∧ (∀ S' T', S' ≠ S ∨ T' ≠ [] → getThread (bot s) S' = Some T' →
              getThread (bot s1) S' = Some T').
Proof.
  unfold postSync_session, getThread.
  destruct (session_post env) as [served|]; simpl; [|by split_and!].
  destruct (syncSession_cases served
              (Some {| req_sessionId := Some S; req_title := Some title;
                       req_directory := directory |}) (bot s))
    as (resp & w' & Hrun & Hcases).
  rewrite Hrun. simpl. split_and!; [done|done|done| |].
  - destruct Hcases as [[-> [[error ->]|(data & S0 & T0 & [= <-] & [= <-] & _ & Hbound & ->)]]
                       |(data & S0 & r & [= <-] & [= <-] & _ & Hfree & Hcreate & Hcases)];
      simpl; [done|by intros T [= <-]|].
    pose proof (createSyncThread_outcome _ _ _ _ _ _ _ Hcreate)
      as (_ & _ & _ & Hcreated).
    destruct Hcases as [(t & -> & ->)|[[-> [error ->]]|[-> [error ->]]]];
      simpl; [|done..].
    intros T [= <-].
    destruct Hcreated as [(id & _ & [= ->] & -> & _)|(_ & [[=]|[=]] & _)].
    simpl. by rewrite lookup_insert_eq.
  - intros S' T' Hother Hbound.
    destruct Hcases as [[-> _]
                       |(data & S0 & r & [= <-] & [= <-] & _ & Hfree & Hcreate & _)];
      [done|]. simpl in Hfree.
    pose proof (createSyncThread_outcome _ _ _ _ _ _ _ Hcreate)
      as (_ & _ & _ & Hcreated).
    destruct Hcreated as [(id & _ & _ & -> & _)|(_ & _ & -> & _)]; [|done].
    rewrite lookup_insert_ne; [done|]. intros <-. congruence.
Qed.

(** What a [/sync/message] request of the plugin leaves behind. *)
Lemma postSync_message_outcome (env : plugin_env) (S T u a : jsstring)
    (s : system) :
  let s1 := postSync_message env S T u a s in
  syncedSessions s1 = syncedSessions s
  ∧ plugin_lastPostedContent s1 = plugin_lastPostedContent s
  ∧ requests s1 = requests s ++ [PostSyncMessage S T u a]
  ∧ stores (bot s1) = stores (bot s).
Proof.
  unfold postSync_message.
  destruct (message_post env) as [served|]; simpl; [|done].
  split_and!; [done|done|done|]. apply syncMessage_stores.
Qed.

(** All the ways the idle branch of the plugin can go. *)
Lemma plugin_idle_cases (env : plugin_env) (directory : option jsstring)
    (S : jsstring) (s : system) :
  let s' := plugin_idle env directory S s in
  (s' = s
   ∧ (plugin_contents env = None
      ∨ ∃ u a, plugin_contents env = Some (u, a)
               ∧ alreadyPosted (plugin_lastPostedContent s !! S) u a = true))
  ∨ ∃ u a,
      plugin_contents env = Some (u, a)
      ∧ alreadyPosted (plugin_lastPostedContent s !! S) u a = false
      ∧ ((∃ T, plugin_thread s S = Some T ∧ T ≠ []
               ∧ s' = with_plugin_lastPostedContent (record S u a)
                        (postSync_message env S T u a s))
         ∨ (JS.truthy (plugin_thread s S) = false
            ∧ let result := (postSync_session env S (mirror_title u) directory s).1 in
              let s1 := (postSync_session env S (mirror_title u) directory s).2 in
              ((JS.truthy result = false ∧ s' = s1)
               ∨ ∃ T, result = Some T ∧ T ≠ []
                      ∧ s' = with_plugin_lastPostedContent (record S u a)
                               (postSync_message env S T u a
                                  (with_syncedSessions
                                     <[Some S := {| sync_threadId := Some T;
                                                    sync_pending := false |}]>
                                     s1))))).
Proof.
  unfold plugin_idle, plugin_contents, plugin_thread, mirror_title.
  destruct (default [] (message_list env)) as [|m messages] eqn:Hmessages;
    simpl; [left; split; [done|]; by left|].
  destruct (plugin_getLatestExchange (m :: messages)) as [found|]; simpl;
    [|left; split; [done|by left]].
  set (u := plugin_extractMessageContent (userMessage found)).
  set (a := plugin_extractMessageContent (assistantMessage found)).
  assert (negb (JS.truthy (Some u)) && negb (JS.truthy (Some a))
          = negb (JS.truthy (Some u) || JS.truthy (Some a))) as ->
    by (by destruct (JS.truthy (Some u)), (JS.truthy (Some a))).
  destruct (JS.truthy (Some u) || JS.truthy (Some a)); simpl;
    [|left; split; [done|by left]].
  destruct (alreadyPosted (plugin_lastPostedContent s !! S) u a) eqn:Hdup;
    [left; split; [done|]; right; by exists u, a|].
  right. exists u, a. split_and!; [done|done|].
  destruct (JS.truthy (syncedSessions s !! Some S ≫= sync_threadId)) eqn:Hheld;
    simpl.
  - left. destruct (syncedSessions s !! Some S ≫= sync_threadId) as [T|];
      [|by cbv in Hheld].
    exists T. split_and!; [done| |done]. intros ->. by cbv in Hheld.
  - right. split; [done|].
    destruct (postSync_session env S
                (or_else (JS.slice u 0 50) OPENCODE_SESSION) directory s)
      as [result s1]. simpl.
    destruct (JS.truthy result) eqn:Hresult; [right|by left].
    destruct result as [T|]; [|by cbv in Hresult].
    exists T. split_and!; [done| |done]. intros ->. by cbv in Hresult.
Qed.





(** X26.  Once the plugin holds a thread for a session, a second idle
    event that finds the same messages changes nothing at all: no request
    is made, so nothing is posted twice, whatever directory the plugin
    runs in and whether or not the bot can be reached. *)
Theorem plugin_repeat_is_quiet (env env2 : plugin_env)
    (directory directory2 : option jsstring) (S : jsstring) (s : system) :
  message_list env2 = message_list env →
  let s1 := plugin_idle env directory S s in
  JS.truthy (plugin_thread s1 S) = true →
  plugin_idle env2 directory2 S s1 = s1.
Proof.
  intros Hmessages s1 Hheld.
  assert (plugin_contents env2 = plugin_contents env) as Hsame
    by (unfold plugin_contents; by rewrite Hmessages).
  assert (∀ u a, plugin_contents env = Some (u, a) →
                 alreadyPosted (plugin_lastPostedContent s1 !! S) u a = true)
    as Hquiet.
  { intros u a Hsome. subst s1.
    assert (∀ ledger, alreadyPosted (record S u a ledger !! S) u a = true)
      as Hrecorded.
    { intros ledger. unfold record, alreadyPosted. rewrite lookup_insert_eq.
      simpl. by rewrite !bool_decide_eq_true_2. }
    destruct (plugin_idle_cases env directory S s)
      as [[-> [Hnone|(u' & a' & Hsome' & Hdup)]]
         |(u' & a' & Hsome' & _ & Hcases)]; [congruence|congruence|].
    rewrite Hsome in Hsome'. injection Hsome' as <- <-.
    destruct Hcases as [(T & _ & _ & Hs1)|(Hnone & Hcases)].
    { rewrite Hs1. simpl.
      destruct (postSync_message_outcome env S T u a s) as (_ & -> & _).
      apply Hrecorded. }
    destruct (postSync_session_outcome env S (mirror_title u) directory s)
      as (Hsynced & Hledger & _).
    simpl in Hcases. destruct Hcases as [[_ Hs1]|(T & _ & _ & Hs1)].
    - rewrite Hs1 in Hheld. unfold plugin_thread in *.
      rewrite Hsynced in Hheld. congruence.
    - rewrite Hs1. simpl.
      match goal with
      | |- context [postSync_message ?e ?x ?t ?y ?z ?s0] =>
          destruct (postSync_message_outcome e x t y z s0) as (_ & -> & _)
      end.
      apply Hrecorded. }
  destruct (plugin_idle_cases env2 directory2 S s1)
    as [[Hdone _]|(u & a & Hsome & Hnew & _)]; [done|].
  rewrite Hsame in Hsome. rewrite (Hquiet u a Hsome) in Hnew. done.
Qed.

Lemma plugin_repeat_is_quiet_witness :
  let s1 := plugin_idle (connected fix_the_bug "1001") (Some home) abc123
              initial_system in
  plugin_idle (disconnected fix_the_bug) None abc123 s1 = s1.
Proof.
  apply (plugin_repeat_is_quiet (connected fix_the_bug "1001")
           (disconnected fix_the_bug) (Some home) None abc123 initial_system);
    [reflexivity|vm_compute; reflexivity].
Defined.

End Plugin.

(** ** Delivery on a reliable platform *)

Section Delivery.

#[local] Arguments splitMessage : simpl never.
#[local] Arguments JS.truthy : simpl never.

Lemma send_parts_reliable (env : platform) (threadId label : jsstring)
    (parts : list jsstring) (i sent : nat) (w : world) :
  (∀ n, thread_send env n = true) →
  ∃ sent', (send_parts env threadId label parts i sent w).1 = Ok sent'.
Proof.
  intros Hsend. revert i sent w.
  induction parts as [|p parts IH]; intros i sent w; [by eexists|].
  simpl. run. rewrite Hsend. apply IH.
Qed.

Lemma send_split_reliable (env : platform) (threadId label text : jsstring)
    (sent : nat) (w : world) :
  (∀ n, thread_send env n = true) →
  ∃ sent', (send_split env threadId label text sent w).1 = Ok sent'.
Proof.
  intros Hsend. unfold send_split.
  destruct (splitMessage_returns text 1900) as (parts & -> & _); [lia|].
  by apply send_parts_reliable.
Qed.

Lemma postToSyncThread_reliable (env : platform)
    (threadId userContent_ assistantContent_ : jsstring) (w : world) :
  reliable env →
  (postToSyncThread env threadId userContent_ assistantContent_ w).1 = Ok true.
Proof.
  intros [Hfetch Hsend]. unfold postToSyncThread. run. rewrite Hfetch.
  destruct (JS.truthy (Some userContent_)),
    (JS.truthy (Some assistantContent_)); simpl;
    repeat (match goal with
            | |- context [send_split ?e ?t ?l ?x ?n ?w0] =>
                destruct (send_split_reliable e t l x n w0 Hsend) as [? Hok];
                destruct (send_split e t l x n w0) as [? ?];
                simpl in Hok; subst; simpl
            end);
    done.
Qed.

(** On a reliable platform [postToSyncThread] says true, having sent
    everything. *)
Lemma postToSyncThread_delivers (env : platform)
    (threadId userContent_ assistantContent_ : jsstring) (w : world) :
  reliable env →
  ∃ w',
    postToSyncThread env threadId userContent_ assistantContent_ w = (Ok true, w')
    ∧ trace w' = trace w ++ ChannelsFetch threadId
                   :: (ThreadSend threadId
                         <$> posted_messages userContent_ assistantContent_).
Proof.
  intros Hreliable.
  pose proof (postToSyncThread_reliable env threadId userContent_
                assistantContent_ w Hreliable) as Hresult.
  destruct (postToSyncThread_trace env threadId userContent_ assistantContent_ w)
    as (n & posted_ & Hres & Htrace & _ & Hall).
  rewrite Hresult in Hres. injection Hres as <-.
  destruct (postToSyncThread env threadId userContent_ assistantContent_ w)
    as [r w'] eqn:Hrun. simpl in *. subst r.
  exists w'. split; [done|]. by rewrite Htrace, take_ge by (by apply Hall).
Qed.

#[local] Arguments postToSyncThread : simpl never.

(** Creating a thread posts nothing. *)
Lemma createSyncThread_trace (env : platform) (S title : jsstring)
    (directory : option jsstring) (w : world) :
  ∃ calls,
    trace (createSyncThread env S title directory w).2 = trace w ++ calls
    ∧ Forall (λ e, ¬ is_post e) calls.
Proof.
  unfold createSyncThread, ensureSyncChannel.
  destruct (syncChannel w) as [channel|] eqn:Hw;
    destruct (ensure_channel env) as [| |c];
    destruct (starter_send env);
    destruct (start_thread env) as [id|];
    run; rewrite ?Hw; run; rewrite <- ?app_assoc;
    (eexists; split; [reflexivity|]); simpl;
    repeat (apply Forall_cons; split; [by intros []|]);
    by apply Forall_nil.
Qed.

#[local] Arguments createSyncThread : simpl never.
#[local] Arguments shouldPost : simpl never.
#[local] Arguments alreadyPosted : simpl never.
#[local] Arguments syncSession : simpl never.
#[local] Arguments syncMessage : simpl never.

(** X27.  On a reliable platform nothing of an exchange is lost on the
    bot's own path.  When an idle event finds a new exchange and the
    session has a thread once the handler is done, be it the thread it was
    bound to or one just created, then the handler has fetched the
    messages, perhaps created the thread, and then fetched that thread and
    sent it every labelled segment of the user text and of the assistant
    text, in order and nothing else; and the exchange is in the ledger. *)
Theorem handleSessionIdle_delivers
    (env : platform) (cwd S T u a : jsstring) (w : world) :
  reliable env →
  (S ∉ discordInitiatedSessions w) →
  mirror_contents env = Some (u, a) →
  shouldPost (lastPostedContent w) S u a = true →
  let w' := (handleSessionIdle env cwd S w).2 in
  getThread w' S = Some T → T ≠ [] →
  ∃ creation,
    trace w' = trace w ++ SessionMessages S :: creation
                 ++ ChannelsFetch T
                 :: (ThreadSend T <$> posted_messages u a)
    ∧ Forall (λ e, ¬ is_post e) creation
    ∧ lastPostedContent w' !! S
      = Some {| userContent := u; assistantContent := a |}.
Proof.
  intros Hreliable Hout Hsome Hnew w' Hbound HT. subst w'.
  unfold getThread in Hbound.
  destruct (handleSessionIdle_outcome env cwd S w) as (w' & Hrun & Hcases).
  rewrite Hrun in *. simpl in *.
  destruct Hcases as [[Hin _]|[_ [[Hnone _]|(u' & a' & Hsome' & Hcases)]]];
    [done|congruence|].
  rewrite Hsome in Hsome'. injection Hsome' as <- <-.
  destruct Hcases as [[Hdup _]|[_ Hcases]]; [congruence|].
  destruct Hcases as [(T' & HT' & _ & ->)|(Hfree & r & w1 & Hcreate & Hcases)].
  - destruct (postToSyncThread_delivers env T' u a
                (with_effect (SessionMessages S) w) Hreliable)
      as (wp & Hpost & Htrace).
    destruct (postToSyncThread_stores env T' u a
                (with_effect (SessionMessages S) w)) as [Hstores _].
    rewrite Hpost in *. simpl in *.
    apply stores_registry in Hstores as (Hfwd & _). simpl in Hfwd.
    rewrite Hfwd, HT' in Hbound. injection Hbound as ->.
    exists []. rewrite Htrace, <- app_assoc. unfold record.
    by rewrite lookup_insert_eq.
  - destruct (createSyncThread_trace env S (mirror_title u) (Some cwd)
                (with_effect (SessionMessages S) w))
      as (calls & Hcalls & Hquiet).
    pose proof (createSyncThread_outcome _ _ _ _ _ _ _ Hcreate)
      as (_ & _ & _ & Hcreated).
    rewrite Hcreate in Hcalls. simpl in Hcalls.
    destruct Hcases as [(t & -> & ->)|[Hfail ->]].
    + destruct (postToSyncThread_delivers env (thread_id t) u a w1 Hreliable)
        as (wp & Hpost & Htrace).
      destruct (postToSyncThread_stores env (thread_id t) u a w1)
        as [Hstores _].
      rewrite Hpost in *. simpl in *.
      apply stores_registry in Hstores as (Hfwd & _).
      destruct Hcreated as [(id & _ & [= ->] & Hnewfwd & _)
                           |(_ & [[=]|[=]] & _)].
      simpl in *. rewrite Hfwd, Hnewfwd, lookup_insert_eq in Hbound.
      injection Hbound as ->.
      exists calls. rewrite Htrace, Hcalls, <- !app_assoc. unfold record.
      by rewrite lookup_insert_eq.
    + destruct Hcreated as [(id & _ & Hr & _)|(_ & _ & Hsame & _)].
      * destruct Hfail; congruence.
      * simpl in Hsame. rewrite Hsame in Hbound.
        rewrite Hbound in Hfree. exfalso. destruct T; [done|]. by cbv in Hfree.
Qed.

Lemma handleSessionIdle_delivers_witness :
  let env := healthy fix_the_bug "1001" in
  let w' := (handleSessionIdle env home abc123 initial_world).2 in
  ∃ creation,
    trace w'
    = trace initial_world ++ SessionMessages abc123 :: creation
        ++ ChannelsFetch (JS.lit "1001")
        :: (ThreadSend (JS.lit "1001")
              <$> posted_messages (JS.lit "fix the bug")
                    (JS.lit "fixed it in main.go"))
    ∧ Forall (λ e, ¬ is_post e) creation
    ∧ lastPostedContent w' !! abc123
      = Some {| userContent := JS.lit "fix the bug";
                assistantContent := JS.lit "fixed it in main.go" |}.
Proof.
  apply (handleSessionIdle_delivers (healthy fix_the_bug "1001") home abc123
           (JS.lit "1001") (JS.lit "fix the bug") (JS.lit "fixed it in main.go")
           initial_world).
  - split; reflexivity.
  - apply not_elem_of_empty.
  - vm_compute. reflexivity.
  - vm_compute. reflexivity.
  - vm_compute. reflexivity.
  - discriminate.
Defined.

(** A [/sync/session] request posts nothing. *)
Lemma postSync_session_trace (env : plugin_env) (S title : jsstring)
    (directory : option jsstring) (s : system) :
  ∃ calls,
    trace (bot (postSync_session env S title directory s).2)
    = trace (bot s) ++ calls
    ∧ Forall (λ e, ¬ is_post e) calls.
Proof.
  unfold postSync_session.
  destruct (session_post env) as [served|]; simpl;
    [|exists []; by rewrite app_nil_r].
  destruct (syncSession_cases served
              (Some {| req_sessionId := Some S; req_title := Some title;
                       req_directory := directory |}) (bot s))
    as (resp & w' & Hrun & Hcases).
  rewrite Hrun. simpl.
  destruct Hcases as [[-> _]|(data & S0 & r & _ & _ & _ & _ & Hcreate & _)];
    [exists []; by rewrite app_nil_r|].
  match type of Hcreate with
  | createSyncThread ?e ?x ?t ?d ?w0 = _ =>
      destruct (createSyncThread_trace e x t d w0) as (calls & Hcalls & Hquiet)
  end.
  rewrite Hcreate in Hcalls. by exists calls.
Qed.

(** A [/sync/message] request that gets through to a bot on a reliable
    platform delivers both texts to the thread it names. *)
Lemma postSync_message_delivers (env : plugin_env) (served : platform)
    (S T u a : jsstring) (s : system) :
  message_post env = Some served → reliable served → T ≠ [] →
  trace (bot (postSync_message env S T u a s))
  = trace (bot s) ++ ChannelsFetch T :: (ThreadSend T <$> posted_messages u a).
Proof.
  intros Hserved Hreliable HT. unfold postSync_message. rewrite Hserved. simpl.
  destruct (syncMessage_cases served
              (Some {| mreq_sessionId := Some S; mreq_threadId := Some T;
                       mreq_userContent := Some u;
                       mreq_assistantContent := Some a |}) (bot s))
    as (resp & w' & Hrun & Hcases).
  rewrite Hrun. simpl in *.
  destruct Hcases as [(_ & Hfalsy & _)|(T' & posted_ & _ & Htarget & Hpost & _)].
  - destruct T; [done|]. by cbv in Hfalsy.
  - destruct T as [|c T]; [done|].
    change (JS.truthy (Some (c :: T))) with true in Htarget.
    injection Htarget as <-.
    destruct (postToSyncThread_delivers served (c :: T) u a (bot s) Hreliable)
      as (wp & Hpost' & Htrace).
    rewrite Hpost in Hpost'. by injection Hpost' as _ <-.
Qed.

(** X28.  On a reliable platform nothing of an exchange is lost on the
    plugin's path either.  When the plugin finds a new exchange on an idle
    event, its [/sync/message] request gets through, and it holds a
    thread for the session once it is done, be it one it held or one the
    bot has just handed out, then the bot has fetched that thread and sent
    it every labelled segment of the user text and of the assistant text,
    in order and nothing else: the messages the bot's own handler sends
    for the same exchange. *)
Theorem plugin_idle_delivers
    (env : plugin_env) (served : platform) (directory : option jsstring)
    (S T u a : jsstring) (s : system) :
  message_post env = Some served →
  reliable served →
  plugin_contents env = Some (u, a) →
  alreadyPosted (plugin_lastPostedContent s !! S) u a = false →
  let s' := plugin_idle env directory S s in
  plugin_thread s' S = Some T → T ≠ [] →
  ∃ creation,
    trace (bot s')
    = trace (bot s) ++ creation
        ++ ChannelsFetch T :: (ThreadSend T <$> posted_messages u a)
    ∧ Forall (λ e, ¬ is_post e) creation.
Proof.
  intros Hserved Hreliable Hsome Hnew s' Hheld HT. subst s'.
  destruct (plugin_idle_cases env directory S s)
    as [[_ [Hnone|(u' & a' & Hsome' & Hdup)]]
       |(u' & a' & Hsome' & _ & Hcases)]; [congruence|congruence|].
  rewrite Hsome in Hsome'. injection Hsome' as <- <-.
  destruct Hcases as [(T' & Hheld' & HT' & Hs')|(Hnone & Hcases)].
  { rewrite Hs' in *. clear Hs'.
    destruct (postSync_message_outcome env S T' u a s) as (Hsynced & _).
    unfold plugin_thread in Hheld, Hheld'. simpl in Hheld.
    rewrite Hsynced, Hheld' in Hheld. injection Hheld as ->.
    exists []. simpl. split; [|done].
    by apply postSync_message_delivers with served. }
  destruct (postSync_session_outcome env S (mirror_title u) directory s)
    as (Hsynced & _).
  destruct (postSync_session_trace env S (mirror_title u) directory s)
    as (calls & Hcalls & Hquiet).
  simpl in Hcases. destruct Hcases as [[_ Hs']|(T' & _ & HT' & Hs')].
  { rewrite Hs' in Hheld. unfold plugin_thread in *.
    rewrite Hsynced in Hheld. rewrite Hheld in Hnone.
    destruct T; [done|]. by cbv in Hnone. }
  rewrite Hs' in *. clear Hs'.
  match goal with
  | |- context [postSync_message ?e ?x ?t ?y ?z ?s0] =>
      destruct (postSync_message_outcome e x t y z s0) as (Hsynced2 & _);
      pose proof (postSync_message_delivers e served x t y z s0
                    Hserved Hreliable HT') as Htrace
  end.
  unfold plugin_thread in Hheld. simpl in Hheld, Htrace.
  rewrite Hsynced2 in Hheld. simpl in Hheld.
  rewrite lookup_insert_eq in Hheld. injection Hheld as ->.
  exists calls. split; [|done].
  unfold with_plugin_lastPostedContent. cbn [bot].
  by rewrite Htrace, Hcalls, <- app_assoc.
Qed.

Lemma plugin_idle_delivers_witness :
  let s' := plugin_idle (connected fix_the_bug "1001") (Some home) abc123
              initial_system in
  ∃ creation,
    trace (bot s')
    = trace (bot initial_system) ++ creation
        ++ ChannelsFetch (JS.lit "1001")
        :: (ThreadSend (JS.lit "1001")
              <$> posted_messages (JS.lit "fix the bug")
                    (JS.lit "fixed it in main.go"))
    ∧ Forall (λ e, ¬ is_post e) creation.
Proof.
  apply (plugin_idle_delivers (connected fix_the_bug "1001")
           (healthy [] "1001") (Some home) abc123 (JS.lit "1001")
           (JS.lit "fix the bug") (JS.lit "fixed it in main.go")
           initial_system).
  - reflexivity.
  - split; reflexivity.
  - vm_compute. reflexivity.
  - vm_compute. reflexivity.
  - vm_compute. reflexivity.
  - discriminate.
Defined.

End Delivery.

(** ** Replies in a sync thread *)

Section Reply.

#[local] Arguments splitMessage : simpl never.
#[local] Arguments JS.truthy : simpl never.
#[local] Arguments parseModelId : simpl never.
#[local] Arguments getUserModel : simpl never.
#[local] Arguments extractResponseText : simpl never.

(** The loop over the parts of the response sends them in order, the
    label in front of the first, until a send fails. *)
Lemma reply_parts_spec (renv : reply_env) (parts : list jsstring) (i : nat) :
  ∃ n,
    n ≤ List.length parts
    ∧ (reply_parts renv parts i).1
      = ChannelReply
          <$> take n (imap (λ k p, if bool_decide (i + k = 0)
                                   then ASSISTANT_LABEL ++ p else p) parts)
    ∧ ((reply_parts renv parts i).2 = true → n = List.length parts)
    ∧ ((∀ k, reply_send renv k = true) → (reply_parts renv parts i).2 = true).
Proof.
  revert i. induction parts as [|p parts IH]; intros i; simpl.
  - exists 0. by split_and!.
  - destruct (reply_send renv i) eqn:Hsend.
    + destruct (IH (S i)) as (n & Hn & Hcalls & Hok & Hall).
      destruct (reply_parts renv parts (S i)) as [calls ok]. simpl in *.
      exists (S n). split_and!; [lia| |intros; f_equal; by apply Hok|done].
      simpl. rewrite Nat.add_0_r, Hcalls. do 3 f_equal.
      apply imap_ext. intros k x _. simpl.
      by rewrite bool_decide_eq_false_2 by lia.
    + exists 1. simpl. rewrite ?take_0, Nat.add_0_r.
      split_and!; [lia|done|done|].
      intros Hall. rewrite Hall in Hsend. done.
Qed.

(** What the [try] block does once the typing indicator is out. *)
Lemma reply_attempt_calls (renv : reply_env)
    (userModels : gmap jsstring jsstring) (OPENCODE_MODEL : option jsstring)
    (S userId content : jsstring) :
  let prompt := SessionPrompt S content
                  (parseModelId (getUserModel userModels OPENCODE_MODEL userId)) in
  let attempt := reply_attempt renv userModels OPENCODE_MODEL S userId content in
  (typing_ok renv = false ∧ attempt = ([SendTyping], false))
  ∨ (typing_ok renv = true
     ∧ ∃ sent,
         attempt.1 = SendTyping :: prompt :: (ChannelReply <$> sent)
         ∧ (prompt_result renv = None → sent = [] ∧ attempt.2 = false)
         ∧ ∀ response,
             prompt_result renv = Some response →
             let text := extractResponseText response in
             let replies := if JS.truthy (Some text)
                            then labelled ASSISTANT_LABEL (segments text)
                            else [NO_RESPONSE] in
             (∃ n, sent = take n replies)
             ∧ (attempt.2 = true → sent = replies)
             ∧ ((∀ k, reply_send renv k = true) → attempt.2 = true)).
Proof.
  unfold reply_attempt.
  destruct (typing_ok renv); simpl; [right|by left]. split; [done|].
  destruct (prompt_result renv) as [response|]; simpl;
    [|exists []; by split_and!].
  unfold segments, labelled.
  destruct (JS.truthy (Some (extractResponseText response))) eqn:Htext.
  - destruct (splitMessage_returns (extractResponseText response) 1900)
      as (parts & Hsplit & _); [lia|]. rewrite Hsplit.
    destruct (reply_parts_spec renv parts 0) as (n & Hn & Hcalls & Hok & Hall).
    destruct (reply_parts renv parts 0) as [calls ok]. cbn [fst snd] in *.
    exists (take n (imap (λ k p, if bool_decide (k = 0)
                                 then ASSISTANT_LABEL ++ p else p) parts)).
    split_and!; [by rewrite Hcalls|done|].
    intros ? [= <-]. cbv zeta. rewrite Htext, Hsplit. cbn [default].
    split_and!; [by exists n| |done].
    intros Hrun. rewrite (Hok Hrun). apply take_ge. by rewrite length_imap.
  - exists [NO_RESPONSE]. split_and!; [done|done|].
    intros ? [= <-]. cbv zeta. rewrite Htext.
    split_and!; [by exists 1|done|].
    intros Hall. apply Hall.
Qed.

(** X29.  A message in a thread goes to the session the thread resolves
    to, and to no other.  When the thread resolves to no session the
    handler makes no call at all.  When it resolves to a session, then
    also after any further operation on the sync state (the deletion of
    that session included) the handler shows the typing indicator and then
    prompts that session, once, with the text of the message and the model
    of its author, read through [getUserModel] and [parseModelId]; what
    follows are replies into the thread and, after a failure, the error
    note.  (The thread id the platform hands out is one that is not in
    use.) *)
Theorem reply_reaches_session (renv : reply_env) (w : world)
    (userModels : gmap jsstring jsstring) (OPENCODE_MODEL : option jsstring)
    (T userId content : jsstring) :
  (JS.truthy (getSession w T) = false →
   handleSyncThreadReply renv w userModels OPENCODE_MODEL T userId content
   = ([], true))
  ∧ ∀ op S,
      getSession w T = Some S → S ≠ [] →
      (∀ env, operation_env op = Some env → fresh_thread env w) →
      let calls :=
        (handleSyncThreadReply renv (perform op w) userModels OPENCODE_MODEL
           T userId content).1 in
      (typing_ok renv = false → calls = [SendTyping; ErrorNote])
      ∧ (typing_ok renv = true →
         ∃ sent note,
           calls = SendTyping
                     :: SessionPrompt S content
                          (parseModelId
                             (getUserModel userModels OPENCODE_MODEL userId))
                     :: (ChannelReply <$> sent) ++ note
           ∧ (note = [] ∨ note = [ErrorNote])).
Proof.
  split.
  - unfold handleSyncThreadReply, getSession. intros Hnone.
    destruct (threadToSession w !! T) as [id|]; [|done]. by rewrite Hnone.
  - intros op S Hroute HS Hfresh calls. subst calls.
    pose proof (perform_keeps_route op w T S Hroute Hfresh) as Hkept.
    unfold handleSyncThreadReply. unfold getSession in Hkept. rewrite Hkept.
    rewrite (truthy_nonempty S HS). cbn [negb].
    destruct (reply_attempt_calls renv userModels OPENCODE_MODEL S userId content)
      as [[Htyping Hattempt]|(Htyping & sent & Hcalls & _)].
    + rewrite Hattempt. cbn [fst snd]. split; [done|congruence].
    + destruct (reply_attempt renv userModels OPENCODE_MODEL S userId content)
        as [calls ok]. cbn [fst snd] in *. subst calls.
      split; [congruence|]. intros _.
      destruct ok; cbn [fst].
      * exists sent, []. rewrite app_nil_r. split; [done|by left].
      * exists sent, [ErrorNote]. split; [done|by right].
Qed.

Lemma reply_reaches_session_witness :
  let renv := {| typing_ok := true; prompt_result := None;
                 reply_send := λ _, true; note_send := true |} in
  let w := bound_world abc123 (JS.lit "1001") in
  ∃ sent note,
    (handleSyncThreadReply renv (perform (ProcessEvent (deleted_event abc123)) w)
       ∅ None (JS.lit "1001") (JS.lit "42") (JS.lit "and the tests?")).1
    = SendTyping
        :: SessionPrompt abc123 (JS.lit "and the tests?")
             (parseModelId (getUserModel ∅ None (JS.lit "42")))
        :: (ChannelReply <$> sent) ++ note
    ∧ (note = [] ∨ note = [ErrorNote]).
Proof.
  intros renv w.
  destruct (reply_reaches_session renv w ∅ None (JS.lit "1001") (JS.lit "42")
              (JS.lit "and the tests?")) as [_ Hknown].
  destruct (Hknown (ProcessEvent (deleted_event abc123)) abc123)
    as [_ Hprompt]; [reflexivity|discriminate|intros env [=]|].
  by apply Hprompt.
Defined.

(** X30.  When the backend answers and every send goes through, the
    reply handler returns having put the whole answer into the thread:
    the labelled segments of the response text in order, or a fixed note
    when the response has no text.  The response text is that of the text
    parts, one per line.  Every message it sends then holds between 1 and
    1915 code units. *)
Theorem reply_delivers_response (renv : reply_env) (w : world)
    (userModels : gmap jsstring jsstring) (OPENCODE_MODEL : option jsstring)
    (T S userId content : jsstring) (response : option prompt_data) :
  getSession w T = Some S → S ≠ [] →
  typing_ok renv = true →
  prompt_result renv = Some response →
  (∀ k, reply_send renv k = true) →
  let text := extractResponseText response in
  let replies := if JS.truthy (Some text)
                 then labelled ASSISTANT_LABEL (segments text)
                 else [NO_RESPONSE] in
  handleSyncThreadReply renv w userModels OPENCODE_MODEL T userId content
  = (SendTyping
       :: SessionPrompt S content
            (parseModelId (getUserModel userModels OPENCODE_MODEL userId))
       :: (ChannelReply <$> replies),
     true)
  ∧ Forall (λ c, (1 ≤ JS.len c ≤ 1915)%Z) replies
  ∧ (∀ parts, (response ≫= data_parts) = Some parts → text = text_lines parts).
Proof.
  intros Hroute HS Htyping Hprompt Hsend text replies.
  split_and!.
  - unfold handleSyncThreadReply. unfold getSession in Hroute. rewrite Hroute.
    rewrite (truthy_nonempty S HS). cbn [negb].
    destruct (reply_attempt_calls renv userModels OPENCODE_MODEL S userId content)
      as [[Hoff _]|(_ & sent & Hcalls & _ & Hresponse)]; [congruence|].
    destruct (Hresponse response Hprompt) as (_ & Hall & Hok).
    destruct (reply_attempt renv userModels OPENCODE_MODEL S userId content)
      as [calls ok]. cbn [fst snd] in *.
    rewrite (Hok Hsend) in *. rewrite Hcalls, (Hall eq_refl). done.
  - subst replies. destruct (JS.truthy (Some text)).
    + apply labelled_within; [by vm_compute|apply segments_ok].
    + apply Forall_singleton. by vm_compute.
  - intros parts Hparts. subst text. unfold extractResponseText.
    destruct response as [r|]; [|done]. simpl in Hparts. by rewrite Hparts.
Qed.

Lemma reply_delivers_response_witness :
  let answer := Some {| data_parts :=
                          Some [{| part_type := Some (JS.lit "text");
                                   part_text := Some (JS.lit "done") |}];
                        data_content := None |} in
  let renv := {| typing_ok := true; prompt_result := Some answer;
                 reply_send := λ _, true; note_send := true |} in
  (handleSyncThreadReply renv (bound_world abc123 (JS.lit "1001")) ∅ None
     (JS.lit "1001") (JS.lit "42") (JS.lit "and the tests?")).1
  = [SendTyping;
     SessionPrompt abc123 (JS.lit "and the tests?")
       {| providerID := Some (JS.lit "opencode");
          modelID := JS.lit "minimax-m2.5-free" |};
     ChannelReply (ASSISTANT_LABEL ++ JS.lit "done")].
Proof.
  intros answer renv.
  destruct (reply_delivers_response renv (bound_world abc123 (JS.lit "1001"))
              ∅ None (JS.lit "1001") abc123 (JS.lit "42")
              (JS.lit "and the tests?") answer)
    as (Hrun & _); [reflexivity|discriminate|reflexivity|reflexivity|done|].
  rewrite Hrun. vm_compute. reflexivity.
Defined.

End Reply.
